(** * Ingestion and dispatch core of the multi-chain indexer

    A shallow embedding of the TypeScript sources:
    - [Js]: the fragment of ECMAScript the sources compute with
      (completions for [try]/[catch], binary64 numbers, [BigInt] parsing,
      [toLocaleString('en-US', ...)]);
    - [Tokens]: [formatTokenAmount] and [isLargeTransfer]
      (blockchain/evm/utils/evm-constants.ts and the copies inside the
      listener and the handler);
    - [Dispatcher]: [EventDispatcherService];
    - [Listener]: the pull listener [EvmBlockScanListener];
    - [Handler]: [ERC20TransferHandler] with [ContractDataService] and the
      event collection.
    Definitions come first, the properties of the specification follow. *)

From Stdlib Require Import ZArith List String Ascii Bool Lia QArith Qabs.
From Stdlib Require Import Sorting.Sorted Sorting.Permutation SpecFloat.
From stdpp Require Import gmap strings list sorting.

Local Open Scope string_scope.
Local Open Scope list_scope.
Local Open Scope Z_scope.

(* ===================================================================== *)
(** ** The ECMAScript fragment *)
(* ===================================================================== *)

Module Js.

(** Thrown values.  [DbError code] is a driver error carrying [error.code]. *)
Inductive error : Type :=
| SyntaxError
| RangeError
| TypeError
| DbError (code : Z).

(** The outcome of evaluating a statement list: it returns or it throws. *)
Inductive completion (A : Type) : Type :=
| Normal (a : A)
| Throw (e : error).
Arguments Normal {A} a.
Arguments Throw {A} e.

Definition bind {A B} (c : completion A) (k : A -> completion B) : completion B :=
  match c with
  | Normal a => k a
  | Throw e => Throw e
  end.

(** [try { body } catch (e) { handler e }] *)
Definition try_catch {A} (body : completion A) (handler : error -> completion A)
  : completion A :=
  match body with
  | Normal a => Normal a
  | Throw e => handler e
  end.

(** *** binary64 numbers

    A finite number is kept as an integer significand and a binary exponent,
    [Fin m e] standing for [m * 2^e]; the representation is not normalised.
    The sign of zero is not tracked: every number below is obtained from
    integers by conversion and division, where it cannot be observed. *)
Inductive f64 : Type :=
| Fin (m e : Z)
| Inf (neg : bool)
| NaN.

(** Nearest integer to [n / d] for [0 < d], ties to the even integer. *)
Definition rne (n d : Z) : Z :=
  let q := n / d in
  let r := n mod d in
  if 2 * r <? d then q
  else if d <? 2 * r then q + 1
  else if Z.even q then q else q + 1.

(** [floor (log2 (n / d))] for [0 < n] and [0 < d]. *)
Definition floor_log2_ratio (n d : Z) : Z :=
  let k := Z.log2 n - Z.log2 d in
  let reaches := if 0 <=? k then d * 2 ^ k <=? n else d <=? n * 2 ^ (- k) in
  if reaches then k else k - 1.

(** The binary64 number nearest to the rational [n / d] ([0 < d]), round to
    nearest, ties to even: 53 significant bits, least exponent [-1074],
    overflow to infinity from [2^1024]. *)
Definition round_f64 (n d : Z) : f64 :=
  if n =? 0 then Fin 0 0
  else
    let e := Z.max (floor_log2_ratio (Z.abs n) d - 52) (-1074) in
    let m := if 0 <=? e then rne n (d * 2 ^ e) else rne (n * 2 ^ (- e)) d in
    if (0 <=? e) && (2 ^ 1024 <=? Z.abs m * 2 ^ e) then Inf (n <? 0)
    else Fin m e.

(** [Number(b)] for a BigInt [b]. *)
Definition Number_of_BigInt (b : Z) : f64 := round_f64 b 1.

(** A Number literal that is an integer, such as [1000000]. *)
Definition f64_of_Z (z : Z) : f64 := round_f64 z 1.

(** [x / y] on Numbers: the exact quotient, rounded. *)
Definition f64_div (x y : f64) : f64 :=
  match x, y with
  | NaN, _ => NaN
  | _, NaN => NaN
  | Inf _, Inf _ => NaN
  | Inf s, Fin m _ => Inf (xorb s (m <? 0))
  | Fin _ _, Inf _ => Fin 0 0
  | Fin m1 e1, Fin m2 e2 =>
      if m2 =? 0 then (if m1 =? 0 then NaN else Inf (m1 <? 0))
      else round_f64 (Z.sgn m2 * m1 * 2 ^ Z.max (e1 - e2) 0)
                     (Z.abs m2 * 2 ^ Z.max (e2 - e1) 0)
  end.

(** [x >= y] on Numbers. *)
Definition f64_ge (x y : f64) : bool :=
  match x, y with
  | NaN, _ => false
  | _, NaN => false
  | Inf sx, Inf sy => implb sx sy
  | Inf sx, Fin _ _ => negb sx
  | Fin _ _, Inf sy => sy
  | Fin m1 e1, Fin m2 e2 =>
      let e := Z.min e1 e2 in
      m2 * 2 ^ (e2 - e) <=? m1 * 2 ^ (e1 - e)
  end.

(** [10 ** d] for an integer [d]: the Number nearest to the power of ten
    (exact up to [10 ** 22]). *)
Definition pow10 (d : Z) : f64 :=
  if 0 <=? d then round_f64 (10 ^ d) 1 else round_f64 1 (10 ^ (- d)).

(** [BigInt(x)] for a Number [x]: defined on integral values only. *)
Definition BigInt_of_Number (x : f64) : completion Z :=
  match x with
  | Fin m e =>
      if 0 <=? e then Normal (m * 2 ^ e)
      else if m mod 2 ^ (- e) =? 0 then Normal (m / 2 ^ (- e))
      else Throw RangeError
  | Inf _ => Throw RangeError
  | NaN => Throw RangeError
  end.

(** BigInt division truncates towards zero and throws on a zero divisor. *)
Definition BigInt_div (a b : Z) : completion Z :=
  if b =? 0 then Throw RangeError else Normal (Z.quot a b).

(** *** [BigInt(string)]

    StringToBigInt: surrounding white space is dropped, the empty string is
    [0n], a decimal literal may carry a sign, the prefixes [0x], [0o] and
    [0b] take no sign; anything else is a SyntaxError.  White space is the
    ASCII part of the ECMAScript set. *)
Definition is_whitespace (c : ascii) : bool :=
  let n := N_of_ascii c in
  ((9 <=? n) && (n <=? 13))%N || (n =? 32)%N.

Fixpoint drop_whitespace (cs : list ascii) : list ascii :=
  match cs with
  | c :: cs' => if is_whitespace c then drop_whitespace cs' else cs
  | [] => []
  end.

Definition trim (cs : list ascii) : list ascii :=
  rev (drop_whitespace (rev (drop_whitespace cs))).

Definition digit_value (c : ascii) : option Z :=
  let n := Z.of_N (N_of_ascii c) in
  if (48 <=? n) && (n <=? 57) then Some (n - 48)
  else if (97 <=? n) && (n <=? 102) then Some (n - 87)
  else if (65 <=? n) && (n <=? 70) then Some (n - 55)
  else None.

Fixpoint digits_value (radix acc : Z) (cs : list ascii) : option Z :=
  match cs with
  | [] => Some acc
  | c :: cs' =>
      match digit_value c with
      | Some v => if v <? radix then digits_value radix (acc * radix + v) cs' else None
      | None => None
      end
  end.

(** A decimal digit. *)
Definition is_digit (c : ascii) : bool :=
  match digit_value c with
  | Some v => v <? 10
  | None => false
  end.

(** At least one digit, all of them digits of the radix. *)
Definition literal_value (radix : Z) (cs : list ascii) : option Z :=
  match cs with
  | [] => None
  | _ :: _ => digits_value radix 0 cs
  end.

Definition StringToBigInt (s : string) : option Z :=
  match trim (list_ascii_of_string s) with
  | [] => Some 0
  | "0"%char :: "x"%char :: ds => literal_value 16 ds
  | "0"%char :: "X"%char :: ds => literal_value 16 ds
  | "0"%char :: "o"%char :: ds => literal_value 8 ds
  | "0"%char :: "O"%char :: ds => literal_value 8 ds
  | "0"%char :: "b"%char :: ds => literal_value 2 ds
  | "0"%char :: "B"%char :: ds => literal_value 2 ds
  | "-"%char :: ds => Z.opp <$> literal_value 10 ds
  | "+"%char :: ds => literal_value 10 ds
  | ds => literal_value 10 ds
  end.

Definition BigInt_of_string (s : string) : completion Z :=
  match StringToBigInt s with
  | Some b => Normal b
  | None => Throw SyntaxError
  end.

(** *** Decimal rendering *)

Definition digit_char (d : Z) : ascii := ascii_of_N (Z.to_N (48 + d)).

(** The [k] low decimal digits of [n], most significant first. *)
Fixpoint fixed_digits (k : nat) (n : Z) : list ascii :=
  match k with
  | O => []
  | S k' => fixed_digits k' (n / 10) ++ [digit_char (n mod 10)]
  end.

(** The number of decimal digits of [0 <= n]; the fuel bounds the loop. *)
Fixpoint num_digits_fuel (fuel : nat) (n : Z) : nat :=
  match fuel with
  | O => 1%nat
  | S f => if n <? 10 then 1%nat else S (num_digits_fuel f (n / 10))
  end.

Definition num_digits (n : Z) : nat := num_digits_fuel (Z.to_nat (Z.log2 n)) n.

(** The decimal digits of [0 <= n], without leading zeros. *)
Definition decimal_digits (n : Z) : list ascii := fixed_digits (num_digits n) n.

(** [b.toString()] for a BigInt. *)
Definition BigInt_toString (b : Z) : string :=
  string_of_list_ascii
    ((if b <? 0 then ["-"%char] else []) ++ decimal_digits (Z.abs b)).

(** Grouping separators of locale en-US, on the digits in reverse order:
    a comma after every third digit that has a digit above it. *)
Fixpoint group3_rev (ds : list ascii) : list ascii :=
  match ds with
  | a :: b :: c :: rest =>
      match rest with
      | [] => ds
      | _ :: _ => a :: b :: c :: ","%char :: group3_rev rest
      end
  | _ => ds
  end.

Definition grouped (ds : list ascii) : list ascii := rev (group3_rev (rev ds)).

(** Trailing zeros of a fraction are dropped, at most [extra] of them; the
    digits are in reverse order. *)
Fixpoint strip_zeros_rev (extra : nat) (ds : list ascii) : list ascii :=
  match extra, ds with
  | S n, c :: rest => if Ascii.eqb c "0" then strip_zeros_rev n rest else ds
  | _, _ => ds
  end.

(** Nearest integer to [n / d] for [0 <= n] and [0 < d], ties away from
    zero (the default rounding mode of Intl.NumberFormat). *)
Definition round_half_expand (n d : Z) : Z := (2 * n + d) / (2 * d).

(** [|m * 2^e| * 10^k] rounded to an integer. *)
Definition scaled_magnitude (m e : Z) (k : Z) : Z :=
  if 0 <=? e then Z.abs m * 2 ^ e * 10 ^ k
  else round_half_expand (Z.abs m * 10 ^ k) (2 ^ (- e)).

(** [x.toLocaleString('en-US', { minimumFractionDigits: mn,
    maximumFractionDigits: mx })]: the value is rounded to [mx] fraction
    digits, the integer part is grouped by thousands, trailing zeros are
    dropped down to [mn] digits.  Digit counts outside [0..100], or
    [mx < mn], are a RangeError. *)
Definition toLocaleString_en_US (x : f64) (mn mx : Z) : completion string :=
  if (mn <? 0) || (100 <? mx) || (mx <? mn) then Throw RangeError
  else
    match x with
    | NaN => Normal "NaN"
    | Inf neg => Normal ((if neg then "-" else "") ++ "∞")%string
    | Fin m e =>
        let s := scaled_magnitude m e mx in
        let ip := s / 10 ^ mx in
        let fp := s mod 10 ^ mx in
        let frac := rev (strip_zeros_rev (Z.to_nat (mx - mn))
                                         (rev (fixed_digits (Z.to_nat mx) fp))) in
        Normal (string_of_list_ascii
                  ((if m <? 0 then ["-"%char] else [])
                   ++ grouped (decimal_digits ip)
                   ++ (match frac with [] => [] | _ :: _ => "."%char :: frac end)))
    end.

(** What [toLocaleString] prints for [q] millionths. *)
Definition rendered (q : Z) : string :=
  string_of_list_ascii
    (grouped (decimal_digits (q / 10 ^ 6))
     ++ "."%char :: rev (strip_zeros_rev 4 (rev (fixed_digits 6 (q mod 10 ^ 6))))).

(** The number a rendered string denotes once its commas are removed (the
    argument the handler passes to [parseFloat]), as an exact rational:
    an optional sign, digits, and optionally a point followed by digits. *)
Definition strip_commas (cs : list ascii) : list ascii :=
  List.filter (fun c => negb (Ascii.eqb c ",")) cs.

Fixpoint split_at_point (cs : list ascii) : list ascii * option (list ascii) :=
  match cs with
  | [] => ([], None)
  | c :: cs' =>
      if Ascii.eqb c "." then ([], Some cs')
      else let '(ip, fp) := split_at_point cs' in (c :: ip, fp)
  end.

Definition unsigned_decimal_value (cs : list ascii) : option Q :=
  let '(ip, fp) := split_at_point cs in
  match literal_value 10 ip, fp with
  | Some i, None => Some (inject_Z i)
  | Some i, Some fs =>
      match literal_value 10 fs with
      | Some f =>
          let scale := 10 ^ Z.of_nat (length fs) in
          Some (Qmake (i * scale + f) (Z.to_pos scale))
      | None => None
      end
  | None, _ => None
  end.

Definition decimal_value (s : string) : option Q :=
  match strip_commas (list_ascii_of_string s) with
  | c :: cs =>
      if Ascii.eqb c "-" then Qopp <$> unsigned_decimal_value cs
      else unsigned_decimal_value (c :: cs)
  | [] => None
  end.

(** [valueRaw / 10^decimals] as a rational, for [0 <= decimals]. *)
Definition exact_amount (valueRaw decimals : Z) : Q :=
  Qmake valueRaw (Z.to_pos (10 ^ decimals)).

(** The same number in the Standard Library's specification of IEEE 754,
    used to cross-check the operations above. *)
Definition to_spec (x : f64) : spec_float :=
  match x with
  | Fin m e => binary_normalize 53 1024 m e false
  | Inf s => S754_infinity s
  | NaN => S754_nan
  end.

End Js.

(** [completion] is a monad; stdpp's [x ← c; k] sequences two statements. *)
#[global] Instance completion_ret : MRet Js.completion := @Js.Normal.
#[global] Instance completion_bind : MBind Js.completion :=
  fun A B k c => Js.bind c k.

(** One step of a sequence of statements. *)
Ltac js_step := cbn [mbind completion_bind Js.bind Js.try_catch].

(* ===================================================================== *)
(** ** Token amounts (evm-constants.ts) *)
(* ===================================================================== *)

Module Tokens.
Import Js.

(** [amount: string | bigint] *)
Inductive amount : Type :=
| AString (s : string)
| ABigInt (b : Z).

Definition amount_toString (a : amount) : string :=
  match a with
  | AString s => s
  | ABigInt b => BigInt_toString b
  end.

(** [typeof amount === 'string' ? BigInt(amount) : amount] *)
Definition amount_value (a : amount) : completion Z :=
  match a with
  | AString s => BigInt_of_string s
  | ABigInt b => Normal b
  end.

(** [BigInt(10 ** decimals)] *)
Definition divisor_of (decimals : Z) : completion Z :=
  BigInt_of_Number (pow10 decimals).

(** The body of the [try] block of [formatTokenAmount]. *)
Definition formatTokenAmount_try (a : amount) (decimals maxDecimals : Z)
  : completion string :=
  value ← amount_value a;
  divisor ← divisor_of decimals;
  q ← BigInt_div (value * 1000000) divisor;
  let formatted := f64_div (Number_of_BigInt q) (f64_of_Z 1000000) in
  toLocaleString_en_US formatted 2 maxDecimals.

Definition formatTokenAmount (a : amount) (decimals maxDecimals : Z)
  : completion string :=
  try_catch (formatTokenAmount_try a decimals maxDecimals)
            (fun _ => Normal (amount_toString a)).

(** The body of the [try] block of [isLargeTransfer]. *)
Definition isLargeTransfer_try (a : amount) (decimals : Z) (isStablecoin : bool)
  : completion bool :=
  value ← amount_value a;
  divisor ← divisor_of decimals;
  let tokenAmount := f64_div (Number_of_BigInt value) (Number_of_BigInt divisor) in
  if isStablecoin then Normal (f64_ge tokenAmount (f64_of_Z 100000))
  else Normal (f64_ge tokenAmount (f64_of_Z 1000000)).

Definition isLargeTransfer (a : amount) (decimals : Z) (isStablecoin : bool)
  : completion bool :=
  try_catch (isLargeTransfer_try a decimals isStablecoin)
            (fun _ => Normal false).

(** The precision bound of the specification, as it is stated there: for
    every [valueRaw >= 10^decimals] the rendered string reads back as a
    number within [10^-6] of [valueRaw / 10^decimals]. *)
Definition reads_back_within_1e6 (valueRaw decimals : Z) : Prop :=
  exists s r,
    formatTokenAmount (ABigInt valueRaw) decimals 6 = Normal s
    /\ decimal_value s = Some r
    /\ (Qabs (r - exact_amount valueRaw decimals) <= 1 # 1000000)%Q.

Definition spec_precision_bound : Prop :=
  forall valueRaw decimals,
    0 <= decimals -> 10 ^ decimals <= valueRaw ->
    reads_back_within_1e6 valueRaw decimals.

(** The classification of the specification: the exact quotient
    [valueRaw / 10^decimals] reaches the threshold. *)
Definition spec_isLarge (valueRaw decimals : Z) (isStablecoin : bool) : bool :=
  if isStablecoin then 100000 * 10 ^ decimals <=? valueRaw
  else 1000000 * 10 ^ decimals <=? valueRaw.

End Tokens.


(* ===================================================================== *)
(** ** Data model (interfaces/blockchain.interface.ts and the schemas) *)
(* ===================================================================== *)

Module Model.

(** [data.event.args] as the listeners build it (formatEventArgs). *)
Inductive event_args : Type :=
| TransferArgs (from to value valueFormatted : string) (isLargeTransfer : bool)
| ApprovalArgs (owner spender value valueFormatted : string)
| RawArgs (args : list string).

Record ContractInfo : Type := {
  ci_name : string;
  ci_symbol : string;
  ci_type : string;
}.

Record EventInfo : Type := {
  ev_name : string;
  ev_signature : string;
  ev_args : event_args;
}.

(** [event.data]; an absent [topics] array reads as the empty one. *)
Record EventData : Type := {
  topics : list string;
  rawData : string;
  logIndex : option Z;
  transactionIndex : option Z;
  gasUsed : string;
  status : option Z;
  contract : ContractInfo;
  event : EventInfo;
}.

Record BlockchainEvent : Type := {
  chainId : Z;
  blockNumber : Z;
  transactionHash : string;
  eventType : string;
  contractAddress : string;
  data : option EventData;
  timestamp : Z;
}.

(** [config.metadata] of a ContractConfig document. *)
Record ConfigMetadata : Type := {
  decimals : option Z;
  isStablecoin : option bool;
  priority : option string;
}.

Record ContractConfig : Type := {
  address : string;
  cfg_chainId : Z;
  cfg_name : string;
  cfg_symbol : string;
  cfg_type : string;
  events : list string;
  abi : list string;
  enabled : bool;
  metadata : option ConfigMetadata;
}.

(** [event.data?.logIndex] *)
Definition event_logIndex (ev : BlockchainEvent) : option Z :=
  d ← data ev; logIndex d.

(** [(event.data?.topics as string[]) || []] *)
Definition event_topics (ev : BlockchainEvent) : list string :=
  match data ev with
  | Some d => topics d
  | None => []
  end.

End Model.

(* ===================================================================== *)
(** ** EventDispatcherService (core/event-dispatcher.service.ts)

    The service is asynchronous but runs on one thread: control changes
    hands only at an [await].  A state of the model is the state of the
    object between two such points, and an [action] is what runs from one
    to the next: a call of a public method up to its first [await], or the
    drain loop resuming once the handlers of the current event have all
    settled.  Handlers act on a store [W]; the handlers of one event are
    applied in registration order when they settle. *)
(* ===================================================================== *)

Module Dispatcher.
Import Js Model.

Section Dispatcher.
Context {W : Type}.

Record IEventHandler : Type := {
  handler_name : string;
  canHandle : BlockchainEvent -> bool;
  handle : BlockchainEvent -> W -> W * completion unit;
}.

Inductive log_entry : Type :=
| LogRegistered (name : string)
| LogReceived (ev : BlockchainEvent)
| LogNoHandlers (ev : BlockchainEvent)
| LogProcessing (eligible : nat)
| LogHandlerSucceeded (name : string)
| LogHandlerFailed (name : string) (err : error)
| LogQueueCleared.

(** One call of [handler.handle(event)] and how it settled. *)
Record invocation : Type := {
  inv_handler : string;
  inv_event : BlockchainEvent;
  inv_outcome : completion unit;
}.

(** The first three fields are the fields of the class.  [awaiting] is the
    event held by the drain loop while it awaits [processEvent];
    [activeDrains] counts the activations of [processEventQueue] that are
    inside their [try] block; the remaining fields record what happened. *)
Record state : Type := {
  handlers : list IEventHandler;
  eventQueue : list BlockchainEvent;
  isProcessing : bool;
  awaiting : option BlockchainEvent;
  activeDrains : nat;
  received : list BlockchainEvent;
  processed : list BlockchainEvent;
  invocations : list invocation;
  logger : list log_entry;
  world : W;
}.

Definition init (w : W) : state :=
  {| handlers := []; eventQueue := []; isProcessing := false;
     awaiting := None; activeDrains := 0; received := []; processed := [];
     invocations := []; logger := []; world := w |}.

Definition registerHandler (h : IEventHandler) (st : state) : state :=
  {| handlers := handlers st ++ [h];
     eventQueue := eventQueue st; isProcessing := isProcessing st;
     awaiting := awaiting st; activeDrains := activeDrains st;
     received := received st; processed := processed st;
     invocations := invocations st;
     logger := logger st ++ [LogRegistered (handler_name h)];
     world := world st |}.

(** The body of the [map] callback of [processEvent]: the handler runs, its
    failure is caught and logged. *)
Definition run_handler (ev : BlockchainEvent)
    (acc : W * list invocation * list log_entry) (h : IEventHandler)
  : W * list invocation * list log_entry :=
  let '(w, calls, lg) := acc in
  let '(w', outcome) := handle h ev w in
  (w',
   calls ++ [{| inv_handler := handler_name h; inv_event := ev;
                inv_outcome := outcome |}],
   lg ++ [match outcome with
          | Normal _ => LogHandlerSucceeded (handler_name h)
          | Throw err => LogHandlerFailed (handler_name h) err
          end]).

Definition eligibleHandlers (ev : BlockchainEvent) (st : state) : list IEventHandler :=
  List.filter (fun h => canHandle h ev) (handlers st).

(** [processEvent(event)], from the call to the end of [Promise.allSettled]. *)
Definition processEvent (ev : BlockchainEvent) (st : state) : state :=
  match eligibleHandlers ev st with
  | [] =>
      {| handlers := handlers st; eventQueue := eventQueue st;
         isProcessing := isProcessing st; awaiting := awaiting st;
         activeDrains := activeDrains st; received := received st;
         processed := processed st ++ [ev];
         invocations := invocations st;
         logger := logger st ++ [LogNoHandlers ev];
         world := world st |}
  | eligible =>
      let '(w, calls, lg) :=
        fold_left (run_handler ev) eligible
          (world st, invocations st,
           logger st ++ [LogProcessing (length eligible)]) in
      {| handlers := handlers st; eventQueue := eventQueue st;
         isProcessing := isProcessing st; awaiting := awaiting st;
         activeDrains := activeDrains st; received := received st;
         processed := processed st ++ [ev];
         invocations := calls; logger := lg; world := w |}
  end.

(** The head of the [while] loop of [processEventQueue]: the next event is
    shifted off the queue and its handlers are started, or the loop ends and
    the [finally] block clears the flag. *)
Definition next_iteration (st : state) : state :=
  match eventQueue st with
  | ev :: rest =>
      {| handlers := handlers st; eventQueue := rest;
         isProcessing := isProcessing st; awaiting := Some ev;
         activeDrains := activeDrains st; received := received st;
         processed := processed st; invocations := invocations st;
         logger := logger st; world := world st |}
  | [] =>
      {| handlers := handlers st; eventQueue := [];
         isProcessing := false; awaiting := None;
         activeDrains := Nat.pred (activeDrains st); received := received st;
         processed := processed st; invocations := invocations st;
         logger := logger st; world := world st |}
  end.

(** [processEventQueue()], up to its first [await]. *)
Definition processEventQueue (st : state) : state :=
  if isProcessing st then st
  else
    next_iteration
      {| handlers := handlers st; eventQueue := eventQueue st;
         isProcessing := true; awaiting := awaiting st;
         activeDrains := S (activeDrains st); received := received st;
         processed := processed st; invocations := invocations st;
         logger := logger st; world := world st |}.

(** [dispatchEvent(event)], up to its first [await]. *)
Definition dispatchEvent (ev : BlockchainEvent) (st : state) : state :=
  let st1 :=
    {| handlers := handlers st; eventQueue := eventQueue st ++ [ev];
       isProcessing := isProcessing st; awaiting := awaiting st;
       activeDrains := activeDrains st; received := received st ++ [ev];
       processed := processed st; invocations := invocations st;
       logger := logger st ++ [LogReceived ev]; world := world st |} in
  if negb (isProcessing st1) then processEventQueue st1 else st1.

(** The drain loop resumes after [await this.processEvent(event)]. *)
Definition handlersSettled (st : state) : state :=
  match awaiting st with
  | Some ev =>
      next_iteration
        (processEvent ev
           {| handlers := handlers st; eventQueue := eventQueue st;
              isProcessing := isProcessing st; awaiting := None;
              activeDrains := activeDrains st; received := received st;
              processed := processed st; invocations := invocations st;
              logger := logger st; world := world st |})
  | None => st
  end.

Definition clearQueue (st : state) : state :=
  {| handlers := handlers st; eventQueue := [];
     isProcessing := isProcessing st; awaiting := awaiting st;
     activeDrains := activeDrains st; received := received st;
     processed := processed st; invocations := invocations st;
     logger := logger st ++ [LogQueueCleared]; world := world st |}.

Definition getHandlerCount (st : state) : nat := length (handlers st).
Definition getQueueSize (st : state) : nat := length (eventQueue st).

Inductive action : Type :=
| Register (h : IEventHandler)
| Dispatch (ev : BlockchainEvent)
| Settle
| Clear.

Definition step (st : state) (a : action) : state :=
  match a with
  | Register h => registerHandler h st
  | Dispatch ev => dispatchEvent ev st
  | Settle => handlersSettled st
  | Clear => clearQueue st
  end.

Definition run (st : state) (acts : list action) : state := fold_left step acts st.

(** The events waiting for their handlers, oldest first. *)
Definition pending (st : state) : list BlockchainEvent :=
  match awaiting st with
  | Some ev => ev :: eventQueue st
  | None => eventQueue st
  end.

Definition is_clear (a : action) : bool :=
  match a with
  | Clear => true
  | _ => false
  end.

(** The events passed to [h.handle], in call order. *)
Definition observed_by (name : string) (st : state) : list BlockchainEvent :=
  List.map inv_event
    (List.filter (fun i => String.eqb (inv_handler i) name) (invocations st)).

Definition is_register (a : action) : bool :=
  match a with
  | Register _ => true
  | _ => false
  end.

(** Who was called with what, in call order. *)
Definition calls (st : state) : list (string * BlockchainEvent) :=
  List.map (fun i => (inv_handler i, inv_event i)) (invocations st).

(** The calls one event gives rise to, for a list of handlers. *)
Definition calls_for (hs : list IEventHandler) (ev : BlockchainEvent)
  : list (string * BlockchainEvent) :=
  List.map (fun h => (handler_name h, ev))
           (List.filter (fun h => canHandle h ev) hs).

(** The service after its handlers have been registered. *)
Definition registered (w : W) (hs : list IEventHandler) : state :=
  fold_left (fun st h => registerHandler h st) hs (init w).

(** The invariant of the service, for a fixed list of handlers. *)
Record dispatcher_inv (hs : list IEventHandler) (st : state) : Prop := {
  inv_handlers : handlers st = hs;
  inv_drains : activeDrains st = if isProcessing st then 1%nat else 0%nat;
  inv_idle : isProcessing st = false -> pending st = [];
  inv_busy : isProcessing st = true -> is_Some (awaiting st);
  inv_order : sublist (processed st ++ pending st) (received st);
  inv_calls : calls st = flat_map (calls_for hs) (processed st);
}.

(** Nothing received has been lost. *)
Definition lossless (st : state) : Prop :=
  (isProcessing st = false -> pending st = [])
  /\ processed st ++ pending st = received st.

End Dispatcher.
Arguments IEventHandler : clear implicits.
Arguments state : clear implicits.
Arguments action : clear implicits.
End Dispatcher.

Ltac inv_easy :=
  cbn; try assumption; try discriminate; try reflexivity;
  try (intros _; eexists; reflexivity).


(* ===================================================================== *)
(** ** The pull listener EvmBlockScanListener

    The provider and the ethers library are the environment of a tick: a
    record of functions gives, for each request the listener can issue, the
    completion of that request.  The timer, the request counter and the
    sleeps between batches do not influence what a tick computes and are
    left out.  A tick yields the list of its effects in the order in which
    they happen. *)
(* ===================================================================== *)

Module Listener.
Import Js Model.

(** An [ethers.Log] as [queryFilter] returns it. *)
Record Log : Type := {
  log_blockNumber : Z;
  log_transactionHash : string;
  log_index : Z;
  log_transactionIndex : Z;
  log_topics : list string;
  log_data : string;
}.

Record Receipt : Type := {
  receipt_gasUsed : Z;
  receipt_status : option Z;
}.

Record Provider : Type := {
  getBlockNumber : completion Z;
  (** [provider.getBlock(n)]: the timestamp of the block, or [null]. *)
  getBlock : Z -> completion (option Z);
  getTransactionReceipt : string -> completion (option Receipt);
  (** [new ethers.Contract(address, abi, provider)] *)
  new_Contract : string -> list string -> completion unit;
  (** whether [contract.filters[eventName]] is defined for this ABI *)
  has_filter : list string -> string -> bool;
  (** [contract.queryFilter(filter, fromBlock, toBlock)] for the contract at
      an address and the filter of an event name *)
  queryFilter : string -> string -> Z -> Z -> completion (list Log);
  (** [new ethers.Interface(abi).parseLog(log)]: the decoded arguments, each
      already rendered by [toString()], or [null]. *)
  parseLog : list string -> Log -> completion (option (list string));
}.

(** The elements of [allEvents]. *)
Record ScannedEvent : Type := {
  se_eventName : string;
  se_blockNumber : Z;
  se_transactionHash : string;
  se_args : list string;
  se_timestamp : Z;
  se_logIndex : Z;
  se_transactionIndex : Z;
  se_contractConfig : ContractConfig;
}.

Inductive effect : Type :=
| Dispatched (ev : BlockchainEvent)
| CursorSet (blockNumber : Z)
| LogNoNewBlocks (latest last : Z)
| LogScanning (fromBlock toBlock : Z)
| LogNoContracts
| LogFound (count : nat)
| LogNoEvents
| LogReceiptNotFound (transactionHash : string)
| LogContractEvent (symbol eventName : string)
| LogEventError (symbol : string) (err : error)
| LogMoreBlocks
| LogScanError (err : error).

Record state : Type := {
  l_chainId : Z;
  blocksPerScan : Z;
  batchSize : nat;
  _isRunning : bool;
  lastProcessedBlock : Z;
  contractConfigs : list ContractConfig;
}.

(** [try { ... } catch { return fallback }] around an expression. *)
Definition recover {A} (c : completion A) (fallback : error -> A) : A :=
  match c with
  | Normal a => a
  | Throw e => fallback e
  end.

(** [chunks(array, chunkSize)]: the loop runs at most once per element. *)
Fixpoint chunks_loop {T} (fuel : nat) (array : list T) (chunkSize : nat)
  : list (list T) :=
  match fuel, array with
  | _, [] => []
  | O, _ :: _ => []
  | S fuel', _ :: _ =>
      take chunkSize array :: chunks_loop fuel' (drop chunkSize array) chunkSize
  end.

Definition chunks {T} (array : list T) (chunkSize : nat) : list (list T) :=
  chunks_loop (length array) array chunkSize.

(** [processBatches(items, processFn, batchSize, delayMs)] *)
Definition processBatches {T R} (items : list T) (processFn : list T -> list R)
    (batchSize : nat) : list R :=
  flat_map processFn (chunks items batchSize).

Definition TRANSFER_TOPIC : string :=
  "0xddf252ad1be2c89b69c2b068fc378daa952ba7f163c4a11628f55a4df523b3ef".
Definition APPROVAL_TOPIC : string :=
  "0x8c5be1e5ebec7d5bd14f71427d1e84f3dd0314c0f7b2291e5b200ac8c7c3b925".

(** [knownEvents[eventSig]] *)
Definition knownEvents (eventSig : string) : option string :=
  if String.eqb eventSig TRANSFER_TOPIC then Some "Transfer"
  else if String.eqb eventSig APPROVAL_TOPIC then Some "Approval"
  else None.

Definition getEventNamesFromConfig (config : ContractConfig) : list string :=
  omap knownEvents (events config).

(** [knownSignatures[eventName] || ''] *)
Definition getEventSignature (eventName : string) : string :=
  if String.eqb eventName "Transfer" then TRANSFER_TOPIC
  else if String.eqb eventName "Approval" then APPROVAL_TOPIC
  else "".

Definition decodeEventData (p : Provider) (l : Log) (config : ContractConfig)
  : list string :=
  recover (decoded ← parseLog p (abi config) l;
           Normal (match decoded with Some args => args | None => [] end))
          (fun _ => []).

(** [config.metadata?.decimals || 18] *)
Definition config_decimals (config : ContractConfig) : Z :=
  match metadata config ≫= decimals with
  | Some d => if d =? 0 then 18 else d
  | None => 18
  end.

(** [config.metadata?.isStablecoin] as a condition *)
Definition config_isStablecoin (config : ContractConfig) : bool :=
  match metadata config ≫= isStablecoin with
  | Some b => b
  | None => false
  end.

Definition formatTokenValue (value : string) (config : ContractConfig)
  : completion string :=
  try_catch
    (bigIntValue ← BigInt_of_string value;
     divisor ← BigInt_of_Number (pow10 (config_decimals config));
     q ← BigInt_div (bigIntValue * 1000000) divisor;
     toLocaleString_en_US (f64_div (Number_of_BigInt q) (f64_of_Z 1000000)) 2 6)
    (fun _ => Normal value).

Definition isLargeTransfer (value : string) (config : ContractConfig)
  : completion bool :=
  try_catch
    (bigIntValue ← BigInt_of_string value;
     divisor ← BigInt_of_Number (pow10 (config_decimals config));
     let tokenAmount :=
       f64_div (Number_of_BigInt bigIntValue) (Number_of_BigInt divisor) in
     if config_isStablecoin config
     then Normal (f64_ge tokenAmount (f64_of_Z 100000))
     else Normal (f64_ge tokenAmount (f64_of_Z 1000000)))
    (fun _ => Normal false).

Definition formatEventArgs (eventName : string) (args : list string)
    (config : ContractConfig) : completion event_args :=
  match args with
  | a0 :: a1 :: a2 :: _ =>
      if String.eqb eventName "Transfer" then
        vf ← formatTokenValue a2 config;
        large ← isLargeTransfer a2 config;
        Normal (TransferArgs a0 a1 a2 vf large)
      else if String.eqb eventName "Approval" then
        vf ← formatTokenValue a2 config;
        Normal (ApprovalArgs a0 a1 a2 vf)
      else Normal (RawArgs args)
  | _ => Normal (RawArgs args)
  end.

(** The callback of [batchEventNames.map]: one filtered query. *)
Definition queryEvent (p : Provider) (config : ContractConfig)
    (fromBlock toBlock : Z) (eventName : string) : list ScannedEvent :=
  recover
    (if has_filter p (abi config) eventName then
       logs ← queryFilter p (address config) eventName fromBlock toBlock;
       Normal (List.map
                 (fun l =>
                    {| se_eventName := eventName;
                       se_blockNumber := log_blockNumber l;
                       se_transactionHash := log_transactionHash l;
                       se_args := decodeEventData p l config;
                       se_timestamp := 0;
                       se_logIndex := log_index l;
                       se_transactionIndex := log_transactionIndex l;
                       se_contractConfig := config |}) logs)
     else Normal [])
    (fun _ => []).

(** The callback of [batchConfigs.map]: the events of one contract. *)
Definition contractEvents (p : Provider) (fromBlock toBlock : Z)
    (config : ContractConfig) : list ScannedEvent :=
  recover
    (_ ← new_Contract p (address config) (abi config);
     Normal (processBatches (getEventNamesFromConfig config)
               (flat_map (queryEvent p config fromBlock toBlock)) 2))
    (fun _ => []).

(** The comparator passed to [allEvents.sort]. *)
Definition compareEvents (a b : ScannedEvent) : Z :=
  if negb (se_blockNumber a =? se_blockNumber b)
  then se_blockNumber a - se_blockNumber b
  else se_logIndex a - se_logIndex b.

(** [Array.prototype.sort] is stable; so is this insertion sort, and a
    stable sort has one result. *)
Fixpoint insert_event (x : ScannedEvent) (l : list ScannedEvent)
  : list ScannedEvent :=
  match l with
  | [] => [x]
  | y :: l' =>
      if compareEvents x y <=? 0 then x :: y :: l' else y :: insert_event x l'
  end.

Definition sortEvents (l : list ScannedEvent) : list ScannedEvent :=
  fold_right insert_event [] l.

(** [[...new Set(xs)]]: first occurrences, in order. *)
Fixpoint unique (seen : gset Z) (xs : list Z) : list Z :=
  match xs with
  | [] => []
  | x :: xs' =>
      if decide (x ∈ seen) then unique seen xs'
      else x :: unique ({[x]} ∪ seen) xs'
  end.

(** The callback of [batchBlocks.map]. *)
Definition blockTimestamp (p : Provider) (blockNumber : Z) : Z * Z :=
  recover (block ← getBlock p blockNumber;
           Normal (blockNumber, match block with Some t => t | None => 0 end))
          (fun _ => (blockNumber, 0)).

Definition getAllContractEventsInRange (p : Provider) (st : state)
    (fromBlock toBlock : Z) : list ScannedEvent :=
  let allEvents :=
    processBatches (contractConfigs st)
      (flat_map (contractEvents p fromBlock toBlock)) (batchSize st) in
  let sorted := sortEvents allEvents in
  let uniqueBlocks := unique ∅ (List.map se_blockNumber sorted) in
  let blockTimestamps : gmap Z Z :=
    fold_left (fun m b => <[b.1 := b.2]> m)
      (processBatches uniqueBlocks (List.map (blockTimestamp p)) 5)
      ∅ in
  List.map (fun ev =>
     {| se_eventName := se_eventName ev;
        se_blockNumber := se_blockNumber ev;
        se_transactionHash := se_transactionHash ev;
        se_args := se_args ev;
        se_timestamp := default 0 (blockTimestamps !! se_blockNumber ev) * 1000;
        se_logIndex := se_logIndex ev;
        se_transactionIndex := se_transactionIndex ev;
        se_contractConfig := se_contractConfig ev |}) sorted.

(** The BlockchainEvent built by [processContractEvent]. *)
Definition blockchainEvent_of (chain : Z) (ev : ScannedEvent) (r : Receipt)
    (args : event_args) : BlockchainEvent :=
  {| chainId := chain;
     blockNumber := se_blockNumber ev;
     transactionHash := se_transactionHash ev;
     eventType := "contract_log";
     contractAddress := address (se_contractConfig ev);
     data := Some
       {| topics := [];
          rawData := "0x";
          logIndex := Some (se_logIndex ev);
          transactionIndex := Some (se_transactionIndex ev);
          gasUsed := BigInt_toString (receipt_gasUsed r);
          status := receipt_status r;
          contract :=
            {| ci_name := cfg_name (se_contractConfig ev);
               ci_symbol := cfg_symbol (se_contractConfig ev);
               ci_type := cfg_type (se_contractConfig ev) |};
          event :=
            {| ev_name := se_eventName ev;
               ev_signature := getEventSignature (se_eventName ev);
               ev_args := args |} |};
     timestamp := se_timestamp ev |}.

Definition processContractEvent (p : Provider) (chain : Z) (ev : ScannedEvent)
  : list effect :=
  recover
    (receipt ← getTransactionReceipt p (se_transactionHash ev);
     match receipt with
     | None => Normal [LogReceiptNotFound (se_transactionHash ev)]
     | Some r =>
         args ← formatEventArgs (se_eventName ev) (se_args ev)
                  (se_contractConfig ev);
         Normal [LogContractEvent (cfg_symbol (se_contractConfig ev))
                                  (se_eventName ev);
                 Dispatched (blockchainEvent_of chain ev r args)]
     end)
    (fun err => [LogEventError (cfg_symbol (se_contractConfig ev)) err]).

(** The [for] loop of [processBlockRangeWithBatching].  [stop()] may run
    while the loop is suspended; [stopBefore = Some k] says that it has run
    when the loop reaches its [k]-th test of [isRunning()] (counting from
    [0]).  The result carries the flag as the loop leaves it. *)
Fixpoint processEvents (p : Provider) (chain : Z) (stopBefore : option nat)
    (i : nat) (running : bool) (evs : list ScannedEvent) : bool * list effect :=
  match evs with
  | [] => (running, [])
  | ev :: rest =>
      let running' := running && negb (bool_decide (stopBefore = Some i)) in
      if negb running' then (false, [])
      else
        let '(r, fx) := processEvents p chain stopBefore (S i) running' rest in
        (r, processContractEvent p chain ev ++ fx)
  end.

Definition processBlockRangeWithBatching (p : Provider) (stopBefore : option nat)
    (st : state) (fromBlock toBlock : Z) : bool * list effect :=
  match contractConfigs st with
  | [] => (_isRunning st, [LogNoContracts])
  | _ :: _ =>
      match getAllContractEventsInRange p st fromBlock toBlock with
      | [] => (_isRunning st, [LogNoEvents])
      | allEvents =>
          let '(r, fx) :=
            processEvents p (l_chainId st) stopBefore 0 (_isRunning st) allEvents in
          (r, LogFound (length allEvents) :: fx)
      end
  end.

(** One tick of the scan timer. *)
Definition scanForNewBlocks (p : Provider) (stopBefore : option nat) (st : state)
  : state * list effect :=
  match getBlockNumber p with
  | Throw err => (st, [LogScanError err])
  | Normal latestBlock =>
      if latestBlock <=? lastProcessedBlock st
      then (st, [LogNoNewBlocks latestBlock (lastProcessedBlock st)])
      else
        let startBlock := lastProcessedBlock st + 1 in
        let endBlock := Z.min latestBlock (startBlock + blocksPerScan st - 1) in
        let '(r, fx) :=
          processBlockRangeWithBatching p stopBefore st startBlock endBlock in
        ({| l_chainId := l_chainId st; blocksPerScan := blocksPerScan st;
            batchSize := batchSize st; _isRunning := r;
            lastProcessedBlock := endBlock;
            contractConfigs := contractConfigs st |},
         LogScanning startBlock endBlock :: fx ++ [CursorSet endBlock]
           ++ (if endBlock <? latestBlock then [LogMoreBlocks] else []))
  end.

(** The events a tick hands to the dispatcher, in order. *)
Definition dispatched (fx : list effect) : list BlockchainEvent :=
  omap (fun x => match x with Dispatched ev => Some ev | _ => None end) fx.

(** *** What upstream returned, and what a tick did with it *)

(** Contract, event name, transaction hash, block number and log index
    identify a log, upstream and downstream. *)
Definition identity : Type := string * string * string * Z * Z.

Definition scanned_identity (ev : ScannedEvent) : identity :=
  (address (se_contractConfig ev), se_eventName ev, se_transactionHash ev,
   se_blockNumber ev, se_logIndex ev).

Definition event_identity (ev : BlockchainEvent) : identity :=
  (contractAddress ev,
   match data ev with Some d => ev_name (event d) | None => "" end,
   transactionHash ev, blockNumber ev, default (-1) (event_logIndex ev)).

(** The filters a tick issues: one per monitored contract and known event
    of its configuration that the contract object offers. *)
Definition issued_filters (p : Provider) (configs : list ContractConfig)
  : list (ContractConfig * string) :=
  flat_map
    (fun config =>
       match new_Contract p (address config) (abi config) with
       | Normal _ =>
           List.map (fun name => (config, name))
             (List.filter (has_filter p (abi config))
                          (getEventNamesFromConfig config))
       | Throw _ => []
       end)
    configs.

(** The logs upstream returns for the issued filters over a block range,
    filter by filter, each with its identity. *)
Definition upstream_logs (p : Provider) (configs : list ContractConfig)
    (fromBlock toBlock : Z) : list identity :=
  flat_map
    (fun f =>
       match queryFilter p (address f.1) f.2 fromBlock toBlock with
       | Normal logs =>
           List.map (fun l => (address f.1, f.2, log_transactionHash l,
                                log_blockNumber l, log_index l)) logs
       | Throw _ => []
       end)
    (issued_filters p configs).

(** The order of [(blockNumber, logIndex)] on identities. *)
Definition identity_le (x y : identity) : Prop :=
  x.1.2 < y.1.2 \/ (x.1.2 = y.1.2 /\ x.2 <= y.2).

(** The comparator of the listener, on identities, and the stable sort
    under it. *)
Definition compareIdentities (x y : identity) : Z :=
  if negb (x.1.2 =? y.1.2) then x.1.2 - y.1.2 else x.2 - y.2.

Fixpoint insert_identity (x : identity) (l : list identity) : list identity :=
  match l with
  | [] => [x]
  | y :: l' =>
      if compareIdentities x y <=? 0 then x :: y :: l'
      else y :: insert_identity x l'
  end.

Definition sort_identities (l : list identity) : list identity :=
  fold_right insert_identity [] l.

(** The part of the sorted logs a tick reaches: all of them, or those
    before the test of [isRunning()] that sees [stop()]. *)
Definition reached {A} (stopBefore : option nat) (l : list A) : list A :=
  match stopBefore with
  | Some k => take k l
  | None => l
  end.

(** The block window of a tick, when there is one. *)
Definition scan_window (p : Provider) (st : state) : option (Z * Z) :=
  match getBlockNumber p with
  | Normal latestBlock =>
      if latestBlock <=? lastProcessedBlock st then None
      else Some (lastProcessedBlock st + 1,
                 Z.min latestBlock (lastProcessedBlock st + 1 + blocksPerScan st - 1))
  | Throw _ => None
  end.

(** The transaction receipt of a log is available. *)
Definition receipt_found (p : Provider) (i : identity) : bool :=
  match getTransactionReceipt p i.1.1.2 with
  | Normal (Some _) => true
  | _ => false
  end.

(** The first claim of the specification about a tick, as stated: the
    events enqueued are the logs upstream returned for the window, and they
    are enqueued in ascending order. *)
Definition spec_enqueues_upstream_logs (p : Provider) (stopBefore : option nat)
    (st : state) : Prop :=
  forall a b, scan_window p st = Some (a, b) ->
    let fx := (scanForNewBlocks p stopBefore st).2 in
    (forall i, In i (List.map event_identity (dispatched fx))
               <-> In i (upstream_logs p (contractConfigs st) a b))
    /\ StronglySorted identity_le (List.map event_identity (dispatched fx)).

(** The claim about the cursor, as stated: once a tick is over, every log
    upstream returned for a block at or below the cursor has been enqueued,
    also when [stop()] came in the middle of the tick. *)
Definition spec_cursor_behind_enqueued (p : Provider) (stopBefore : option nat)
    (st : state) : Prop :=
  forall a b, scan_window p st = Some (a, b) ->
    let '(st', fx) := scanForNewBlocks p stopBefore st in
    forall i, In i (upstream_logs p (contractConfigs st) a b) ->
              i.1.2 <= lastProcessedBlock st' ->
              In i (List.map event_identity (dispatched fx)).

End Listener.

(* ===================================================================== *)
(** ** ERC20TransferHandler, ContractDataService and the event collection

    The three collections are part of a [World] together with the log and a
    [schedule] of disturbances: every request to the database consumes the
    head of the schedule, which lets it go through, makes it fail, or lets
    another writer insert an event document just before it.  An exhausted
    schedule is quiet. *)
(* ===================================================================== *)

Module Handler.
Import Js Model.

Definition TRANSFER_EVENT_SIGNATURE : string :=
  "0xddf252ad1be2c89b69c2b068fc378daa952ba7f163c4a11628f55a4df523b3ef".

Definition zeroAddress : string := "0x0000000000000000000000000000000000000000".

(** [contractInfo] of ERC20TransferData *)
Record TokenInfo : Type := {
  ti_name : string;
  ti_symbol : string;
  ti_decimals : Z;
  ti_isStablecoin : bool;
  ti_priority : string;
}.

Record ERC20TransferData : Type := {
  td_from : string;
  td_to : string;
  td_value : string;
  td_valueFormatted : string;
  td_isLargeTransfer : bool;
  td_contractInfo : TokenInfo;
}.

(** [tokenData] of [saveERC20Data] *)
Record TokenData : Type := {
  tk_name : string;
  tk_symbol : string;
  tk_decimals : Z;
  tk_totalSupply : option string;
  tk_owner : option string;
  tk_firstSeenBlock : option Z;
  tk_startFromBlock : option Z;
}.

(** [ContractData.metadata] *)
Record TokenMetadata : Type := {
  md_tokenType : option string;
  md_tokenData : option TokenData;
  md_lastBlock : option Z;
  md_transferCount : option Z;
  md_largeTransferCount : option Z;
  md_lastTransferTimestamp : option Z;
  md_isStablecoin : option bool;
  md_priority : option string;
}.

(** A ContractData document; its key [(contractAddress, chainId)] indexes the
    collection.  [lastUpdated] is a wall-clock time and is left out. *)
Record ContractData : Type := {
  contractType : string;
  collectionKey : string;
  cd_name : option string;
  cd_symbol : option string;
  cd_decimals : option Z;
  cd_totalSupply : option string;
  cd_owner : option string;
  isActive : bool;
  lastProcessedBlock : option Z;
  firstSeenBlock : option Z;
  startFromBlock : option Z;
  cd_metadata : option TokenMetadata;
}.

(** A document of the event collection: the event itself, the two index
    fields copied to the top level, and the enrichment of [saveEvent]
    ([tokenAmount], a [parseFloat] of the rendered value, is not kept). *)
Record EventDoc : Type := {
  doc_event : BlockchainEvent;
  doc_logIndex : option Z;
  doc_transactionIndex : option Z;
  doc_transferInfo : ERC20TransferData;
  doc_transferType : string;
  doc_processed : bool;
}.

Inductive log_entry : Type :=
| DebugNoConfig (address : string) (chain : Z)
| DebugInvalidTransfer
| ErrorExtract (err : error)
| WarnWhale (symbol : string)
| LogHighPriority (symbol : string)
| LogTransfer (symbol : string)
| LogMint (symbol : string)
| LogBurn (symbol : string)
| DebugMetadataUpdated (symbol : string) (blockNumber : Z)
| ErrorMetadata (symbol : string) (err : error)
| DebugEventExists (transactionHash : string) (logIndex : option Z)
| DebugSaved (transactionHash : string) (logIndex : option Z)
| DebugDuplicate (transactionHash : string) (logIndex : option Z)
| ErrorSaving (err : error)
| ErrorHandling (err : error).

Definition is_error_entry (l : log_entry) : bool :=
  match l with
  | ErrorExtract _ | ErrorMetadata _ _ | ErrorSaving _ | ErrorHandling _ => true
  | _ => false
  end.

Inductive disturbance : Type :=
| Quiet
| Fails (err : error)
| RacingInsert (doc : EventDoc).

Record World : Type := {
  contractConfigs : gmap (string * Z) ContractConfig;
  contractData : gmap (string * Z) ContractData;
  blockchainEvents : list EventDoc;
  schedule : list disturbance;
  logger : list log_entry;
}.

(** An asynchronous method: it changes the world and returns or throws. *)
Definition M (A : Type) : Type := World -> World * completion A.

#[global] Instance M_ret : MRet M := fun A a w => (w, Normal a).
#[global] Instance M_bind : MBind M := fun A B k m w =>
  match m w with
  | (w', Normal a) => k a w'
  | (w', Throw e) => (w', Throw e)
  end.

Definition throw {A} (e : error) : M A := fun w => (w, Throw e).

(** [try { body } catch (error) { handler error }] *)
Definition try_catch_M {A} (body : M A) (handler : error -> M A) : M A :=
  fun w =>
    match body w with
    | (w', Normal a) => (w', Normal a)
    | (w', Throw e) => handler e w'
    end.

Definition log (l : log_entry) : M unit := fun w =>
  ({| contractConfigs := contractConfigs w; contractData := contractData w;
      blockchainEvents := blockchainEvents w; schedule := schedule w;
      logger := logger w ++ [l] |}, Normal tt).

(** *** The collections *)

(** The unique index [{ transactionHash, logIndex, chainId }]. *)
Definition doc_key (d : EventDoc) : string * option Z * Z :=
  (transactionHash (doc_event d), doc_logIndex d, chainId (doc_event d)).

Definition has_key (k : string * option Z * Z) (docs : list EventDoc) : bool :=
  existsb (fun d => bool_decide (doc_key d = k)) docs.

(** An insert under the unique index; [11000] is the duplicate-key code. *)
Definition insert_doc (d : EventDoc) (docs : list EventDoc)
  : completion (list EventDoc) :=
  if has_key (doc_key d) docs then Throw (DbError 11000)
  else Normal (docs ++ [d]).

Definition with_schedule (s : list disturbance) (w : World) : World :=
  {| contractConfigs := contractConfigs w; contractData := contractData w;
     blockchainEvents := blockchainEvents w; schedule := s;
     logger := logger w |}.

Definition with_events (docs : list EventDoc) (w : World) : World :=
  {| contractConfigs := contractConfigs w; contractData := contractData w;
     blockchainEvents := docs; schedule := schedule w; logger := logger w |}.

Definition with_contractData (m : gmap (string * Z) ContractData) (w : World)
  : World :=
  {| contractConfigs := contractConfigs w; contractData := m;
     blockchainEvents := blockchainEvents w; schedule := schedule w;
     logger := logger w |}.

(** The insert of another writer: it lands unless the index rejects it. *)
Definition racing_insert (d : EventDoc) (w : World) : World :=
  match insert_doc d (blockchainEvents w) with
  | Normal docs => with_events docs w
  | Throw _ => w
  end.

(** One request to the database. *)
Definition request {A} (op : M A) : M A := fun w =>
  match schedule w with
  | [] => op w
  | Quiet :: s => op (with_schedule s w)
  | Fails err :: s => (with_schedule s w, Throw err)
  | RacingInsert d :: s => op (racing_insert d (with_schedule s w))
  end.

(** [blockchainEventModel.findOne({ transactionHash, logIndex, chainId })] *)
Definition events_findOne (k : string * option Z * Z) : M (option EventDoc) :=
  request (fun w =>
    (w, Normal (List.find (fun d => bool_decide (doc_key d = k))
                          (blockchainEvents w)))).

(** [new this.blockchainEventModel(doc).save()] *)
Definition events_save (d : EventDoc) : M unit :=
  request (fun w =>
    match insert_doc d (blockchainEvents w) with
    | Normal docs => (with_events docs w, Normal tt)
    | Throw e => (w, Throw e)
    end).

(** [String.prototype.toLowerCase] on ASCII letters. *)
Definition lower_char (c : ascii) : ascii :=
  let n := N_of_ascii c in
  if ((65 <=? n) && (n <=? 90))%N then ascii_of_N (n + 32) else c.

Definition toLowerCase (s : string) : string :=
  string_of_list_ascii (List.map lower_char (list_ascii_of_string s)).

(** [ContractConfigService.findByAddress] *)
Definition config_findByAddress (address : string) (chain : Z)
  : M (option ContractConfig) :=
  request (fun w => (w, Normal (contractConfigs w !! (toLowerCase address, chain)))).

(** *** ContractDataService *)

(** [findByAddress] *)
Definition findByAddress (contractAddress : string) (chain : Z)
  : M (option ContractData) :=
  request (fun w => (w, Normal (contractData w !! (contractAddress, chain)))).

(** [generateCollectionKey] *)
Definition generateCollectionKey (contractType : string) (chain : Z) : string :=
  (contractType +:+ "_" +:+ BigInt_toString chain)%string.

(** [saveERC20Data], that is [upsertContract] on the fields it passes: an
    existing document keeps the fields the update does not name. *)
Definition saveERC20Data (contractAddress : string) (chain : Z)
    (tokenData : TokenData) : M ContractData :=
  request (fun w =>
    let old := contractData w !! (contractAddress, chain) in
    let doc :=
      {| contractType := "erc20";
         collectionKey := generateCollectionKey "erc20" chain;
         cd_name := Some (tk_name tokenData);
         cd_symbol := Some (tk_symbol tokenData);
         cd_decimals := Some (tk_decimals tokenData);
         cd_totalSupply := tk_totalSupply tokenData;
         cd_owner := tk_owner tokenData;
         isActive := match old with Some o => isActive o | None => true end;
         lastProcessedBlock := old ≫= lastProcessedBlock;
         firstSeenBlock := tk_firstSeenBlock tokenData;
         startFromBlock := tk_startFromBlock tokenData;
         cd_metadata :=
           Some {| md_tokenType := Some "ERC20";
                   md_tokenData := Some tokenData;
                   md_lastBlock := None; md_transferCount := None;
                   md_largeTransferCount := None;
                   md_lastTransferTimestamp := None;
                   md_isStablecoin := None; md_priority := None |} |} in
    (with_contractData (<[(contractAddress, chain) := doc]> (contractData w)) w,
     Normal doc)).

(** [updateData] of [updateContract], as the handler uses it. *)
Record ContractUpdate : Type := {
  upd_lastProcessedBlock : option Z;
  upd_metadata : TokenMetadata;
}.

Definition apply_update (u : ContractUpdate) (c : ContractData) : ContractData :=
  {| contractType := contractType c; collectionKey := collectionKey c;
     cd_name := cd_name c; cd_symbol := cd_symbol c;
     cd_decimals := cd_decimals c; cd_totalSupply := cd_totalSupply c;
     cd_owner := cd_owner c; isActive := isActive c;
     lastProcessedBlock :=
       match upd_lastProcessedBlock u with
       | Some b => Some b
       | None => lastProcessedBlock c
       end;
     firstSeenBlock := firstSeenBlock c; startFromBlock := startFromBlock c;
     cd_metadata := Some (upd_metadata u) |}.

(** [updateContract]: [findOneAndUpdate] without upsert. *)
Definition updateContract (contractAddress : string) (chain : Z)
    (u : ContractUpdate) : M (option ContractData) :=
  request (fun w =>
    match contractData w !! (contractAddress, chain) with
    | Some c =>
        let c' := apply_update u c in
        (with_contractData (<[(contractAddress, chain) := c']> (contractData w)) w,
         Normal (Some c'))
    | None => (w, Normal None)
    end).

Definition set_lastProcessedBlock (b : Z) (c : ContractData) : ContractData :=
  {| contractType := contractType c; collectionKey := collectionKey c;
     cd_name := cd_name c; cd_symbol := cd_symbol c;
     cd_decimals := cd_decimals c; cd_totalSupply := cd_totalSupply c;
     cd_owner := cd_owner c; isActive := isActive c;
     lastProcessedBlock := Some b;
     firstSeenBlock := firstSeenBlock c; startFromBlock := startFromBlock c;
     cd_metadata := cd_metadata c |}.

Definition set_firstSeenBlock (b : Z) (c : ContractData) : ContractData :=
  {| contractType := contractType c; collectionKey := collectionKey c;
     cd_name := cd_name c; cd_symbol := cd_symbol c;
     cd_decimals := cd_decimals c; cd_totalSupply := cd_totalSupply c;
     cd_owner := cd_owner c; isActive := isActive c;
     lastProcessedBlock := lastProcessedBlock c;
     firstSeenBlock := Some b; startFromBlock := startFromBlock c;
     cd_metadata := cd_metadata c |}.

(** [findOneAndUpdate(key, set)] of a single field. *)
Definition findOneAndUpdate (contractAddress : string) (chain : Z)
    (set : ContractData -> ContractData) : M (option ContractData) :=
  request (fun w =>
    match contractData w !! (contractAddress, chain) with
    | Some c =>
        (with_contractData (<[(contractAddress, chain) := set c]> (contractData w)) w,
         Normal (Some (set c)))
    | None => (w, Normal None)
    end).

(** [!x] for an optional number: absent or zero. *)
Definition falsy (x : option Z) : bool :=
  match x with
  | Some v => v =? 0
  | None => true
  end.

Definition updateLastProcessedBlock (contractAddress : string) (chain : Z)
    (blockNumber : Z) : M (option ContractData) :=
  found ← findByAddress contractAddress chain;
  match found with
  | None => mret None
  | Some c =>
      if falsy (lastProcessedBlock c)
         || bool_decide (default 0 (lastProcessedBlock c) < blockNumber)
      then findOneAndUpdate contractAddress chain (set_lastProcessedBlock blockNumber)
      else mret (Some c)
  end.

Definition setFirstSeenBlock (contractAddress : string) (chain : Z)
    (blockNumber : Z) : M (option ContractData) :=
  found ← findByAddress contractAddress chain;
  match found with
  | None => mret None
  | Some c =>
      if falsy (firstSeenBlock c)
         || bool_decide (blockNumber < default 0 (firstSeenBlock c))
      then findOneAndUpdate contractAddress chain (set_firstSeenBlock blockNumber)
      else mret (Some c)
  end.

(** *** The handler *)

(** A pure computation inside an asynchronous method. *)
Definition lift {A} (c : completion A) : M A := fun w => (w, c).

(** [getEventSignatureHash('Transfer', getABI('erc20'))]: ethers computes
    the topic hash of [Transfer(address,address,uint256)], which is the
    canonical constant. *)
Definition transferSignature : option string := Some TRANSFER_EVENT_SIGNATURE.

(** [isTransferEvent], as the handler computes the hash from the ABI. *)
Definition isTransferEvent (ev : BlockchainEvent) : bool :=
  match event_topics ev with
  | [] => false
  | t0 :: _ =>
      if String.eqb t0 "" then false
      else bool_decide (Some t0 = transferSignature)
  end.

Definition canHandle (ev : BlockchainEvent) : bool :=
  String.eqb (eventType ev) "contract_log"
  && negb (String.eqb (contractAddress ev) "")
  && isTransferEvent ev.

(** The earlier copy of the handler compares with the constant. *)
Definition isTransferEvent_constant (ev : BlockchainEvent) : bool :=
  match event_topics ev with
  | [] => false
  | t0 :: _ => String.eqb t0 TRANSFER_EVENT_SIGNATURE
  end.

Definition canHandle_constant (ev : BlockchainEvent) : bool :=
  String.eqb (eventType ev) "contract_log"
  && negb (String.eqb (contractAddress ev) "")
  && isTransferEvent_constant ev.

(** [formatTokenValue] and [isLargeTransferCheck] delegate to the utilities. *)
Definition formatTokenValue (value : string) (decimals : Z) : completion string :=
  Tokens.formatTokenAmount (Tokens.AString value) decimals 6.

Definition isLargeTransferCheck (value : string) (decimals : Z)
    (isStablecoin : bool) : completion bool :=
  Tokens.isLargeTransfer (Tokens.AString value) decimals isStablecoin.

(** [event.data?.event?.args] read as [{ from, to, value }]; an empty string
    is as good as a missing field for the test [!args.from]. *)
Definition transfer_fields (ev : BlockchainEvent) : option (string * string * string) :=
  d ← data ev;
  match ev_args (event d) with
  | TransferArgs from to value _ _ =>
      if String.eqb from "" || String.eqb to "" || String.eqb value "" then None
      else Some (from, to, value)
  | _ => None
  end.

(** [x || fallback] for an optional number. *)
Definition number_or (x : option Z) (fallback : Z) : Z :=
  match x with
  | Some v => if v =? 0 then fallback else v
  | None => fallback
  end.

(** [x || fallback] for an optional string. *)
Definition string_or (x : option string) (fallback : string) : string :=
  match x with
  | Some v => if String.eqb v "" then fallback else v
  | None => fallback
  end.

Definition contractInfo_of (config : ContractConfig) : TokenInfo :=
  {| ti_name := cfg_name config;
     ti_symbol := cfg_symbol config;
     ti_decimals := number_or (metadata config ≫= decimals) 18;
     ti_isStablecoin := default false (metadata config ≫= isStablecoin);
     ti_priority := string_or (metadata config ≫= priority) "medium" |}.

Definition extractTransferData (ev : BlockchainEvent) (config : ContractConfig)
  : M (option ERC20TransferData) :=
  try_catch_M
    (match transfer_fields ev with
     | None => _ ← log DebugInvalidTransfer; mret None
     | Some (from, to, value) =>
         let contractInfo := contractInfo_of config in
         valueFormatted ← lift (formatTokenValue value (ti_decimals contractInfo));
         isLargeTransferResult ←
           lift (isLargeTransferCheck value (ti_decimals contractInfo)
                   (ti_isStablecoin contractInfo));
         mret (Some {| td_from := from; td_to := to; td_value := value;
                       td_valueFormatted := valueFormatted;
                       td_isLargeTransfer := isLargeTransferResult;
                       td_contractInfo := contractInfo |})
     end)
    (fun err => _ ← log (ErrorExtract err); mret None).

Definition metadata_or_empty (c : ContractData) : TokenMetadata :=
  match cd_metadata c with
  | Some m => m
  | None =>
      {| md_tokenType := None; md_tokenData := None; md_lastBlock := None;
         md_transferCount := None; md_largeTransferCount := None;
         md_lastTransferTimestamp := None; md_isStablecoin := None;
         md_priority := None |}
  end.

Definition updateContractMetadata (ev : BlockchainEvent) (td : ERC20TransferData)
  : M unit :=
  let info := td_contractInfo td in
  let large := if td_isLargeTransfer td then 1 else 0 in
  try_catch_M
    (found ← findByAddress (contractAddress ev) (chainId ev);
     _ ← match found with
         | None =>
             created ← saveERC20Data (contractAddress ev) (chainId ev)
               {| tk_name := ti_name info; tk_symbol := ti_symbol info;
                  tk_decimals := ti_decimals info;
                  tk_totalSupply := Some "0"; tk_owner := None;
                  tk_firstSeenBlock := Some (blockNumber ev);
                  tk_startFromBlock := Some (blockNumber ev) |};
             let m := metadata_or_empty created in
             _ ← updateContract (contractAddress ev) (chainId ev)
               {| upd_lastProcessedBlock := Some (blockNumber ev);
                  upd_metadata :=
                    {| md_tokenType := md_tokenType m;
                       md_tokenData := md_tokenData m;
                       md_lastBlock := Some (blockNumber ev);
                       md_transferCount := Some 1;
                       md_largeTransferCount := Some large;
                       md_lastTransferTimestamp := Some (timestamp ev);
                       md_isStablecoin := Some (ti_isStablecoin info);
                       md_priority := Some (ti_priority info) |} |};
             mret tt
         | Some contractData =>
             let m := metadata_or_empty contractData in
             let currentTransferCount := number_or (md_transferCount m) 0 in
             let currentLargeTransferCount := number_or (md_largeTransferCount m) 0 in
             _ ← updateLastProcessedBlock (contractAddress ev) (chainId ev)
                   (blockNumber ev);
             _ ← (if falsy (firstSeenBlock contractData)
                  then _ ← setFirstSeenBlock (contractAddress ev) (chainId ev)
                             (blockNumber ev);
                       mret tt
                  else mret tt);
             _ ← updateContract (contractAddress ev) (chainId ev)
               {| upd_lastProcessedBlock := None;
                  upd_metadata :=
                    {| md_tokenType := md_tokenType m;
                       md_tokenData := md_tokenData m;
                       md_lastBlock := Some (blockNumber ev);
                       md_transferCount := Some (currentTransferCount + 1);
                       md_largeTransferCount :=
                         Some (currentLargeTransferCount + large);
                       md_lastTransferTimestamp := Some (timestamp ev);
                       md_isStablecoin := md_isStablecoin m;
                       md_priority := md_priority m |} |};
             mret tt
         end;
     log (DebugMetadataUpdated (ti_symbol info) (blockNumber ev)))
    (fun err => log (ErrorMetadata (ti_symbol info) err)).

Definition processERC20Transfer (ev : BlockchainEvent) (td : ERC20TransferData)
  : M unit :=
  let symbol := ti_symbol (td_contractInfo td) in
  _ ← (if td_isLargeTransfer td then log (WarnWhale symbol)
       else if String.eqb (ti_priority (td_contractInfo td)) "high"
            then log (LogHighPriority symbol)
            else log (LogTransfer symbol));
  _ ← (if String.eqb (td_from td) zeroAddress then log (LogMint symbol)
       else if String.eqb (td_to td) zeroAddress then log (LogBurn symbol)
            else mret tt);
  updateContractMetadata ev td.

Definition getTransferType (from to : string) : string :=
  if String.eqb from zeroAddress then "mint"
  else if String.eqb to zeroAddress then "burn"
  else "transfer".

(** [enhancedEvent] of [saveEvent]. *)
Definition enhancedEvent (ev : BlockchainEvent) (td : ERC20TransferData) : EventDoc :=
  {| doc_event := ev;
     doc_logIndex := event_logIndex ev;
     doc_transactionIndex := data ev ≫= transactionIndex;
     doc_transferInfo := td;
     doc_transferType := getTransferType (td_from td) (td_to td);
     doc_processed := false |}.

(** The key [saveEvent] queries for. *)
Definition event_key (ev : BlockchainEvent) : string * option Z * Z :=
  (transactionHash ev, event_logIndex ev, chainId ev).

(** [error.code === 11000] *)
Definition is_duplicate_key (err : error) : bool :=
  match err with
  | DbError code => code =? 11000
  | _ => false
  end.

Definition saveEvent (ev : BlockchainEvent) (td : ERC20TransferData) : M unit :=
  try_catch_M
    (existingEvent ← events_findOne (event_key ev);
     match existingEvent with
     | Some _ => log (DebugEventExists (transactionHash ev) (event_logIndex ev))
     | None =>
         _ ← events_save (enhancedEvent ev td);
         log (DebugSaved (transactionHash ev) (event_logIndex ev))
     end)
    (fun err =>
       if is_duplicate_key err
       then log (DebugDuplicate (transactionHash ev) (event_logIndex ev))
       else log (ErrorSaving err)).

Definition handle (ev : BlockchainEvent) : M unit :=
  try_catch_M
    (contractConfig ← config_findByAddress (contractAddress ev) (chainId ev);
     match contractConfig with
     | None => log (DebugNoConfig (contractAddress ev) (chainId ev))
     | Some config =>
         transferData ← extractTransferData ev config;
         match transferData with
         | None => mret tt
         | Some td =>
             _ ← processERC20Transfer ev td;
             saveEvent ev td
         end
     end)
    (fun err => _ ← log (ErrorHandling err); throw err).

(** The handler as the dispatcher sees it. *)
Definition erc20TransferHandler : Dispatcher.IEventHandler World :=
  {| Dispatcher.handler_name := "ERC20TransferHandler";
     Dispatcher.canHandle := canHandle;
     Dispatcher.handle := handle |}.

(** Handling a list of events one after the other, whatever each returns. *)
Definition handle_all (evs : list BlockchainEvent) (w : World) : World :=
  fold_left (fun w ev => (handle ev w).1) evs w.

(** *** The statements of the specification *)

(** [canHandle] as the specification states it. *)
Definition spec_canHandle (ev : BlockchainEvent) : bool :=
  String.eqb (eventType ev) "contract_log"
  && match event_topics ev with
     | t0 :: _ => String.eqb t0 TRANSFER_EVENT_SIGNATURE
     | [] => false
     end.

(** [lastProcessedBlock] of the record of a key, if both exist. *)
Definition lastProcessedBlock_of (w : World) (k : string * Z) : option Z :=
  contractData w !! k ≫= lastProcessedBlock.

(** An optional block number does not decrease: once set it stays set and
    does not get smaller. *)
Definition block_le (x y : option Z) : Prop :=
  match x, y with
  | None, _ => True
  | Some a, Some b => a <= b
  | Some _, None => False
  end.

(** [max(current, blockNumber)], where an unset [current] gives way. *)
Definition raised (current : option Z) (blockNumber : Z) : option Z :=
  match current with
  | Some cur => Some (Z.max cur blockNumber)
  | None => Some blockNumber
  end.

(** No record's [lastProcessedBlock] has decreased from [w] to [w']. *)
Definition blocks_monotone (w w' : World) : Prop :=
  forall k, block_le (lastProcessedBlock_of w k) (lastProcessedBlock_of w' k).

(** A computation that lowers no [lastProcessedBlock], whatever the world
    it starts in. *)
Definition keeps_blocks_monotone {A} (m : M A) : Prop :=
  forall w, blocks_monotone w (m w).1.

(** The unique index holds of a list of event documents. *)
Definition unique_index (docs : list EventDoc) : Prop :=
  NoDup (List.map doc_key docs).

(** No database request of the schedule is disturbed by another writer. *)
Definition no_racing_insert (s : list disturbance) : Prop :=
  Forall (fun d => match d with RacingInsert _ => False | _ => True end) s.

End Handler.

(* ===================================================================== *)
(** ** Sample data *)
(* ===================================================================== *)

Module Samples.
Import Js Model.

Definition usdc : ContractConfig :=
  {| address := "0xaaaaaaaaaaaaaaaaaaaaaaaaaaaaaaaaaaaaaaaa";
     cfg_chainId := 1; cfg_name := "USD Coin"; cfg_symbol := "USDC";
     cfg_type := "erc20";
     events := [Listener.TRANSFER_TOPIC];
     abi := ["event Transfer(address indexed from, address indexed to, uint256 value)"];
     enabled := true;
     metadata := Some {| decimals := Some 6; isStablecoin := Some true;
                         priority := Some "high" |} |}.

(** A Transfer of 250,000 USDC as the pull listener builds it, for a block,
    a log index and a transaction hash; [topic0s] fills [data.topics]. *)
Definition transfer_event (block index : Z) (tx : string) (topic0s : list string)
  : BlockchainEvent :=
  {| chainId := 1; blockNumber := block; transactionHash := tx;
     eventType := "contract_log"; contractAddress := address usdc;
     data := Some
       {| topics := topic0s; rawData := "0x"; logIndex := Some index;
          transactionIndex := Some 0; gasUsed := "21000"; status := Some 1;
          contract := {| ci_name := "USD Coin"; ci_symbol := "USDC";
                         ci_type := "erc20" |};
          event :=
            {| ev_name := "Transfer";
               ev_signature := Listener.TRANSFER_TOPIC;
               ev_args :=
                 TransferArgs "0x0101010101010101010101010101010101010101"
                              "0x0202020202020202020202020202020202020202"
                              "250000000000" "250,000.00" true |} |};
     timestamp := 1700000000000 |}.

(** The same event with an empty [contractAddress]. *)
Definition transfer_without_address : BlockchainEvent :=
  {| chainId := 1; blockNumber := 95; transactionHash := "0xtx1";
     eventType := "contract_log"; contractAddress := "";
     data := data (transfer_event 95 0 "0xtx1" [Listener.TRANSFER_TOPIC]);
     timestamp := 1700000000000 |}.

Definition ev1 : BlockchainEvent := transfer_event 95 0 "0xtx1" [Listener.TRANSFER_TOPIC].
Definition ev2 : BlockchainEvent := transfer_event 96 3 "0xtx2" [Listener.TRANSFER_TOPIC].

(** Handler A always throws; handler B counts the events it handled. *)
Definition handlerA : Dispatcher.IEventHandler nat :=
  {| Dispatcher.handler_name := "A";
     Dispatcher.canHandle := fun _ => true;
     Dispatcher.handle := fun _ w => (w, Throw TypeError) |}.

Definition handlerB : Dispatcher.IEventHandler nat :=
  {| Dispatcher.handler_name := "B";
     Dispatcher.canHandle := fun _ => true;
     Dispatcher.handle := fun _ w => (S w, Normal tt) |}.

(** The transfer that [ev1] carries, as the handler extracts it. *)
Definition transfer1 : Handler.ERC20TransferData :=
  {| Handler.td_from := "0x00000000000000000000000000000000000000aa";
     Handler.td_to := "0x00000000000000000000000000000000000000bb";
     Handler.td_value := "250000000000";
     Handler.td_valueFormatted := "250,000.00";
     Handler.td_isLargeTransfer := true;
     Handler.td_contractInfo :=
       {| Handler.ti_name := "USD Coin"; Handler.ti_symbol := "USDC";
          Handler.ti_decimals := 6; Handler.ti_isStablecoin := true;
          Handler.ti_priority := "high" |} |}.

(** A world with the configuration of [usdc] and nothing else. *)
Definition world0 : Handler.World :=
  {| Handler.contractConfigs := {[ (address usdc, 1) := usdc ]};
     Handler.contractData := ∅;
     Handler.blockchainEvents := [];
     Handler.schedule := [];
     Handler.logger := [] |}.

(** Two Transfer logs of [usdc], in blocks 95 and 96. *)
Definition log95 : Listener.Log :=
  {| Listener.log_blockNumber := 95; Listener.log_transactionHash := "0xtx1";
     Listener.log_index := 0; Listener.log_transactionIndex := 0;
     Listener.log_topics := [Listener.TRANSFER_TOPIC];
     Listener.log_data := "0x" |}.

Definition log96 : Listener.Log :=
  {| Listener.log_blockNumber := 96; Listener.log_transactionHash := "0xtx2";
     Listener.log_index := 3; Listener.log_transactionIndex := 1;
     Listener.log_topics := [Listener.TRANSFER_TOPIC];
     Listener.log_data := "0x" |}.

(** Upstream with head block 100 and the Transfer logs [logs]; [receipt] is
    the answer to every request for a receipt. *)
Definition upstream (logs : list Listener.Log)
    (receipt : completion (option Listener.Receipt)) : Listener.Provider :=
  {| Listener.getBlockNumber := Normal 100;
     Listener.getBlock := fun _ => Normal (Some 1700000000);
     Listener.getTransactionReceipt := fun _ => receipt;
     Listener.new_Contract := fun _ _ => Normal tt;
     Listener.has_filter := fun _ name =>
       String.eqb name "Transfer" || String.eqb name "Approval";
     Listener.queryFilter := fun _ name fromBlock toBlock =>
       if String.eqb name "Transfer"
       then Normal (List.filter
                      (fun l => (fromBlock <=? Listener.log_blockNumber l)
                                && (Listener.log_blockNumber l <=? toBlock))
                      logs)
       else Normal [];
     Listener.parseLog := fun _ _ =>
       Normal (Some ["0x0101010101010101010101010101010101010101";
                     "0x0202020202020202020202020202020202020202";
                     "250000000000"]) |}.

Definition receipt_ok : completion (option Listener.Receipt) :=
  Normal (Some {| Listener.receipt_gasUsed := 21000;
                  Listener.receipt_status := Some 1 |}).

(** A running listener of chain 1 with cursor 89. *)
Definition listener89 : Listener.state :=
  {| Listener.l_chainId := 1; Listener.blocksPerScan := 50;
     Listener.batchSize := 3; Listener._isRunning := true;
     Listener.lastProcessedBlock := 89;
     Listener.contractConfigs := [usdc] |}.

End Samples.

(* ===================================================================== *)
(** ** The scan timer of the pull listener

    [startScanning] arms an interval timer whose callback runs one tick.
    The runs below are those in which a tick has ended when the timer fires
    again, so that ticks do not overlap. *)
(* ===================================================================== *)

Module Scanning.
Import Js Model Listener.

(** The callback of [setInterval] in [startScanning]: a stopped listener
    does nothing; [scanForNewBlocks] catches its own errors. *)
Definition scanTimerFires (p : Provider) (stopBefore : option nat) (st : state)
  : state * list effect :=
  if negb (_isRunning st) then (st, []) else scanForNewBlocks p stopBefore st.

(** Successive firings of the timer, each with upstream as it is at that
    time; [stop()] is not called in between. *)
Definition ticks (ps : list Provider) (st : state) : state :=
  fold_left (fun st p => (scanTimerFires p None st).1) ps st.

(** The same listener with another batch size. *)
Definition with_batchSize (n : nat) (st : state) : state :=
  {| l_chainId := l_chainId st; blocksPerScan := blocksPerScan st;
     batchSize := n; _isRunning := _isRunning st;
     lastProcessedBlock := lastProcessedBlock st;
     contractConfigs := contractConfigs st |}.

End Scanning.

(* ===================================================================== *)
(** ** What the handler keeps per contract *)
(* ===================================================================== *)

Module Tracking.
Import Js Model Handler.

(** [contractData.metadata?.transferCount || 0] of the record of a key. *)
Definition transferCount (w : World) (k : string * Z) : Z :=
  number_or ((contractData w !! k ≫= cd_metadata) ≫= md_transferCount) 0.

(** [contractData.metadata?.largeTransferCount || 0] *)
Definition largeTransferCount (w : World) (k : string * Z) : Z :=
  number_or ((contractData w !! k ≫= cd_metadata) ≫= md_largeTransferCount) 0.

(** [firstSeenBlock] of the record of a key, if both exist. *)
Definition firstSeenBlock_of (w : World) (k : string * Z) : option Z :=
  contractData w !! k ≫= firstSeenBlock.

(** An asynchronous method that never rejects. *)
Definition never_throws {A} (m : M A) : Prop :=
  forall w, exists w' a, m w = (w', Normal a).

(** A [firstSeenBlock] that is set and not zero has stayed as it was. *)
Definition first_seen_kept (w w' : World) : Prop :=
  forall k c, firstSeenBlock_of w k = Some c -> c <> 0 ->
              firstSeenBlock_of w' k = Some c.

(** The event is one of the contract [(a, c)] and carries the three
    arguments of a Transfer. *)
Definition transfer_of (a : string) (c : Z) (ev : BlockchainEvent) : Prop :=
  contractAddress ev = a /\ chainId ev = c /\ is_Some (transfer_fields ev).

(** The parts of the world a quiet step leaves alone. *)
Definition quiet_frame (w w' : World) : Prop :=
  schedule w' = [] /\ contractConfigs w' = contractConfigs w
  /\ blockchainEvents w' = blockchainEvents w.

(** The metadata [updateContractMetadata] writes, for the metadata it read. *)
Definition counted (ev : BlockchainEvent) (td : ERC20TransferData)
    (m : TokenMetadata) : TokenMetadata :=
  {| md_tokenType := md_tokenType m;
     md_tokenData := md_tokenData m;
     md_lastBlock := Some (blockNumber ev);
     md_transferCount := Some (number_or (md_transferCount m) 0 + 1);
     md_largeTransferCount :=
       Some (number_or (md_largeTransferCount m) 0
             + (if td_isLargeTransfer td then 1 else 0));
     md_lastTransferTimestamp := Some (timestamp ev);
     md_isStablecoin := md_isStablecoin m;
     md_priority := md_priority m |}.

(** A method whose effect on the world stays within a relation. *)
Definition keeps_rel (R : World -> World -> Prop) {A} (m : M A) : Prop :=
  forall w, R w (m w).1.

(** Seen from a world [w0]: every [firstSeenBlock] but that of [k0] is as
    it was, and that of [k0] too unless it counted as unset. *)
Definition first_seen_inv (k0 : string * Z) (unset : bool) (w0 w : World) : Prop :=
  (forall k, k <> k0 -> firstSeenBlock_of w k = firstSeenBlock_of w0 k)
  /\ (unset = false -> firstSeenBlock_of w k0 = firstSeenBlock_of w0 k0).

Definition first_seen_step (k0 : string * Z) (unset : bool) (w w' : World) : Prop :=
  forall w0, first_seen_inv k0 unset w0 w -> first_seen_inv k0 unset w0 w'.

End Tracking.

(* ===================================================================== *)
(** * Properties *)
(* ===================================================================== *)

Section TokenFacts.
Import Js Tokens.


Lemma try_catch_normal {A} (body : completion A) (handler : error -> A) :
  exists a, try_catch body (fun e => Normal (handler e)) = Normal a.
Proof. destruct body; simpl; eauto. Qed.

(** C10. [formatTokenAmount] always returns: whatever the arguments, the
    result is a string, never a thrown error; and when [BigInt(amount)]
    throws, or [BigInt(10 ** decimals)] throws, or the divisor is zero, the
    string returned is the input itself.  The copy in the handler,
    [formatTokenValue], behaves the same. *)
Theorem formatTokenAmount_never_throws (s : string) (decimals maxDecimals : Z) :
  (exists out, formatTokenAmount (AString s) decimals maxDecimals = Normal out)
  /\ (exists out, Handler.formatTokenValue s decimals = Normal out)
  /\ (forall e, BigInt_of_string s = Throw e ->
        formatTokenAmount (AString s) decimals maxDecimals = Normal s
        /\ Handler.formatTokenValue s decimals = Normal s)
  /\ (forall e, divisor_of decimals = Throw e ->
        formatTokenAmount (AString s) decimals maxDecimals = Normal s)
  /\ (divisor_of decimals = Normal 0 ->
        formatTokenAmount (AString s) decimals maxDecimals = Normal s).
Proof.
  repeat split.
  - apply (try_catch_normal _ (fun _ => s)).
  - apply (try_catch_normal _ (fun _ => s)).
  - unfold formatTokenAmount, formatTokenAmount_try. simpl. rewrite H. reflexivity.
  - unfold Handler.formatTokenValue, formatTokenAmount, formatTokenAmount_try.
    simpl. rewrite H. reflexivity.
  - intros e H. unfold formatTokenAmount, formatTokenAmount_try. simpl.
    destruct (BigInt_of_string s); simpl; [rewrite H|]; reflexivity.
  - intros H. unfold formatTokenAmount, formatTokenAmount_try. simpl.
    destruct (BigInt_of_string s); simpl; [rewrite H|]; reflexivity.
Qed.

Lemma formatTokenAmount_never_throws_witness :
  BigInt_of_string "12.5" = Throw SyntaxError
  /\ divisor_of (-1) = Throw RangeError
  /\ divisor_of (-400) = Normal 0
  /\ formatTokenAmount (AString "12.5") 6 6 = Normal "12.5"
  /\ formatTokenAmount (AString "7") (-1) 6 = Normal "7"
  /\ formatTokenAmount (AString "7") (-400) 6 = Normal "7".
Proof.
  assert (H1 : BigInt_of_string "12.5" = Throw SyntaxError) by reflexivity.
  assert (H2 : divisor_of (-1) = Throw RangeError) by (vm_compute; reflexivity).
  assert (H3 : divisor_of (-400) = Normal 0) by (vm_compute; reflexivity).
  split; [exact H1|]. split; [exact H2|]. split; [exact H3|].
  split; [| split].
  - exact (proj1 (proj1 (proj2 (proj2 (formatTokenAmount_never_throws "12.5" 6 6)))
                    SyntaxError H1)).
  - exact (proj1 (proj2 (proj2 (proj2 (formatTokenAmount_never_throws "7" (-1) 6))))
                 RangeError H2).
  - exact (proj2 (proj2 (proj2 (proj2 (formatTokenAmount_never_throws "7" (-400) 6))))
                 H3).
Defined.

(** *** Rounding *)

Lemma rne_bound (n d : Z) : 0 < d -> 2 * Z.abs (rne n d * d - n) <= d.
Proof.
  intros Hd. unfold rne.
  pose proof (Z.div_mod n d ltac:(lia)) as Hdm.
  pose proof (Z.mod_pos_bound n d Hd) as Hr.
  destruct (2 * (n mod d) <? d) eqn:E1; [apply Z.ltb_lt in E1; nia|].
  apply Z.ltb_ge in E1.
  destruct (d <? 2 * (n mod d)) eqn:E2; [apply Z.ltb_lt in E2; nia|].
  apply Z.ltb_ge in E2.
  destruct (Z.even (n / d)); nia.
Qed.

Lemma rne_nonneg (n d : Z) : 0 <= n -> 0 < d -> 0 <= rne n d.
Proof.
  intros Hn Hd. unfold rne.
  pose proof (Z.div_pos n d Hn Hd).
  repeat match goal with |- context [if ?b then _ else _] => destruct b end; lia.
Qed.

Lemma rne_by_one (n : Z) : rne n 1 = n.
Proof.
  unfold rne. rewrite Z.mod_1_r, Z.div_1_r. reflexivity.
Qed.

Lemma floor_log2_ratio_lt (n d K : Z) :
  0 < n -> 0 < d -> 0 <= K -> n < d * 2 ^ K -> floor_log2_ratio n d < K.
Proof.
  intros Hn Hd HK Hlt. unfold floor_log2_ratio.
  assert (Hk : Z.log2 n - Z.log2 d <= K).
  { assert (Z.log2 n <= Z.log2 (d * 2 ^ K)) by (apply Z.log2_le_mono; lia).
    rewrite Z.log2_mul_pow2 in H by lia. lia. }
  destruct (0 <=? Z.log2 n - Z.log2 d) eqn:E0.
  - apply Z.leb_le in E0.
    destruct (d * 2 ^ (Z.log2 n - Z.log2 d) <=? n) eqn:E1; [|lia].
    apply Z.leb_le in E1.
    destruct (Z.eq_dec (Z.log2 n - Z.log2 d) K) as [Heq|]; [rewrite Heq in E1; lia|lia].
  - apply Z.leb_gt in E0.
    destruct (d <=? n * 2 ^ (- (Z.log2 n - Z.log2 d))); lia.
Qed.

(** A quotient below [2^33] is rounded on a grid of step at most [2^-20]. *)
Lemma round_f64_below_2_33 (n d q0 d0 c : Z) :
  0 < c -> 0 < q0 -> 0 < d0 -> n = q0 * c -> d = d0 * c -> q0 < d0 * 2 ^ 33 ->
  exists m K, round_f64 n d = Fin m (- K) /\ 20 <= K /\ 0 <= m
              /\ 2 * Z.abs (m * d0 - q0 * 2 ^ K) <= d0.
Proof.
  intros Hc Hq Hd0 -> -> Hlt.
  unfold round_f64.
  assert (Hn : 0 < q0 * c) by nia.
  assert (Hd : 0 < d0 * c) by nia.
  destruct (q0 * c =? 0) eqn:E; [apply Z.eqb_eq in E; lia|clear E].
  set (e := Z.max (floor_log2_ratio (Z.abs (q0 * c)) (d0 * c) - 52) (-1074)).
  assert (He : e <= -20).
  { subst e. rewrite Z.abs_eq by lia.
    pose proof (floor_log2_ratio_lt (q0 * c) (d0 * c) 33 Hn Hd ltac:(lia)
                  ltac:(nia)). lia. }
  assert (He' : -1074 <= e) by (subst e; lia).
  destruct (0 <=? e) eqn:E0; [apply Z.leb_le in E0; lia|]. simpl.
  exists (rne (q0 * c * 2 ^ (- e)) (d0 * c)), (- e).
  rewrite Z.opp_involutive. split; [reflexivity|]. split; [lia|].
  assert (Hp : 0 < 2 ^ (- e)) by (apply Z.pow_pos_nonneg; lia).
  split; [apply rne_nonneg; nia|].
  pose proof (rne_bound (q0 * c * 2 ^ (- e)) (d0 * c) Hd) as Hb.
  set (m := rne (q0 * c * 2 ^ (- e)) (d0 * c)) in *.
  replace (m * (d0 * c) - q0 * c * 2 ^ (- e))
    with (c * (m * d0 - q0 * 2 ^ (- e))) in Hb by ring.
  rewrite Z.abs_mul, (Z.abs_eq c) in Hb by lia.
  nia.
Qed.

Lemma Number_of_BigInt_exact (q : Z) :
  0 < q < 2 ^ 53 ->
  Number_of_BigInt q = Fin (q * 2 ^ (52 - Z.log2 q)) (Z.log2 q - 52).
Proof.
  intros [Hq Hlt]. unfold Number_of_BigInt, round_f64.
  destruct (q =? 0) eqn:E; [apply Z.eqb_eq in E; lia|clear E].
  rewrite Z.abs_eq by lia.
  pose proof (Z.log2_spec q Hq) as [Hlo Hhi].
  pose proof (Z.log2_nonneg q) as Hnn.
  assert (Hl : Z.log2 q <= 52).
  { assert (Z.log2 q < 53) by (apply Z.log2_lt_pow2; lia). lia. }
  assert (HE : floor_log2_ratio q 1 = Z.log2 q).
  { unfold floor_log2_ratio. change (Z.log2 1) with 0. rewrite Z.sub_0_r.
    destruct (0 <=? Z.log2 q) eqn:E0; [|apply Z.leb_gt in E0; lia].
    destruct (1 * 2 ^ Z.log2 q <=? q) eqn:E1; [reflexivity|].
    apply Z.leb_gt in E1. lia. }
  rewrite HE. rewrite Z.max_l by lia.
  destruct (0 <=? Z.log2 q - 52) eqn:E0.
  - apply Z.leb_le in E0. assert (Z.log2 q = 52) as -> by lia.
    change (52 - 52) with 0. change (2 ^ 0) with 1.
    rewrite !Z.mul_1_r, rne_by_one. simpl andb.
    destruct (2 ^ 1024 <=? Z.abs q) eqn:E1; [|reflexivity].
    apply Z.leb_le in E1.
    assert (2 ^ 53 < 2 ^ 1024) by (apply Z.pow_lt_mono_r; lia). lia.
  - simpl andb. rewrite rne_by_one.
    replace (- (Z.log2 q - 52)) with (52 - Z.log2 q) by lia. reflexivity.
Qed.

Lemma round_half_expand_near (N D q : Z) :
  0 < D -> 2 * Z.abs (N - q * D) < D -> round_half_expand N D = q.
Proof.
  intros HD Hb. unfold round_half_expand.
  symmetry. apply (Z.div_unique _ _ _ (2 * N + D - q * (2 * D))); lia.
Qed.

(** The quotient of the formatter, when it stays below [2^33 * 10^6], is the
    integer that the rendering works on. *)
Lemma scaled_quotient (q : Z) :
  0 <= q < 2 ^ 33 * 10 ^ 6 ->
  exists m e,
    f64_div (Number_of_BigInt q) (f64_of_Z 1000000) = Fin m e
    /\ 0 <= m /\ scaled_magnitude m e 6 = q.
Proof.
  intros [Hq Hlt].
  destruct (Z.eq_dec q 0) as [->|Hne].
  { exists 0, 0. repeat split; vm_compute; congruence. }
  assert (H53 : q < 2 ^ 53) by lia.
  rewrite (Number_of_BigInt_exact q) by lia.
  change (f64_of_Z 1000000) with (Fin (1000000 * 2 ^ 33) (-33)).
  pose proof (Z.log2_nonneg q) as Hnn.
  assert (Hl : Z.log2 q <= 52).
  { assert (Z.log2 q < 53) by (apply Z.log2_lt_pow2; lia). lia. }
  set (k := 52 - Z.log2 q). replace (Z.log2 q - 52) with (- k) by lia.
  assert (Hk : 0 <= k <= 52) by lia.
  unfold f64_div.
  destruct (1000000 * 2 ^ 33 =? 0) eqn:E; [discriminate|clear E].
  change (Z.sgn (1000000 * 2 ^ 33)) with 1.
  change (Z.abs (1000000 * 2 ^ 33)) with (1000000 * 2 ^ 33).
  destruct (round_f64_below_2_33
              (1 * (q * 2 ^ k) * 2 ^ Z.max (- k - -33) 0)
              (1000000 * 2 ^ 33 * 2 ^ Z.max (-33 - - k) 0)
              q 1000000 (2 ^ Z.max k 33))
    as (m & K & Hr & HK & Hm & Hb).
  - apply Z.pow_pos_nonneg; lia.
  - lia.
  - lia.
  - rewrite Z.mul_1_l, <- Z.mul_assoc, <- Z.pow_add_r by lia.
    f_equal. f_equal. lia.
  - rewrite <- Z.mul_assoc, <- Z.pow_add_r by lia.
    f_equal. f_equal. lia.
  - lia.
  - exists m, (- K). split; [exact Hr|]. split; [exact Hm|].
    unfold scaled_magnitude.
    destruct (0 <=? - K) eqn:E; [apply Z.leb_le in E; lia|].
    rewrite Z.opp_involutive, Z.abs_eq by lia.
    apply round_half_expand_near.
    + apply Z.pow_pos_nonneg; lia.
    + assert (2 ^ 20 <= 2 ^ K) by (apply Z.pow_le_mono_r; lia).
      change (10 ^ 6) with 1000000. change (2 ^ 20) with 1048576 in H.
      lia.
Qed.

(** *** Digits *)


Lemma digit_value_digit_char (d : Z) :
  0 <= d <= 9 -> digit_value (digit_char d) = Some d.
Proof.
  intros H.
  assert (d = 0 \/ d = 1 \/ d = 2 \/ d = 3 \/ d = 4 \/ d = 5 \/ d = 6 \/ d = 7
          \/ d = 8 \/ d = 9) as Hc by lia.
  repeat (destruct Hc as [->|Hc]; [reflexivity|]). subst. reflexivity.
Qed.

Lemma is_digit_digit_char (d : Z) : 0 <= d <= 9 -> is_digit (digit_char d) = true.
Proof.
  intros H. unfold is_digit. rewrite digit_value_digit_char by lia.
  apply Z.ltb_lt. lia.
Qed.

Lemma is_digit_not_comma (c : ascii) : is_digit c = true -> Ascii.eqb c "," = false.
Proof.
  intros H. destruct (Ascii.eqb c ",") eqn:E; [|reflexivity].
  apply Ascii.eqb_eq in E. subst. discriminate.
Qed.

Lemma is_digit_not_point (c : ascii) : is_digit c = true -> Ascii.eqb c "." = false.
Proof.
  intros H. destruct (Ascii.eqb c ".") eqn:E; [|reflexivity].
  apply Ascii.eqb_eq in E. subst. discriminate.
Qed.

Lemma is_digit_not_minus (c : ascii) : is_digit c = true -> Ascii.eqb c "-" = false.
Proof.
  intros H. destruct (Ascii.eqb c "-") eqn:E; [|reflexivity].
  apply Ascii.eqb_eq in E. subst. discriminate.
Qed.

Lemma digits_value_app (acc : Z) (l1 l2 : list ascii) :
  digits_value 10 acc (l1 ++ l2)
  = match digits_value 10 acc l1 with
    | Some a => digits_value 10 a l2
    | None => None
    end.
Proof.
  revert acc. induction l1 as [|c l1 IH]; intros acc; simpl; [reflexivity|].
  destruct (digit_value c) as [v|]; [|reflexivity].
  destruct (v <? 10); [apply IH|reflexivity].
Qed.

Lemma mod_pow10_succ (n : Z) (k : nat) :
  0 <= n ->
  n mod 10 ^ Z.of_nat (S k) = 10 * ((n / 10) mod 10 ^ Z.of_nat k) + n mod 10.
Proof.
  intros Hn. rewrite Nat2Z.inj_succ, Z.pow_succ_r by lia.
  rewrite Z.rem_mul_r by (try apply Z.pow_nonzero; lia). lia.
Qed.

Lemma fixed_digits_value (k : nat) : forall n acc,
  0 <= n ->
  digits_value 10 acc (fixed_digits k n)
  = Some (acc * 10 ^ Z.of_nat k + n mod 10 ^ Z.of_nat k).
Proof.
  induction k as [|k IH]; intros n acc Hn.
  - simpl. rewrite Z.mod_1_r. f_equal. lia.
  - cbn [fixed_digits]. rewrite digits_value_app.
    rewrite IH by (apply Z.div_pos; lia).
    cbn [digits_value].
    pose proof (Z.mod_pos_bound n 10 ltac:(lia)) as Hm.
    rewrite digit_value_digit_char by lia.
    destruct (n mod 10 <? 10) eqn:E; [|apply Z.ltb_ge in E; lia].
    f_equal. rewrite mod_pow10_succ by lia.
    rewrite Nat2Z.inj_succ, Z.pow_succ_r by lia. ring.
Qed.

Lemma fixed_digits_length (k : nat) : forall n, length (fixed_digits k n) = k.
Proof.
  induction k as [|k IH]; intros n; [reflexivity|].
  cbn [fixed_digits]. rewrite length_app, IH. simpl. lia.
Qed.

Lemma fixed_digits_are_digits (k : nat) : forall n,
  0 <= n -> Forall (fun c => is_digit c = true) (fixed_digits k n).
Proof.
  induction k as [|k IH]; intros n Hn; [constructor|].
  cbn [fixed_digits]. apply Forall_app. split.
  - apply IH. apply Z.div_pos; lia.
  - constructor; [|constructor]. apply is_digit_digit_char.
    pose proof (Z.mod_pos_bound n 10 ltac:(lia)). lia.
Qed.

Lemma num_digits_fuel_bound (fuel : nat) : forall n,
  0 <= n < 2 ^ Z.of_nat (S fuel) -> n < 10 ^ Z.of_nat (num_digits_fuel fuel n).
Proof.
  induction fuel as [|fuel IH]; intros n [Hn Hlt].
  - simpl in *. lia.
  - cbn [num_digits_fuel]. destruct (n <? 10) eqn:E.
    + apply Z.ltb_lt in E. simpl. lia.
    + apply Z.ltb_ge in E.
      rewrite Nat2Z.inj_succ, Z.pow_succ_r by lia.
      assert (Hdiv : n / 10 < 10 ^ Z.of_nat (num_digits_fuel fuel (n / 10))).
      { apply IH. split; [apply Z.div_pos; lia|].
        rewrite (Nat2Z.inj_succ (S fuel)), Z.pow_succ_r in Hlt by lia.
        apply Z.div_lt_upper_bound; lia. }
      pose proof (Z.div_mod n 10 ltac:(lia)).
      pose proof (Z.mod_pos_bound n 10 ltac:(lia)). lia.
Qed.

Lemma num_digits_bound (n : Z) : 0 <= n -> n < 10 ^ Z.of_nat (num_digits n).
Proof.
  intros Hn. unfold num_digits. apply num_digits_fuel_bound.
  split; [exact Hn|].
  destruct (Z.eq_dec n 0) as [->|Hne]; [simpl; lia|].
  rewrite Nat2Z.inj_succ, Z2Nat.id by apply Z.log2_nonneg.
  apply Z.log2_spec. lia.
Qed.

Lemma num_digits_fuel_pos (fuel : nat) (n : Z) : (1 <= num_digits_fuel fuel n)%nat.
Proof. destruct fuel; simpl; [lia|]. destruct (n <? 10); lia. Qed.

Lemma decimal_digits_value (n : Z) :
  0 <= n -> literal_value 10 (decimal_digits n) = Some n.
Proof.
  intros Hn. unfold literal_value, decimal_digits.
  pose proof (fixed_digits_length (num_digits n) n) as Hlen.
  pose proof (num_digits_fuel_pos (Z.to_nat (Z.log2 n)) n) as Hpos.
  fold (num_digits n) in Hpos.
  destruct (fixed_digits (num_digits n) n) eqn:E; [simpl in Hlen; lia|].
  rewrite <- E, fixed_digits_value by lia.
  rewrite Z.mod_small by (split; [lia|apply num_digits_bound; lia]).
  reflexivity.
Qed.

Lemma decimal_digits_are_digits (n : Z) :
  0 <= n -> Forall (fun c => is_digit c = true) (decimal_digits n).
Proof. intros Hn. apply fixed_digits_are_digits. exact Hn. Qed.

(** *** Grouping *)

Lemma strip_commas_cons_digit (c : ascii) (l : list ascii) :
  is_digit c = true -> strip_commas (c :: l) = c :: strip_commas l.
Proof.
  intros Hc. unfold strip_commas. simpl.
  rewrite (is_digit_not_comma c Hc). reflexivity.
Qed.

Lemma strip_commas_cons_comma (l : list ascii) :
  strip_commas (","%char :: l) = strip_commas l.
Proof. reflexivity. Qed.

Lemma strip_commas_digits (ds : list ascii) :
  Forall (fun c => is_digit c = true) ds -> strip_commas ds = ds.
Proof.
  induction 1 as [|c ds Hc _ IH]; [reflexivity|].
  rewrite strip_commas_cons_digit by exact Hc. f_equal. exact IH.
Qed.

Lemma strip_commas_group3_rev (n : nat) : forall ds,
  (length ds <= n)%nat -> Forall (fun c => is_digit c = true) ds ->
  strip_commas (group3_rev ds) = ds.
Proof.
  induction n as [|n IH]; intros ds Hlen Hds.
  - destruct ds; [reflexivity|simpl in Hlen; lia].
  - destruct ds as [|a [|b [|c [|d rest]]]];
      try (apply strip_commas_digits; exact Hds).
    change (group3_rev (a :: b :: c :: d :: rest))
      with (a :: b :: c :: ","%char :: group3_rev (d :: rest)).
    inversion Hds as [|? ? Ha Hds1]; subst.
    inversion Hds1 as [|? ? Hb Hds2]; subst.
    inversion Hds2 as [|? ? Hc Hds3]; subst.
    rewrite !strip_commas_cons_digit by assumption.
    rewrite strip_commas_cons_comma.
    f_equal. f_equal. f_equal.
    apply IH; [simpl in *; lia|exact Hds3].
Qed.

Lemma filter_rev_list {A} (f : A -> bool) (l : list A) :
  List.filter f (rev l) = rev (List.filter f l).
Proof.
  induction l as [|x l IH]; [reflexivity|].
  simpl. rewrite List.filter_app, IH. simpl.
  destruct (f x); simpl; [reflexivity|apply app_nil_r].
Qed.

Lemma strip_commas_grouped (ds : list ascii) :
  Forall (fun c => is_digit c = true) ds -> strip_commas (grouped ds) = ds.
Proof.
  intros Hds. unfold grouped, strip_commas.
  rewrite filter_rev_list.
  fold (strip_commas (group3_rev (rev ds))).
  rewrite (strip_commas_group3_rev (length (rev ds))); [apply rev_involutive|lia|].
  apply Forall_rev. exact Hds.
Qed.

Lemma split_at_point_digits (ds fs : list ascii) :
  Forall (fun c => is_digit c = true) ds ->
  split_at_point (ds ++ "."%char :: fs) = (ds, Some fs).
Proof.
  induction 1 as [|c ds Hc _ IH]; [reflexivity|].
  simpl. rewrite (is_digit_not_point c Hc), IH. reflexivity.
Qed.

(** *** Fraction digits *)

Lemma strip_zeros_rev_spec (extra : nat) : forall l,
  exists j, (j <= extra)%nat
            /\ l = repeat "0"%char j ++ strip_zeros_rev extra l.
Proof.
  induction extra as [|extra IH]; intros l.
  - exists 0%nat. split; [lia|]. destruct l; reflexivity.
  - destruct l as [|c rest].
    + exists 0%nat. split; [lia|reflexivity].
    + cbn [strip_zeros_rev]. destruct (Ascii.eqb c "0") eqn:E.
      * apply Ascii.eqb_eq in E. subst c.
        destruct (IH rest) as (j & Hj & Heq).
        exists (S j). split; [lia|]. simpl. f_equal. exact Heq.
      * exists 0%nat. split; [lia|reflexivity].
Qed.

Lemma rev_repeat {A} (x : A) (j : nat) : rev (repeat x j) = repeat x j.
Proof.
  induction j as [|j IH]; [reflexivity|].
  simpl. rewrite IH. clear IH.
  induction j as [|j IH]; [reflexivity|]. simpl. f_equal. exact IH.
Qed.

Lemma digits_value_zeros (j : nat) : forall acc,
  digits_value 10 acc (repeat "0"%char j) = Some (acc * 10 ^ Z.of_nat j).
Proof.
  induction j as [|j IH]; intros acc.
  - simpl. f_equal. lia.
  - cbn [repeat digits_value].
    change (digit_value "0") with (Some 0). change (0 <? 10) with true.
    cbv iota. rewrite IH, Nat2Z.inj_succ, Z.pow_succ_r by lia. f_equal. ring.
Qed.

(** The fraction printed for [fp] millionths has between two and six
    digits and denotes [fp / 10^6]. *)
Lemma fraction_rendered (fp : Z) :
  0 <= fp < 10 ^ 6 ->
  exists f len,
    let frac := rev (strip_zeros_rev 4 (rev (fixed_digits 6 fp))) in
    length frac = len /\ (2 <= len <= 6)%nat
    /\ literal_value 10 frac = Some f
    /\ f * 10 ^ (6 - Z.of_nat len) = fp
    /\ Forall (fun c => is_digit c = true) frac.
Proof.
  intros Hfp.
  destruct (strip_zeros_rev_spec 4 (rev (fixed_digits 6 fp))) as (j & Hj & Heq).
  set (R := strip_zeros_rev 4 (rev (fixed_digits 6 fp))) in *.
  assert (Hfix : fixed_digits 6 fp = rev R ++ repeat "0"%char j).
  { rewrite <- (rev_involutive (fixed_digits 6 fp)), Heq, rev_app_distr,
      rev_repeat. reflexivity. }
  assert (Hlen : (length (rev R) + j = 6)%nat).
  { rewrite <- (fixed_digits_length 6 fp), Hfix, length_app, repeat_length.
    reflexivity. }
  pose proof (fixed_digits_value 6 fp 0 ltac:(lia)) as Hval.
  rewrite Hfix, digits_value_app in Hval.
  destruct (digits_value 10 0 (rev R)) as [f|] eqn:Ef; [|discriminate].
  rewrite digits_value_zeros in Hval. injection Hval as Hval.
  change (Z.of_nat 6) with 6 in Hval. rewrite Z.mod_small in Hval by lia.
  exists f, (length (rev R)). cbv zeta.
  split; [reflexivity|]. split; [lia|].
  split.
  - unfold literal_value. destruct (rev R) eqn:E; [simpl in Hlen; lia|].
    exact Ef.
  - split.
    + replace (6 - Z.of_nat (length (rev R))) with (Z.of_nat j) by lia. lia.
    + pose proof (fixed_digits_are_digits 6 fp ltac:(lia)) as Hd.
      rewrite Hfix in Hd. apply Forall_app in Hd. tauto.
Qed.

(** *** Rendering and reading back *)


Lemma toLocaleString_nonneg (m e q : Z) :
  0 <= m -> scaled_magnitude m e 6 = q -> 0 <= q ->
  toLocaleString_en_US (Fin m e) 2 6 = Normal (rendered q).
Proof.
  intros Hm Hs Hq. unfold toLocaleString_en_US, rendered.
  change ((2 <? 0) || (100 <? 6) || (6 <? 2)) with false. cbv iota.
  rewrite Hs. destruct (m <? 0) eqn:E; [apply Z.ltb_lt in E; lia|].
  change (Z.to_nat (6 - 2)) with 4%nat. change (Z.to_nat 6) with 6%nat.
  cbn [app].
  destruct (fraction_rendered (q mod 10 ^ 6)) as (f & len & Hl & Hr & _).
  { apply Z.mod_pos_bound. lia. }
  cbv zeta in Hl.
  destruct (rev (strip_zeros_rev 4 (rev (fixed_digits 6 (q mod 10 ^ 6)))));
    [simpl in Hl; lia|reflexivity].
Qed.

Lemma decimal_value_rendered (q : Z) :
  0 <= q ->
  exists r, decimal_value (rendered q) = Some r /\ (r == q # 1000000)%Q.
Proof.
  intros Hq. unfold decimal_value, rendered.
  rewrite list_ascii_of_string_of_list_ascii.
  assert (Hip : 0 <= q / 10 ^ 6) by (apply Z.div_pos; lia).
  pose proof (decimal_digits_are_digits _ Hip) as Hdig.
  pose proof (decimal_digits_value _ Hip) as Hval.
  destruct (fraction_rendered (q mod 10 ^ 6)) as (f & len & Hl & Hr & Hf & Hfp & Hfd).
  { apply Z.mod_pos_bound. lia. }
  cbv zeta in *.
  set (frac := rev (strip_zeros_rev 4 (rev (fixed_digits 6 (q mod 10 ^ 6))))) in *.
  unfold strip_commas. rewrite List.filter_app.
  fold (strip_commas (grouped (decimal_digits (q / 10 ^ 6)))).
  fold (strip_commas ("."%char :: frac)).
  rewrite strip_commas_grouped by exact Hdig.
  change (strip_commas ("."%char :: frac)) with ("."%char :: strip_commas frac).
  rewrite (strip_commas_digits frac) by exact Hfd.
  destruct (decimal_digits (q / 10 ^ 6)) as [|c ds] eqn:Ed; [discriminate|].
  cbn [app]. pose proof (Forall_inv Hdig) as Hc. cbv beta in Hc.
  rewrite (is_digit_not_minus c Hc).
  unfold unsigned_decimal_value.
  change (c :: ds ++ "."%char :: frac) with ((c :: ds) ++ "."%char :: frac).
  rewrite split_at_point_digits by exact Hdig.
  rewrite Hval, Hf, Hl.
  eexists. split; [reflexivity|].
  unfold Qeq. cbn [Qnum Qden].
  assert (Hpos : 0 < 10 ^ Z.of_nat len) by (apply Z.pow_pos_nonneg; lia).
  rewrite Z2Pos.id by exact Hpos.
  pose proof (Z.div_mod q (10 ^ 6) ltac:(lia)) as Hdm.
  assert (Hsplit : 10 ^ 6 = 10 ^ Z.of_nat len * 10 ^ (6 - Z.of_nat len)).
  { rewrite <- Z.pow_add_r by lia. f_equal. lia. }
  change (Z.pos 1000000) with (10 ^ 6).
  set (P := 10 ^ Z.of_nat len) in *. set (P' := 10 ^ (6 - Z.of_nat len)) in *.
  set (ip := q / 10 ^ 6) in *. set (fp := q mod 10 ^ 6) in *.
  rewrite Hdm at 1. rewrite <- Hfp. rewrite Hsplit. ring.
Qed.

(** The digits after the point of a rendered amount: at least two, at most
    six. *)
Lemma rendered_fraction_digits (q : Z) :
  0 <= q ->
  exists ip fp,
    list_ascii_of_string (rendered q) = ip ++ "."%char :: fp
    /\ Forall (fun c => is_digit c = true \/ c = ","%char) ip
    /\ Forall (fun c => is_digit c = true) fp
    /\ (2 <= length fp <= 6)%nat.
Proof.
  intros Hq. unfold rendered. rewrite list_ascii_of_string_of_list_ascii.
  destruct (fraction_rendered (q mod 10 ^ 6)) as (f & len & Hl & Hr & _ & _ & Hfd).
  { apply Z.mod_pos_bound. lia. }
  cbv zeta in *.
  eexists _, _. split; [reflexivity|]. split; [|split; [exact Hfd|lia]].
  assert (Hip : 0 <= q / 10 ^ 6) by (apply Z.div_pos; lia).
  pose proof (decimal_digits_are_digits _ Hip) as Hdig.
  unfold grouped. apply Forall_rev.
  apply Forall_rev in Hdig. revert Hdig.
  generalize (rev (decimal_digits (q / 10 ^ 6))). intros ds.
  remember (length ds) as n eqn:Hn.
  assert (Hle : (length ds <= n)%nat) by lia. clear Hn. revert ds Hle.
  induction n as [|n IH]; intros ds Hle Hds.
  - destruct ds; [constructor|simpl in Hle; lia].
  - destruct ds as [|a [|b [|c [|d rest]]]];
      try (eapply Forall_impl; [exact Hds|]; simpl; tauto).
    change (group3_rev (a :: b :: c :: d :: rest))
      with (a :: b :: c :: ","%char :: group3_rev (d :: rest)).
    inversion Hds as [|? ? Ha Hds1]; subst.
    inversion Hds1 as [|? ? Hb Hds2]; subst.
    inversion Hds2 as [|? ? Hc Hds3]; subst.
    repeat (constructor; [tauto|]).
    apply IH; [simpl in *; lia|exact Hds3].
Qed.

(** Truncation to millionths stays within one millionth of the amount. *)
Lemma truncation_within_1e6 (r : Q) (v d : Z) :
  0 <= d -> 0 <= v ->
  (r == (v * 10 ^ 6 / 10 ^ d) # 1000000)%Q ->
  (Qabs (r - exact_amount v d) <= 1 # 1000000)%Q.
Proof.
  intros Hd Hv Hr. rewrite Hr. clear Hr.
  assert (HD : 0 < 10 ^ d) by (apply Z.pow_pos_nonneg; lia).
  pose proof (Z.div_mod (v * 10 ^ 6) (10 ^ d) ltac:(lia)) as Hdm.
  pose proof (Z.mod_pos_bound (v * 10 ^ 6) (10 ^ d) HD) as Hm.
  set (q := v * 10 ^ 6 / 10 ^ d) in *.
  apply Qabs_Qle_condition. unfold exact_amount.
  unfold Qle, Qminus, Qplus, Qopp. cbn [Qnum Qden].
  rewrite !Pos2Z.inj_mul, !Z2Pos.id by exact HD.
  change (Z.pos 1000000) with (10 ^ 6) in *.
  change (Z.pos 1) with 1. change (Z.neg 1) with (-1).
  split; nia.
Qed.

(** *** The formatter *)

Lemma divisor_of_exact (decimals : Z) :
  0 <= decimals <= 22 -> divisor_of decimals = Normal (10 ^ decimals).
Proof.
  intros H.
  assert (exists n : nat, decimals = Z.of_nat n /\ (n <= 22)%nat) as (n & -> & Hn).
  { exists (Z.to_nat decimals). lia. }
  do 23 (destruct n as [|n]; [vm_compute; reflexivity|]). lia.
Qed.

Lemma formatTokenAmount_rendered (a : amount) (valueRaw decimals : Z) :
  amount_value a = Normal valueRaw ->
  0 <= decimals <= 22 ->
  0 <= valueRaw < 2 ^ 33 * 10 ^ decimals ->
  formatTokenAmount a decimals 6
  = Normal (rendered (valueRaw * 10 ^ 6 / 10 ^ decimals)).
Proof.
  intros Ha Hd [Hv Hlt].
  assert (HD : 0 < 10 ^ decimals) by (apply Z.pow_pos_nonneg; lia).
  set (q := valueRaw * 10 ^ 6 / 10 ^ decimals).
  assert (Hq : 0 <= q < 2 ^ 33 * 10 ^ 6).
  { subst q. split; [apply Z.div_pos; lia|].
    apply Z.div_lt_upper_bound; [lia|]. nia. }
  unfold formatTokenAmount, formatTokenAmount_try.
  rewrite Ha. js_step.
  rewrite divisor_of_exact by lia. js_step.
  unfold BigInt_div.
  destruct (10 ^ decimals =? 0) eqn:E; [apply Z.eqb_eq in E; lia|].
  js_step. rewrite Z.quot_div_nonneg by lia.
  change (valueRaw * 1000000) with (valueRaw * 10 ^ 6). fold q.
  destruct (scaled_quotient q Hq) as (m & e & -> & Hm & Hs).
  rewrite (toLocaleString_nonneg m e q Hm Hs) by lia.
  reflexivity.
Qed.

(** C6, as amended.  For [0 <= decimals <= 22] and
    [0 <= valueRaw < 2^33 * 10^decimals] (less than 8,589,934,592 tokens),
    [formatTokenAmount] prints [valueRaw * 10^6 div 10^decimals] millionths:
    grouped integer digits, a point, and two to six fraction digits.  With
    its commas removed the string denotes exactly that many millionths,
    which is within [10^-6] of [valueRaw / 10^decimals]. *)
Theorem valueFormatted_within_1e6 (a : amount) (valueRaw decimals : Z) :
  amount_value a = Normal valueRaw ->
  0 <= decimals <= 22 ->
  0 <= valueRaw < 2 ^ 33 * 10 ^ decimals ->
  exists s r ip fp,
    formatTokenAmount a decimals 6 = Normal s
    /\ list_ascii_of_string s = ip ++ "."%char :: fp
    /\ Forall (fun c => is_digit c = true \/ c = ","%char) ip
    /\ Forall (fun c => is_digit c = true) fp
    /\ (2 <= length fp <= 6)%nat
    /\ decimal_value s = Some r
    /\ (r == (valueRaw * 10 ^ 6 / 10 ^ decimals) # 1000000)%Q
    /\ (Qabs (r - exact_amount valueRaw decimals) <= 1 # 1000000)%Q.
Proof.
  intros Ha Hd Hv.
  assert (HD : 0 < 10 ^ decimals) by (apply Z.pow_pos_nonneg; lia).
  assert (Hq : 0 <= valueRaw * 10 ^ 6 / 10 ^ decimals) by (apply Z.div_pos; lia).
  destruct (decimal_value_rendered _ Hq) as (r & Hr & Heq).
  destruct (rendered_fraction_digits _ Hq) as (ip & fp & Hs & Hip & Hfp & Hlen).
  exists (rendered (valueRaw * 10 ^ 6 / 10 ^ decimals)), r, ip, fp.
  split; [apply formatTokenAmount_rendered; assumption|].
  repeat (split; [assumption|]).
  apply truncation_within_1e6; [lia|lia|exact Heq].
Qed.

Lemma valueFormatted_within_1e6_witness :
  exists s r ip fp,
    formatTokenAmount (AString "250000000000") 6 6 = Normal s
    /\ list_ascii_of_string s = ip ++ "."%char :: fp
    /\ Forall (fun c => is_digit c = true \/ c = ","%char) ip
    /\ Forall (fun c => is_digit c = true) fp
    /\ (2 <= length fp <= 6)%nat
    /\ decimal_value s = Some r
    /\ (r == (250000000000 * 10 ^ 6 / 10 ^ 6) # 1000000)%Q
    /\ (Qabs (r - exact_amount 250000000000 6) <= 1 # 1000000)%Q.
Proof.
  apply (valueFormatted_within_1e6 (AString "250000000000") 250000000000 6).
  - reflexivity.
  - lia.
  - vm_compute. split; congruence.
Defined.

(** C6, as the specification states it, fails: one trillion tokens and
    fifty millionths, at 18 decimals, are printed as
    [1,000,000,000,000.00], which is [5 * 10^-5] away from the amount. *)
Lemma precision_bound_fails_for_large_amounts : ~ spec_precision_bound.
Proof.
  intros H.
  destruct (H (10 ^ 30 + 5 * 10 ^ 13) 18 ltac:(lia) ltac:(vm_compute; congruence))
    as (s & r & Hs & Hr & Hb).
  vm_compute in Hs. injection Hs as <-.
  vm_compute in Hr. injection Hr as <-.
  vm_compute in Hb. apply Hb. reflexivity.
Qed.

Example large_amount_rendering :
  formatTokenAmount (ABigInt (10 ^ 30 + 5 * 10 ^ 13)) 18 6
  = Normal "1,000,000,000,000.00".
Proof. vm_compute. reflexivity. Qed.

(** C5 at its boundary.  One hundred thousand tokens of a stablecoin with 18
    decimals are exactly at the threshold, and the three copies of
    [isLargeTransfer] answer [false]: [Number(10^23) / Number(10^18)] is
    [99999.99999999999] in binary64.  In the other direction, one raw unit
    less than a million tokens of another token is answered [true]. *)
Theorem isLargeTransfer_at_threshold_18_decimals :
  spec_isLarge (10 ^ 23) 18 true = true
  /\ isLargeTransfer (AString "100000000000000000000000") 18 true = Normal false
  /\ spec_isLarge (10 ^ 24 - 1) 18 false = false
  /\ isLargeTransfer (AString "999999999999999999999999") 18 false = Normal true
  /\ Handler.isLargeTransferCheck "100000000000000000000000" 18 true = Normal false
  /\ (forall config,
        Listener.config_decimals config = 18 ->
        Listener.config_isStablecoin config = true ->
        Listener.isLargeTransfer "100000000000000000000000" config = Normal false).
Proof.
  split; [reflexivity|]. split; [vm_compute; reflexivity|].
  split; [reflexivity|]. split; [vm_compute; reflexivity|].
  split; [vm_compute; reflexivity|].
  intros config Hd Hs. unfold Listener.isLargeTransfer. rewrite Hd, Hs.
  vm_compute. reflexivity.
Qed.

Lemma isLargeTransfer_at_threshold_18_decimals_witness :
  Listener.isLargeTransfer "100000000000000000000000"
    {| Model.address := "0x6b175474e89094c44da98b954eedeac495271d0f";
       Model.cfg_chainId := 1; Model.cfg_name := "Dai Stablecoin";
       Model.cfg_symbol := "DAI"; Model.cfg_type := "erc20";
       Model.events := [Listener.TRANSFER_TOPIC]; Model.abi := [];
       Model.enabled := true;
       Model.metadata :=
         Some {| Model.decimals := Some 18; Model.isStablecoin := Some true;
                 Model.priority := None |} |}
  = Normal false.
Proof.
  apply (proj2 (proj2 (proj2 (proj2 (proj2
           isLargeTransfer_at_threshold_18_decimals)))));
    reflexivity.
Defined.

Example isLargeTransfer_at_threshold_6_decimals :
  isLargeTransfer (AString "100000000000") 6 true = Normal true
  /\ isLargeTransfer (AString "99999999999") 6 true = Normal false
  /\ isLargeTransfer (AString "1000000000000000000000000") 18 false = Normal true.
Proof. repeat split; vm_compute; reflexivity. Qed.

Example quotient_agrees_with_SpecFloat :
  to_spec (f64_div (Number_of_BigInt (10 ^ 23)) (Number_of_BigInt (10 ^ 18)))
  = SFdiv 53 1024 (binary_normalize 53 1024 (10 ^ 23) 0 false)
                  (binary_normalize 53 1024 (10 ^ 18) 0 false)
  /\ SFltb
       (SFdiv 53 1024 (binary_normalize 53 1024 (10 ^ 23) 0 false)
                      (binary_normalize 53 1024 (10 ^ 18) 0 false))
       (binary_normalize 53 1024 100000 0 false) = true.
Proof. split; vm_compute; reflexivity. Qed.

Example formatter_quotient_agrees_with_SpecFloat :
  to_spec (f64_div (Number_of_BigInt (10 ^ 18 + 50)) (f64_of_Z 1000000))
  = SFdiv 53 1024 (binary_normalize 53 1024 (10 ^ 18 + 50) 0 false)
                  (binary_normalize 53 1024 1000000 0 false)
  /\ to_spec (f64_div (Number_of_BigInt 1234567891234567) (f64_of_Z 1000000))
     = SFdiv 53 1024 (binary_normalize 53 1024 1234567891234567 0 false)
                     (binary_normalize 53 1024 1000000 0 false).
Proof. split; vm_compute; reflexivity. Qed.

End TokenFacts.

(* ===================================================================== *)
(** ** The dispatcher *)
(* ===================================================================== *)

Section DispatcherFacts.
Import Js Model Dispatcher.
Context {W : Type}.

Local Abbreviation handler := (IEventHandler W).
Local Abbreviation dstate := (Dispatcher.state W).
Local Abbreviation daction := (Dispatcher.action W).




Lemma run_handlers_spec (ev : BlockchainEvent) (hs : list handler) :
  forall w invs lg,
  exists new,
    (fold_left (run_handler ev) hs (w, invs, lg)).1.2 = invs ++ new
    /\ List.map (fun i => (inv_handler i, inv_event i)) new
       = List.map (fun h => (handler_name h, ev)) hs
    /\ Forall2 (fun i h => exists w0, inv_outcome i = (handle h ev w0).2) new hs
    /\ exists lg',
         (fold_left (run_handler ev) hs (w, invs, lg)).2 = lg ++ lg'
         /\ forall i err, In i new -> inv_outcome i = Throw err ->
                          In (LogHandlerFailed (inv_handler i) err) lg'.
Proof.
  induction hs as [|h hs IH]; intros w invs lg.
  - exists []. simpl. rewrite !app_nil_r. repeat split; try constructor.
    exists []. rewrite app_nil_r. split; [reflexivity|]. intros i err [].
  - cbn [fold_left].
    destruct (handle h ev w) as [w' outcome] eqn:Eh.
    set (inv := {| inv_handler := handler_name h; inv_event := ev;
                   inv_outcome := outcome |}).
    set (entry := match outcome with
                  | Normal _ => LogHandlerSucceeded (handler_name h)
                  | Throw err => LogHandlerFailed (handler_name h) err
                  end).
    assert (Hstep : run_handler ev (w, invs, lg) h
                    = (w', invs ++ [inv], lg ++ [entry])).
    { unfold run_handler. rewrite Eh. reflexivity. }
    rewrite Hstep.
    destruct (IH w' (invs ++ [inv]) (lg ++ [entry]))
      as (new & Hnew & Hmap & Hout & lg' & Hlg & Herr).
    exists (inv :: new). rewrite Hnew, <- app_assoc. split; [reflexivity|].
    split; [simpl; f_equal; exact Hmap|].
    split.
    + constructor; [|exact Hout]. exists w. rewrite Eh. reflexivity.
    + exists (entry :: lg'). rewrite Hlg, <- app_assoc. split; [reflexivity|].
      intros i err [<-|Hin] Hi.
      * left. subst entry. simpl in Hi. rewrite Hi. reflexivity.
      * right. eapply Herr; eassumption.
Qed.

(** What [processEvent] changes. *)
Lemma processEvent_spec (ev : BlockchainEvent) (st : dstate) :
  let st' := processEvent ev st in
  handlers st' = handlers st /\ eventQueue st' = eventQueue st
  /\ isProcessing st' = isProcessing st /\ awaiting st' = awaiting st
  /\ activeDrains st' = activeDrains st /\ received st' = received st
  /\ processed st' = processed st ++ [ev]
  /\ exists new,
       invocations st' = invocations st ++ new
       /\ List.map (fun i => (inv_handler i, inv_event i)) new
          = calls_for (handlers st) ev
       /\ Forall2 (fun i h => exists w0, inv_outcome i = (handle h ev w0).2)
                  new (eligibleHandlers ev st)
       /\ forall i err, In i new -> inv_outcome i = Throw err ->
                        In (LogHandlerFailed (inv_handler i) err) (logger st').
Proof.
  unfold processEvent, calls_for.
  fold (eligibleHandlers ev st).
  destruct (eligibleHandlers ev st) as [|h hs] eqn:E.
  - cbn. repeat split; try reflexivity.
    exists []. rewrite app_nil_r. repeat split; try constructor.
    intros i err [].
  - destruct (run_handlers_spec ev (h :: hs) (world st) (invocations st)
                (logger st ++ [LogProcessing (length (h :: hs))]))
      as (new & Hnew & Hmap & Hout & lg' & Hlg & Herr).
    destruct (fold_left (run_handler ev) (h :: hs)
                (world st, invocations st,
                 logger st ++ [LogProcessing (length (h :: hs))]))
      as [[w calls] lg] eqn:Ef.
    cbn in Hnew, Hlg. cbn. repeat split; try reflexivity.
    exists new. split; [exact Hnew|]. split; [exact Hmap|]. split; [exact Hout|].
    intros i err Hin Hi. rewrite Hlg. apply in_or_app. right.
    eapply Herr; eassumption.
Qed.


Lemma pending_nil (st : dstate) :
  pending st = [] -> awaiting st = None /\ eventQueue st = [].
Proof. unfold pending. destruct (awaiting st); [discriminate|tauto]. Qed.

Lemma dispatcher_inv_init (w : W) : dispatcher_inv [] (init w).
Proof. constructor; try reflexivity; try discriminate. Qed.

Lemma dispatcher_inv_register (hs : list handler) (h : handler) (st : dstate) :
  processed st = [] -> dispatcher_inv hs st ->
  dispatcher_inv (hs ++ [h]) (registerHandler h st).
Proof.
  intros Hp [H1 H2 H3 H4 H5 H6]. constructor; cbn; try assumption.
  - rewrite H1. reflexivity.
  - unfold calls in *. cbn. rewrite Hp in *. exact H6.
Qed.


Lemma dispatcher_inv_dispatch (hs : list handler) (ev : BlockchainEvent)
    (st : dstate) :
  dispatcher_inv hs st -> dispatcher_inv hs (dispatchEvent ev st).
Proof.
  intros [H1 H2 H3 H4 H5 H6]. unfold dispatchEvent. cbn [isProcessing].
  destruct (isProcessing st) eqn:Ep; cbn [negb].
  - constructor; inv_easy.
    unfold pending in *. cbn.
    destruct (awaiting st) as [a|].
    + change (a :: eventQueue st ++ [ev]) with ((a :: eventQueue st) ++ [ev]).
      rewrite app_assoc. apply sublist_app; [exact H5|reflexivity].
    + rewrite app_assoc. apply sublist_app; [exact H5|reflexivity].
  - destruct (pending_nil st (H3 eq_refl)) as [Ha Hq].
    unfold processEventQueue. cbn [isProcessing].
    unfold next_iteration. cbn. rewrite Hq. cbn.
    constructor; inv_easy.
    + rewrite H2. reflexivity.
    + unfold pending in *. cbn. rewrite Ha, Hq, app_nil_r in H5.
      apply sublist_app; [exact H5|reflexivity].
Qed.

Lemma dispatcher_inv_settle (hs : list handler) (st : dstate) :
  dispatcher_inv hs st -> dispatcher_inv hs (handlersSettled st).
Proof.
  intros Hinv. unfold handlersSettled.
  destruct (awaiting st) as [ev|] eqn:Ea; [|exact Hinv].
  destruct Hinv as [H1 H2 H3 H4 H5 H6].
  assert (Ep : isProcessing st = true).
  { destruct (isProcessing st) eqn:Ep; [reflexivity|].
    specialize (H3 eq_refl). unfold pending in H3. rewrite Ea in H3.
    discriminate. }
  set (st0 := {| handlers := handlers st; eventQueue := eventQueue st;
                 isProcessing := isProcessing st; awaiting := None;
                 activeDrains := activeDrains st; received := received st;
                 processed := processed st; invocations := invocations st;
                 logger := logger st; world := world st |}).
  destruct (processEvent_spec ev st0)
    as (P1 & P2 & P3 & P4 & P5 & P6 & P7 & new & P8 & P9 & _).
  cbv zeta in *. cbn [st0 handlers eventQueue isProcessing awaiting activeDrains
                      received processed invocations] in *.
  assert (Hc : calls (processEvent ev st0)
               = flat_map (calls_for hs) (processed st ++ [ev])).
  { unfold calls in *. rewrite P8, List.map_app, H6, P9, H1, flat_map_app.
    simpl. rewrite app_nil_r. reflexivity. }
  unfold pending in H5. rewrite Ea in H5.
  unfold next_iteration. rewrite P2.
  destruct (eventQueue st) as [|next rest] eqn:Eq.
  - constructor; inv_easy.
    + rewrite P1. exact H1.
    + rewrite P5, H2, Ep. reflexivity.
    + rewrite P6, P7, app_nil_r. exact H5.
    + rewrite P7. exact Hc.
  - constructor; inv_easy.
    + rewrite P1. exact H1.
    + rewrite P3, P5, Ep. rewrite Ep in H2. exact H2.
    + rewrite P3, Ep. discriminate.
    + rewrite P6, P7, <- app_assoc. exact H5.
    + rewrite P7. exact Hc.
Qed.

Lemma dispatcher_inv_clear (hs : list handler) (st : dstate) :
  dispatcher_inv hs st -> dispatcher_inv hs (clearQueue st).
Proof.
  intros [H1 H2 H3 H4 H5 H6]. constructor; cbn; try assumption.
  - intros Hp. specialize (H3 Hp). unfold pending in *. cbn.
    destruct (awaiting st); [discriminate|reflexivity].
  - unfold pending in *. cbn. etransitivity; [|exact H5].
    apply sublist_app; [reflexivity|].
    destruct (awaiting st); [|apply sublist_nil_l].
    apply sublist_skip. apply sublist_nil_l.
Qed.

Lemma dispatcher_inv_step (hs : list handler) (st : dstate) (a : daction) :
  is_register a = false -> dispatcher_inv hs st -> dispatcher_inv hs (step st a).
Proof.
  destruct a; cbn; intros Hr Hinv; try discriminate.
  - apply dispatcher_inv_dispatch; assumption.
  - apply dispatcher_inv_settle; assumption.
  - apply dispatcher_inv_clear; assumption.
Qed.


Lemma registered_inv (w : W) (hs : list handler) :
  dispatcher_inv hs (registered w hs) /\ processed (registered w hs) = [].
Proof.
  unfold registered. induction hs as [|h hs IH] using rev_ind.
  - split; [apply dispatcher_inv_init|reflexivity].
  - rewrite fold_left_app. cbn. destruct IH as [IH Hp].
    split; [apply dispatcher_inv_register; assumption|exact Hp].
Qed.

Lemma run_inv (hs : list handler) (acts : list daction) : forall st,
  Forall (fun a => is_register a = false) acts ->
  dispatcher_inv hs st -> dispatcher_inv hs (run st acts).
Proof.
  induction acts as [|a acts IH]; intros st Hf Hinv; [exact Hinv|].
  inversion Hf; subst. cbn. apply IH; [assumption|].
  apply dispatcher_inv_step; assumption.
Qed.

(** Without [clearQueue] nothing received is ever lost. *)

Lemma lossless_step (st : dstate) (a : daction) :
  is_clear a = false -> lossless st -> lossless (step st a).
Proof.
  intros Ha [Hidle Heq]. destruct a as [h|ev| |]; try discriminate; cbn [step].
  - split; [exact Hidle|exact Heq].
  - unfold dispatchEvent. cbn [isProcessing].
    destruct (isProcessing st) eqn:Ep; cbn [negb].
    + split; [cbn; discriminate|].
      unfold pending in *. cbn. rewrite <- Heq.
      destruct (awaiting st); rewrite <- ?app_assoc; reflexivity.
    + destruct (pending_nil st (Hidle eq_refl)) as [Ha' Hq].
      unfold processEventQueue. cbn [isProcessing].
      unfold next_iteration. cbn. rewrite Hq. cbn.
      split; [discriminate|].
      unfold pending in *. cbn. rewrite Ha', Hq, app_nil_r in Heq.
      rewrite <- Heq. reflexivity.
  - unfold handlersSettled.
    destruct (awaiting st) as [ev|] eqn:Ea; [|split; assumption].
    match goal with |- context [processEvent ev ?s] => set (st0 := s) end.
    destruct (processEvent_spec ev st0) as (_ & P2 & P3 & _ & _ & P6 & P7 & _).
    cbv zeta in *. unfold next_iteration. rewrite P2.
    cbn [st0 eventQueue received processed isProcessing] in *.
    unfold pending in Heq. rewrite Ea in Heq.
    destruct (eventQueue st) as [|next rest]; unfold lossless, pending; cbn;
      rewrite P6, P7, <- Heq, <- ?app_assoc; split;
      try reflexivity; try discriminate.
    rewrite P3. intros Hp. specialize (Hidle Hp).
    unfold pending in Hidle. rewrite Ea in Hidle. discriminate.
Qed.

Lemma run_lossless (acts : list daction) : forall st,
  Forall (fun a => is_clear a = false) acts ->
  lossless st -> lossless (run st acts).
Proof.
  induction acts as [|a acts IH]; intros st Hf Hl; [exact Hl|].
  inversion Hf; subst. cbn. apply IH; [assumption|].
  apply lossless_step; assumption.
Qed.

Lemma dispatchEvent_appends (st : dstate) (ev : BlockchainEvent) :
  (isProcessing st = false -> pending st = []) ->
  pending (dispatchEvent ev st) = pending st ++ [ev]
  /\ received (dispatchEvent ev st) = received st ++ [ev]
  /\ isProcessing (dispatchEvent ev st) = true
  /\ handlers (dispatchEvent ev st) = handlers st
  /\ (isProcessing st = true ->
        eventQueue (dispatchEvent ev st) = eventQueue st ++ [ev]
        /\ awaiting (dispatchEvent ev st) = awaiting st
        /\ activeDrains (dispatchEvent ev st) = activeDrains st)
  /\ (isProcessing st = false ->
        eventQueue (dispatchEvent ev st) = []
        /\ awaiting (dispatchEvent ev st) = Some ev
        /\ activeDrains (dispatchEvent ev st) = S (activeDrains st)).
Proof.
  intros Hidle. unfold dispatchEvent. cbn [isProcessing].
  destruct (isProcessing st) eqn:Ep; cbn [negb].
  - unfold pending. cbn. repeat split; try discriminate.
    destruct (awaiting st); reflexivity.
  - destruct (pending_nil st (Hidle eq_refl)) as [Ha Hq].
    unfold processEventQueue. cbn [isProcessing].
    unfold next_iteration, pending. cbn. rewrite Ha, Hq. cbn.
    repeat split; discriminate.
Qed.

Lemma handlersSettled_advances (hs : list handler) (st : dstate)
    (ev : BlockchainEvent) :
  handlers st = hs -> awaiting st = Some ev ->
  let st' := handlersSettled st in
  handlers st' = hs
  /\ processed st' = processed st ++ [ev]
  /\ pending st' = eventQueue st
  /\ calls st' = calls st ++ calls_for hs ev
  /\ received st' = received st
  /\ (exists new,
        invocations st' = invocations st ++ new
        /\ Forall2 (fun i h => inv_handler i = handler_name h /\ inv_event i = ev
                               /\ exists w0, inv_outcome i = (handle h ev w0).2)
                   new (List.filter (fun h => canHandle h ev) hs)
        /\ forall i err, In i new -> inv_outcome i = Throw err ->
                         In (LogHandlerFailed (inv_handler i) err) (logger st'))
  /\ match eventQueue st with
     | next :: rest =>
         awaiting st' = Some next /\ eventQueue st' = rest
         /\ isProcessing st' = isProcessing st
     | [] => awaiting st' = None /\ eventQueue st' = [] /\ isProcessing st' = false
     end.
Proof.
  intros Hh Ha. cbv zeta. unfold handlersSettled. rewrite Ha.
  match goal with |- context [processEvent ev ?s] => set (st0 := s) end.
  destruct (processEvent_spec ev st0)
    as (P1 & P2 & P3 & P4 & P5 & P6 & P7 & new & P8 & P9 & P10 & P11).
  cbv zeta in *.
  cbn [st0 handlers eventQueue isProcessing awaiting activeDrains received
       processed invocations] in *.
  assert (Hnew : Forall2
            (fun i h => inv_handler i = handler_name h /\ inv_event i = ev
                        /\ exists w0, inv_outcome i = (handle h ev w0).2)
            new (List.filter (fun h => canHandle h ev) hs)).
  { unfold calls_for, eligibleHandlers in *. cbn [st0 handlers] in P10.
    rewrite Hh in *. clear - P9 P10. revert P9.
    induction P10 as [|i h new l Hi _ IH]; intros P9; [constructor|].
    simpl in P9. injection P9 as Hn He Hrest.
    constructor; [auto|apply IH; exact Hrest]. }
  assert (Hlog : forall lgr, logger (next_iteration (processEvent ev st0)) = lgr ->
                             lgr = logger (processEvent ev st0)).
  { intros lgr <-. unfold next_iteration.
    destruct (eventQueue (processEvent ev st0)); reflexivity. }
  unfold next_iteration. rewrite P2.
  destruct (eventQueue st) as [|next rest] eqn:Eq; unfold pending, calls; cbn;
    rewrite ?P1, ?P3, ?P6, ?P7, ?P8, ?List.map_app, ?P9, ?Hh;
    repeat split; try reflexivity;
    exists new; (split; [reflexivity|]); (split; [exact Hnew|exact P11]).
Qed.

(** C7. The dispatcher is a cooperative single worker with a FIFO queue.
    Take the service with handlers [hs] registered and let any sequence of
    calls of [dispatchEvent], resumptions of the drain loop and calls of
    [clearQueue] happen, in any interleaving.  Then:
    - every further [dispatchEvent] appends its event behind all pending
      ones and leaves the service draining; when a drain loop is active
      the call only appends, otherwise the caller starts the loop;
    - at most one drain loop is active, exactly when the flag is set;
    - when the handlers of the awaited event have settled, that event is
      done and the loop awaits the head of the queue;
    - the events handled and pending, in this order, are the events
      received, in the order received, except those [clearQueue] dropped;
    - the calls of handlers are those of the handled events, event by
      event in that order, each event with its eligible handlers in
      registration order. *)
Theorem dispatcher_single_worker_fifo (w : W) (hs : list handler)
    (acts : list daction) :
  Forall (fun a => is_register a = false) acts ->
  let st := run (registered w hs) acts in
  (forall ev,
     pending (dispatchEvent ev st) = pending st ++ [ev]
     /\ isProcessing (dispatchEvent ev st) = true
     /\ (isProcessing st = true ->
           eventQueue (dispatchEvent ev st) = eventQueue st ++ [ev]
           /\ awaiting (dispatchEvent ev st) = awaiting st
           /\ activeDrains (dispatchEvent ev st) = activeDrains st)
     /\ (isProcessing st = false ->
           awaiting (dispatchEvent ev st) = Some ev
           /\ activeDrains (dispatchEvent ev st) = 1%nat))
  /\ (activeDrains st <= 1)%nat
  /\ activeDrains st = (if isProcessing st then 1%nat else 0%nat)
  /\ (forall ev, awaiting st = Some ev ->
        processed (handlersSettled st) = processed st ++ [ev]
        /\ pending (handlersSettled st) = eventQueue st
        /\ calls (handlersSettled st) = calls st ++ calls_for hs ev)
  /\ sublist (processed st ++ pending st) (received st)
  /\ (Forall (fun a => is_clear a = false) acts ->
        processed st ++ pending st = received st)
  /\ calls st = flat_map (calls_for hs) (processed st).
Proof.
  intros Hreg st.
  destruct (registered_inv w hs) as [Hinv0 Hp0].
  pose proof (run_inv hs acts _ Hreg Hinv0) as Hinv. fold st in Hinv.
  destruct Hinv as [H1 H2 H3 H4 H5 H6].
  split.
  { intros ev.
    destruct (dispatchEvent_appends st ev H3) as (D1 & _ & D3 & _ & D5 & D6).
    split; [exact D1|]. split; [exact D3|]. split; [exact D5|].
    intros Hp. destruct (D6 Hp) as (_ & D7 & D8). split; [exact D7|].
    rewrite D8, H2, Hp. reflexivity. }
  split; [rewrite H2; destruct (isProcessing st); lia|].
  split; [exact H2|].
  split.
  { intros ev Ha.
    destruct (handlersSettled_advances hs st ev H1 Ha) as (_ & S2 & S3 & S4 & _).
    auto. }
  split; [exact H5|]. split; [|exact H6].
  intros Hclear.
  assert (Hl0 : lossless (registered w hs)).
  { unfold registered. clear. induction hs as [|h hs IH] using rev_ind.
    - split; reflexivity.
    - rewrite fold_left_app. cbn [fold_left]. destruct IH as [I1 I2].
      split; [exact I1|exact I2]. }
  destruct (run_lossless acts _ Hclear Hl0) as [_ Heq]. exact Heq.
Qed.

(** C8. A failing handler is isolated.  When the handlers of the awaited
    event [ev] settle, every registered handler with [canHandle ev] has
    been called with [ev], in registration order, whatever the others did;
    each call that threw left an error entry naming the handler in the log
    and nothing else; the event counts as processed, the loop goes on to the
    head of the queue (or ends if the queue is empty), and the registered
    handlers are the same as before. *)
Theorem handler_failure_is_isolated (st : dstate) (ev : BlockchainEvent) :
  awaiting st = Some ev ->
  let st' := handlersSettled st in
  getHandlerCount st' = getHandlerCount st
  /\ handlers st' = handlers st
  /\ (exists new,
        invocations st' = invocations st ++ new
        /\ Forall2 (fun i h => inv_handler i = handler_name h /\ inv_event i = ev
                               /\ exists w0, inv_outcome i = (handle h ev w0).2)
                   new (eligibleHandlers ev st)
        /\ forall i err, In i new -> inv_outcome i = Throw err ->
                         In (LogHandlerFailed (inv_handler i) err) (logger st'))
  /\ processed st' = processed st ++ [ev]
  /\ match eventQueue st with
     | next :: rest =>
         awaiting st' = Some next /\ eventQueue st' = rest
         /\ isProcessing st' = isProcessing st
     | [] => awaiting st' = None /\ eventQueue st' = [] /\ isProcessing st' = false
     end.
Proof.
  intros Ha.
  destruct (handlersSettled_advances (handlers st) st ev eq_refl Ha)
    as (S1 & S2 & _ & _ & _ & S6 & S7).
  cbv zeta in *. unfold getHandlerCount. rewrite S1.
  repeat split; try reflexivity; assumption.
Qed.


End DispatcherFacts.

Section DispatcherWitnesses.
Import Js Model Dispatcher.

Lemma dispatcher_single_worker_fifo_witness :
  let st := run (registered 0%nat [Samples.handlerA; Samples.handlerB])
                [Dispatch Samples.ev1; Dispatch Samples.ev2; Settle] in
  processed st ++ pending st = received st
  /\ processed st = [Samples.ev1]
  /\ pending st = [Samples.ev2]
  /\ activeDrains st = 1%nat.
Proof.
  pose proof (dispatcher_single_worker_fifo (W := nat) 0%nat
                [Samples.handlerA; Samples.handlerB]
                [Dispatch Samples.ev1; Dispatch Samples.ev2; Settle]
                ltac:(repeat constructor)) as H.
  cbv zeta in *. destruct H as (_ & _ & _ & _ & _ & Heq & _).
  split; [apply Heq; repeat constructor|].
  repeat split.
Defined.

Lemma handler_failure_is_isolated_witness :
  let st := run (registered 0%nat [Samples.handlerA; Samples.handlerB])
                [Dispatch Samples.ev1; Dispatch Samples.ev2] in
  let st' := handlersSettled st in
  awaiting st = Some Samples.ev1
  /\ getHandlerCount st' = 2%nat
  /\ In (LogHandlerFailed "A" TypeError) (logger st')
  /\ In {| inv_handler := "B"; inv_event := Samples.ev1;
           inv_outcome := Normal tt |} (invocations st')
  /\ awaiting st' = Some Samples.ev2
  /\ getQueueSize (handlersSettled st') = 0%nat
  /\ getHandlerCount (handlersSettled st') = 2%nat.
Proof.
  cbv zeta.
  pose proof (handler_failure_is_isolated (W := nat)
                (run (registered 0%nat [Samples.handlerA; Samples.handlerB])
                     [Dispatch Samples.ev1; Dispatch Samples.ev2])
                Samples.ev1 eq_refl) as H.
  cbv zeta in H. destruct H as (Hc & _ & _ & _ & Hn).
  split; [reflexivity|]. split; [rewrite Hc; reflexivity|].
  split; [vm_compute; tauto|]. split; [vm_compute; tauto|].
  split; [exact (proj1 Hn)|]. split; reflexivity.
Defined.

End DispatcherWitnesses.

(* ===================================================================== *)
(** ** The pull listener *)
(* ===================================================================== *)

Section ListenerFacts.
Import Js Model Listener.

Example tick_happy_path :
  let '(st', fx) := scanForNewBlocks (Samples.upstream [Samples.log95] Samples.receipt_ok) None
                      Samples.listener89 in
  lastProcessedBlock st' = 100
  /\ List.map event_identity (dispatched fx)
     = [(address Samples.usdc, "Transfer", "0xtx1", 95, 0)]
  /\ upstream_logs (Samples.upstream [Samples.log95] Samples.receipt_ok) [Samples.usdc] 90 100
     = [(address Samples.usdc, "Transfer", "0xtx1", 95, 0)].
Proof. vm_compute. repeat split. Qed.

Example tick_happy_path_event :
  dispatched (scanForNewBlocks (Samples.upstream [Samples.log95] Samples.receipt_ok) None
                Samples.listener89).2
  = [Samples.transfer_event 95 0 "0xtx1" []].
Proof. vm_compute. reflexivity. Qed.

(** *** Batching is transparent *)

Lemma concat_chunks_loop {T} (chunkSize : nat) (Hpos : (0 < chunkSize)%nat) :
  forall (fuel : nat) (array : list T),
    (length array <= fuel)%nat -> concat (chunks_loop fuel array chunkSize) = array.
Proof.
  induction fuel as [|fuel IH]; intros array Hlen.
  - destruct array; [reflexivity|simpl in Hlen; lia].
  - destruct array as [|x array]; [reflexivity|].
    cbn [chunks_loop concat]. rewrite IH; [apply take_drop|].
    rewrite length_drop. simpl in *. lia.
Qed.

Lemma concat_chunks {T} (array : list T) (chunkSize : nat) :
  (0 < chunkSize)%nat -> concat (chunks array chunkSize) = array.
Proof. intros H. apply concat_chunks_loop; [exact H|lia]. Qed.

Lemma flat_map_flat_map_concat {T R} (g : T -> list R) (ls : list (list T)) :
  flat_map (flat_map g) ls = flat_map g (concat ls).
Proof.
  induction ls as [|l ls IH]; [reflexivity|].
  simpl. rewrite flat_map_app, IH. reflexivity.
Qed.

Lemma processBatches_flat_map {T R} (items : list T) (g : T -> list R) (n : nat) :
  (0 < n)%nat -> processBatches items (flat_map g) n = flat_map g items.
Proof.
  intros H. unfold processBatches.
  rewrite flat_map_flat_map_concat, concat_chunks by exact H. reflexivity.
Qed.

(** *** What a tick collects *)

Lemma map_flat_map {A B C} (f : B -> C) (g : A -> list B) (l : list A) :
  List.map f (flat_map g l) = flat_map (fun x => List.map f (g x)) l.
Proof.
  induction l as [|x l IH]; [reflexivity|].
  simpl. rewrite List.map_app, IH. reflexivity.
Qed.

Lemma flat_map_map_list {A B C} (f : A -> B) (g : B -> list C) (l : list A) :
  flat_map g (List.map f l) = flat_map (fun x => g (f x)) l.
Proof.
  induction l as [|x l IH]; [reflexivity|]. simpl. rewrite IH. reflexivity.
Qed.

Lemma queryEvent_identities (p : Provider) (config : ContractConfig)
    (a b : Z) (name : string) :
  List.map scanned_identity (queryEvent p config a b name)
  = if has_filter p (abi config) name then
      match queryFilter p (address config) name a b with
      | Normal logs =>
          List.map (fun l => (address config, name, log_transactionHash l,
                               log_blockNumber l, log_index l)) logs
      | Throw _ => []
      end
    else [].
Proof.
  unfold queryEvent. destruct (has_filter p (abi config) name); [|reflexivity].
  destruct (queryFilter p (address config) name a b) as [logs|e]; [|reflexivity].
  cbn. rewrite List.map_map. reflexivity.
Qed.

Lemma flat_map_filter_list {A B} (f : A -> bool) (g : A -> list B) (l : list A) :
  flat_map g (List.filter f l) = flat_map (fun x => if f x then g x else []) l.
Proof.
  induction l as [|x l IH]; [reflexivity|].
  simpl. destruct (f x); simpl; rewrite IH; reflexivity.
Qed.

Lemma collected_identities (p : Provider) (configs : list ContractConfig)
    (a b : Z) :
  List.map scanned_identity (flat_map (contractEvents p a b) configs)
  = upstream_logs p configs a b.
Proof.
  unfold upstream_logs, issued_filters.
  induction configs as [|config configs IH]; [reflexivity|].
  cbn [flat_map]. rewrite List.map_app, flat_map_app, IH. f_equal.
  unfold contractEvents.
  destruct (new_Contract p (address config) (abi config)) as [[]|e];
    [|reflexivity].
  cbn. rewrite processBatches_flat_map by lia.
  rewrite map_flat_map, flat_map_map_list, flat_map_filter_list. cbn.
  apply flat_map_ext. intros name. apply queryEvent_identities.
Qed.

(** *** Sorting *)

Lemma compareEvents_identities (x y : ScannedEvent) :
  compareEvents x y = compareIdentities (scanned_identity x) (scanned_identity y).
Proof. reflexivity. Qed.

Lemma insert_event_identities (x : ScannedEvent) (l : list ScannedEvent) :
  List.map scanned_identity (insert_event x l)
  = insert_identity (scanned_identity x) (List.map scanned_identity l).
Proof.
  induction l as [|y l IH]; [reflexivity|].
  cbn [insert_event insert_identity List.map].
  rewrite compareEvents_identities.
  destruct (compareIdentities (scanned_identity x) (scanned_identity y) <=? 0);
    cbn [List.map]; [reflexivity|]. rewrite IH. reflexivity.
Qed.

Lemma sortEvents_identities (l : list ScannedEvent) :
  List.map scanned_identity (sortEvents l)
  = sort_identities (List.map scanned_identity l).
Proof.
  induction l as [|x l IH]; [reflexivity|].
  change (sortEvents (x :: l)) with (insert_event x (sortEvents l)).
  rewrite insert_event_identities, IH. reflexivity.
Qed.

Lemma compareIdentities_le (x y : identity) :
  compareIdentities x y <= 0 <-> identity_le x y.
Proof.
  unfold compareIdentities, identity_le.
  destruct (x.1.2 =? y.1.2) eqn:E; cbn [negb].
  - apply Z.eqb_eq in E. lia.
  - apply Z.eqb_neq in E. lia.
Qed.

Lemma identity_le_trans (x y z : identity) :
  identity_le x y -> identity_le y z -> identity_le x z.
Proof. unfold identity_le. lia. Qed.

Lemma identity_le_total (x y : identity) : identity_le x y \/ identity_le y x.
Proof. unfold identity_le. lia. Qed.

Lemma insert_identity_perm (x : identity) (l : list identity) :
  Permutation (insert_identity x l) (x :: l).
Proof.
  induction l as [|y l IH]; [reflexivity|].
  cbn [insert_identity]. destruct (compareIdentities x y <=? 0); [reflexivity|].
  rewrite IH. apply perm_swap.
Qed.

Lemma sort_identities_perm (l : list identity) : Permutation (sort_identities l) l.
Proof.
  induction l as [|x l IH]; [reflexivity|].
  cbn [sort_identities fold_right]. rewrite insert_identity_perm.
  constructor. exact IH.
Qed.

Lemma insert_identity_sorted (x : identity) (l : list identity) :
  StronglySorted identity_le l -> StronglySorted identity_le (insert_identity x l).
Proof.
  induction 1 as [|y l Hs IH Hy]; [repeat constructor|].
  cbn [insert_identity]. destruct (compareIdentities x y <=? 0) eqn:E.
  - apply Z.leb_le, compareIdentities_le in E.
    constructor; [constructor; assumption|].
    constructor; [exact E|].
    eapply Forall_impl; [exact Hy|]. intros z Hz.
    eapply identity_le_trans; eassumption.
  - apply Z.leb_gt in E.
    assert (Hyx : identity_le y x).
    { destruct (identity_le_total x y) as [H|H]; [|exact H].
      apply compareIdentities_le in H. lia. }
    constructor; [exact IH|].
    apply List.Forall_forall. intros z Hz.
    apply (Permutation_in _ (insert_identity_perm x l)) in Hz.
    destruct Hz as [<-|Hz]; [exact Hyx|].
    rewrite List.Forall_forall in Hy. apply Hy. exact Hz.
Qed.

Lemma sort_identities_sorted (l : list identity) :
  StronglySorted identity_le (sort_identities l).
Proof.
  induction l as [|x l IH]; [constructor|].
  cbn [sort_identities fold_right]. apply insert_identity_sorted. exact IH.
Qed.

Lemma StronglySorted_filter_list {A} (R : A -> A -> Prop) (f : A -> bool)
    (l : list A) :
  StronglySorted R l -> StronglySorted R (List.filter f l).
Proof.
  induction 1 as [|x l Hs IH Hx]; [constructor|].
  simpl. destruct (f x); [|exact IH].
  constructor; [exact IH|].
  rewrite List.Forall_forall in *. intros y Hy. apply Hx.
  apply List.filter_In in Hy. tauto.
Qed.

Lemma StronglySorted_take {A} (R : A -> A -> Prop) (k : nat) (l : list A) :
  StronglySorted R l -> StronglySorted R (take k l).
Proof.
  intros H. rewrite <- (take_drop k l) in H.
  apply StronglySorted_app in H. tauto.
Qed.

(** *** One tick *)

Lemma formatTokenValue_normal (value : string) (config : ContractConfig) :
  exists s, Listener.formatTokenValue value config = Normal s.
Proof.
  unfold Listener.formatTokenValue.
  match goal with |- context [try_catch ?b _] => destruct b end; cbn; eauto.
Qed.

Lemma isLargeTransfer_normal (value : string) (config : ContractConfig) :
  exists b, Listener.isLargeTransfer value config = Normal b.
Proof.
  unfold Listener.isLargeTransfer.
  match goal with |- context [try_catch ?b _] => destruct b end; cbn; eauto.
Qed.

Lemma formatEventArgs_normal (name : string) (args : list string)
    (config : ContractConfig) :
  exists a, formatEventArgs name args config = Normal a.
Proof.
  unfold formatEventArgs.
  destruct args as [|a0 [|a1 [|a2 rest]]]; eauto.
  destruct (formatTokenValue_normal a2 config) as [s Hs].
  destruct (isLargeTransfer_normal a2 config) as [b Hb].
  rewrite Hs, Hb. js_step.
  destruct (String.eqb name "Transfer"); [eauto|].
  destruct (String.eqb name "Approval"); eauto.
Qed.

Lemma dispatched_app (fx1 fx2 : list effect) :
  dispatched (fx1 ++ fx2) = dispatched fx1 ++ dispatched fx2.
Proof. unfold dispatched. apply omap_app. Qed.

Lemma processContractEvent_dispatched (p : Provider) (chain : Z)
    (ev : ScannedEvent) :
  List.map event_identity (dispatched (processContractEvent p chain ev))
  = if receipt_found p (scanned_identity ev) then [scanned_identity ev] else [].
Proof.
  unfold processContractEvent, receipt_found.
  change ((scanned_identity ev).1.1.2) with (se_transactionHash ev).
  destruct (getTransactionReceipt p (se_transactionHash ev)) as [[r|]|e];
    js_step; try reflexivity.
  destruct (formatEventArgs_normal (se_eventName ev) (se_args ev)
              (se_contractConfig ev)) as [args ->].
  reflexivity.
Qed.

Lemma processEvents_reached (p : Provider) (chain : Z) (sb : option nat) :
  forall (evs : list ScannedEvent) (i : nat),
    match sb with Some k => (i <= k)%nat | None => True end ->
    processEvents p chain sb i true evs
    = (match sb with
       | Some k => negb (k - i <? length evs)%nat
       | None => true
       end,
       flat_map (processContractEvent p chain)
         (match sb with Some k => take (k - i) evs | None => evs end)).
Proof.
  induction evs as [|ev rest IH]; intros i Hi.
  - destruct sb as [k|]; cbn; [rewrite take_nil|]; reflexivity.
  - cbn [processEvents andb].
    destruct (bool_decide (sb = Some i)) eqn:E.
    + apply bool_decide_eq_true in E. subst sb. cbn.
      rewrite Nat.sub_diag. reflexivity.
    + apply bool_decide_eq_false in E. cbn [negb].
      rewrite IH.
      * destruct sb as [k|]; [|reflexivity].
        assert (Hk : (k - i = S (k - S i))%nat).
        { assert (k <> i) by congruence. lia. }
        rewrite Hk. cbn [take flat_map length]. f_equal.
      * destruct sb as [k|]; [|exact I].
        assert (k <> i) by congruence. lia.
Qed.

Lemma getAll_identities (p : Provider) (st : state) (a b : Z) :
  (0 < batchSize st)%nat ->
  List.map scanned_identity (getAllContractEventsInRange p st a b)
  = sort_identities (upstream_logs p (contractConfigs st) a b).
Proof.
  intros Hb. unfold getAllContractEventsInRange. cbv zeta.
  rewrite List.map_map. cbn [scanned_identity se_contractConfig se_eventName
    se_transactionHash se_blockNumber se_logIndex].
  change (List.map (fun x => (address (se_contractConfig x), se_eventName x,
                               se_transactionHash x, se_blockNumber x,
                               se_logIndex x)))
    with (List.map scanned_identity).
  rewrite sortEvents_identities, processBatches_flat_map by exact Hb.
  rewrite collected_identities. reflexivity.
Qed.

Lemma flat_map_dispatched (p : Provider) (chain : Z) (evs : list ScannedEvent) :
  List.map event_identity
    (dispatched (flat_map (processContractEvent p chain) evs))
  = List.filter (receipt_found p) (List.map scanned_identity evs).
Proof.
  induction evs as [|ev evs IH]; [reflexivity|].
  cbn [flat_map List.map List.filter].
  rewrite dispatched_app, List.map_app, IH, processContractEvent_dispatched.
  destruct (receipt_found p (scanned_identity ev)); reflexivity.
Qed.

Lemma reached_map {A B} (f : A -> B) (sb : option nat) (l : list A) :
  List.map f (reached sb l) = reached sb (List.map f l).
Proof.
  destruct sb as [k|]; [|reflexivity]. cbn.
  revert l. induction k as [|k IH]; intros [|x l]; cbn; try reflexivity.
  f_equal. apply IH.
Qed.

(** The range loop: what it enqueues and how it leaves the flag. *)
Lemma processBlockRange_dispatched (p : Provider) (sb : option nat) (st : state)
    (a b : Z) :
  _isRunning st = true -> (0 < batchSize st)%nat ->
  let '(r, fx) := processBlockRangeWithBatching p sb st a b in
  List.map event_identity (dispatched fx)
  = List.filter (receipt_found p)
      (reached sb (sort_identities (upstream_logs p (contractConfigs st) a b)))
  /\ r = match sb with
         | Some k =>
             negb (k <? length (sort_identities
                                  (upstream_logs p (contractConfigs st) a b)))%nat
         | None => true
         end.
Proof.
  intros Hrun Hb. unfold processBlockRangeWithBatching.
  pose proof (getAll_identities p st a b Hb) as Hids.
  destruct (contractConfigs st) as [|c cs] eqn:Ec.
  - cbn. split; [|destruct sb; exact Hrun].
    destruct sb as [k|]; cbn; [rewrite take_nil|]; reflexivity.
  - destruct (getAllContractEventsInRange p st a b) as [|ev evs] eqn:Eg.
    + rewrite <- Hids. split; [|destruct sb; exact Hrun].
      destruct sb as [k|]; cbn; [rewrite take_nil|]; reflexivity.
    + rewrite Hrun, (processEvents_reached p (l_chainId st) sb (ev :: evs) 0%nat)
        by (destruct sb; [lia|exact I]).
      split;
        [|rewrite <- Hids, length_map; destruct sb;
          [rewrite Nat.sub_0_r|]; reflexivity].
      change (dispatched (LogFound (length (ev :: evs)) :: ?fx))
        with (dispatched fx).
      rewrite <- Hids, <- reached_map.
      rewrite <- (flat_map_dispatched p (l_chainId st)). unfold reached.
      destruct sb as [k|]; [rewrite Nat.sub_0_r|]; reflexivity.
Qed.

(** One tick: what it enqueues, where the cursor ends, and that nothing is
    enqueued after the cursor is set. *)
Lemma tick_dispatched (p : Provider) (sb : option nat) (st : state) (a b : Z) :
  _isRunning st = true -> (0 < batchSize st)%nat ->
  scan_window p st = Some (a, b) ->
  let '(st', fx) := scanForNewBlocks p sb st in
  List.map event_identity (dispatched fx)
  = List.filter (receipt_found p)
      (reached sb (sort_identities (upstream_logs p (contractConfigs st) a b)))
  /\ lastProcessedBlock st' = b
  /\ _isRunning st'
     = match sb with
       | Some k =>
           negb (k <? length (sort_identities
                                (upstream_logs p (contractConfigs st) a b)))%nat
       | None => true
       end
  /\ exists pre post,
       fx = pre ++ CursorSet b :: post
       /\ dispatched post = [] /\ dispatched pre = dispatched fx.
Proof.
  intros Hrun Hb Hw. unfold scan_window in Hw. unfold scanForNewBlocks.
  destruct (getBlockNumber p) as [latest|e]; [|discriminate].
  destruct (latest <=? lastProcessedBlock st); [discriminate|].
  injection Hw as <- <-.
  pose proof (processBlockRange_dispatched p sb st (lastProcessedBlock st + 1)
                (Z.min latest (lastProcessedBlock st + 1 + blocksPerScan st - 1))
                Hrun Hb) as H.
  destruct (processBlockRangeWithBatching p sb st (lastProcessedBlock st + 1)
              (Z.min latest (lastProcessedBlock st + 1 + blocksPerScan st - 1)))
    as [r fx].
  destruct H as [Hd Hr]. cbn [lastProcessedBlock _isRunning].
  set (tail := if _ <? latest then [LogMoreBlocks] else []).
  assert (Ht : dispatched tail = []) by (subst tail; destruct (_ <? _); reflexivity).
  assert (Hall : dispatched (LogScanning (lastProcessedBlock st + 1)
                    (Z.min latest (lastProcessedBlock st + 1 + blocksPerScan st - 1))
                  :: fx ++ [CursorSet
                    (Z.min latest (lastProcessedBlock st + 1 + blocksPerScan st - 1))]
                  ++ tail) = dispatched fx).
  { change (dispatched (LogScanning ?x ?y :: ?l)) with (dispatched l).
    rewrite !dispatched_app, Ht. cbn. rewrite !app_nil_r. reflexivity. }
  rewrite Hall. split; [exact Hd|]. split; [reflexivity|]. split; [exact Hr|].
  exists (LogScanning (lastProcessedBlock st + 1)
            (Z.min latest (lastProcessedBlock st + 1 + blocksPerScan st - 1)) :: fx),
    tail.
  split; [reflexivity|]. split; [exact Ht|reflexivity].
Qed.

(** C1, as amended.  A tick of a running listener that is not stopped on
    the way enqueues exactly the logs that upstream returned for the
    filters it issued over the window [a, b] and whose transaction receipt
    upstream returns as well, in the stable ascending order of
    [(blockNumber, logIndex)].  A log whose receipt is missing, or whose
    receipt request fails, is not enqueued. *)
Theorem tick_enqueues_logs_with_receipt (p : Provider) (st : state) (a b : Z) :
  _isRunning st = true -> (0 < batchSize st)%nat ->
  scan_window p st = Some (a, b) ->
  let fx := (scanForNewBlocks p None st).2 in
  let logs := upstream_logs p (contractConfigs st) a b in
  List.map event_identity (dispatched fx)
  = List.filter (receipt_found p) (sort_identities logs)
  /\ (forall i, In i (List.map event_identity (dispatched fx))
                <-> In i logs /\ receipt_found p i = true)
  /\ StronglySorted identity_le (List.map event_identity (dispatched fx)).
Proof.
  intros Hrun Hb Hw. cbv zeta.
  pose proof (tick_dispatched p None st a b Hrun Hb Hw) as H.
  destruct (scanForNewBlocks p None st) as [st' fx]. cbn [snd].
  destruct H as (Hd & _). cbn [reached] in Hd. rewrite Hd.
  split; [reflexivity|]. split.
  - intros i. rewrite List.filter_In. split; intros [Hi Hr]; split; try exact Hr.
    + apply (Permutation_in _ (sort_identities_perm _)). exact Hi.
    + apply (Permutation_in _ (Permutation_sym (sort_identities_perm _))).
      exact Hi.
  - apply StronglySorted_filter_list, sort_identities_sorted.
Qed.

Lemma tick_enqueues_logs_with_receipt_witness :
  let p := Samples.upstream [Samples.log96; Samples.log95] Samples.receipt_ok in
  List.map event_identity (dispatched (scanForNewBlocks p None Samples.listener89).2)
  = [(address Samples.usdc, "Transfer", "0xtx1", 95, 0);
     (address Samples.usdc, "Transfer", "0xtx2", 96, 3)].
Proof.
  cbv zeta.
  rewrite (proj1 (tick_enqueues_logs_with_receipt
                    (Samples.upstream [Samples.log96; Samples.log95]
                                      Samples.receipt_ok)
                    Samples.listener89 90 100 eq_refl
                    ltac:(vm_compute; lia) eq_refl)).
  vm_compute. reflexivity.
Defined.

(** C1 as stated fails: upstream returns a log in the window but no receipt
    for its transaction, and the tick enqueues nothing. *)
Lemma missing_receipt_drops_the_log :
  ~ spec_enqueues_upstream_logs (Samples.upstream [Samples.log95] (Normal None))
      None Samples.listener89.
Proof.
  intros H. destruct (H 90 100 eq_refl) as [Hiff _].
  apply (proj2 (Hiff (address Samples.usdc, "Transfer", "0xtx1", 95, 0))).
  vm_compute. left. reflexivity.
Qed.

(** C2, as amended.  In a tick of a running listener over the window
    [a, b]:
    - if [stop()] does not come in between, the cursor is set to [b], and
      when it is set every log of the window that upstream returned together
      with a receipt has been enqueued; nothing is enqueued afterwards;
    - if [stop()] has come when the loop tests the flag for the [k]-th time,
      the events enqueued are those of the first [k] logs in order (those
      with a receipt), and none of the later ones; the loop leaves the flag
      cleared when logs remained. *)
Theorem cursor_set_after_range_is_enqueued (p : Provider) (sb : option nat)
    (st : state) (a b : Z) :
  _isRunning st = true -> (0 < batchSize st)%nat ->
  scan_window p st = Some (a, b) ->
  let st' := (scanForNewBlocks p sb st).1 in
  let fx := (scanForNewBlocks p sb st).2 in
  let logs := upstream_logs p (contractConfigs st) a b in
  (sb = None ->
     lastProcessedBlock st' = b
     /\ exists pre post,
          fx = pre ++ CursorSet b :: post
          /\ dispatched post = []
          /\ forall i, In i logs -> receipt_found p i = true ->
                       In i (List.map event_identity (dispatched pre)))
  /\ (forall k, sb = Some k ->
        List.map event_identity (dispatched fx)
        = List.filter (receipt_found p) (take k (sort_identities logs))
        /\ ((k < length (sort_identities logs))%nat -> _isRunning st' = false)).
Proof.
  intros Hrun Hb Hw. cbv zeta.
  pose proof (tick_dispatched p sb st a b Hrun Hb Hw) as H.
  destruct (scanForNewBlocks p sb st) as [st' fx]. cbn [fst snd].
  destruct H as (Hd & Hc & Hr & pre & post & Hfx & Hpost & Hpre).
  split.
  - intros ->. split; [exact Hc|]. exists pre, post.
    split; [exact Hfx|]. split; [exact Hpost|].
    intros i Hi Hrf. rewrite Hpre, Hd. cbn [reached].
    apply List.filter_In. split; [|exact Hrf].
    apply (Permutation_in _ (Permutation_sym (sort_identities_perm _))).
    exact Hi.
  - intros k ->. cbn [reached] in Hd. split; [exact Hd|].
    intros Hk. rewrite Hr. apply Nat.ltb_lt in Hk. rewrite Hk. reflexivity.
Qed.

Lemma cursor_set_after_range_is_enqueued_witness :
  let p := Samples.upstream [Samples.log95; Samples.log96] Samples.receipt_ok in
  List.map event_identity
    (dispatched (scanForNewBlocks p (Some 1%nat) Samples.listener89).2)
  = [(address Samples.usdc, "Transfer", "0xtx1", 95, 0)]
  /\ _isRunning (scanForNewBlocks p (Some 1%nat) Samples.listener89).1 = false.
Proof.
  cbv zeta.
  destruct (proj2 (cursor_set_after_range_is_enqueued
                     (Samples.upstream [Samples.log95; Samples.log96]
                                       Samples.receipt_ok)
                     (Some 1%nat) Samples.listener89 90 100 eq_refl
                     ltac:(vm_compute; lia) eq_refl) 1%nat eq_refl)
    as [Hd Hr].
  split; [rewrite Hd; vm_compute; reflexivity|].
  apply Hr. vm_compute. lia.
Defined.

(** C2 as stated fails: the log of block 95 has no receipt and is never
    enqueued, and the tick moves the cursor from 89 to 100. *)
Lemma cursor_passes_a_dropped_log :
  ~ spec_cursor_behind_enqueued (Samples.upstream [Samples.log95] (Normal None))
      None Samples.listener89.
Proof.
  intros H. specialize (H 90 100 eq_refl).
  destruct (scanForNewBlocks _ None Samples.listener89) as [st' fx] eqn:E.
  vm_compute in E. injection E as <- <-.
  apply (H (address Samples.usdc, "Transfer", "0xtx1", 95, 0)).
  - vm_compute. left. reflexivity.
  - vm_compute. discriminate.
Qed.

(** What [stop()] in the middle of a tick leaves behind: the loop ends at
    the next event, and the cursor is moved to the end of the window all the
    same, past the log of block 96 that was not enqueued. *)
Example stop_mid_tick_moves_the_cursor :
  let p := Samples.upstream [Samples.log95; Samples.log96] Samples.receipt_ok in
  let '(st', fx) := scanForNewBlocks p (Some 1%nat) Samples.listener89 in
  List.map event_identity (dispatched fx)
  = [(address Samples.usdc, "Transfer", "0xtx1", 95, 0)]
  /\ lastProcessedBlock st' = 100
  /\ ~ spec_cursor_behind_enqueued p (Some 1%nat) Samples.listener89.
Proof.
  vm_compute scanForNewBlocks. cbv zeta.
  split; [vm_compute; reflexivity|]. split; [reflexivity|].
  intros H. specialize (H 90 100 eq_refl).
  destruct (scanForNewBlocks _ (Some 1%nat) Samples.listener89) as [st' fx] eqn:E.
  vm_compute in E. injection E as <- <-.
  assert (Hin := H (address Samples.usdc, "Transfer", "0xtx2", 96, 3)
                   ltac:(vm_compute; tauto) ltac:(vm_compute; discriminate)).
  vm_compute in Hin. intuition discriminate.
Qed.

End ListenerFacts.

(* ===================================================================== *)
(** ** The Transfer handler *)
(* ===================================================================== *)

Section HandlerFacts.
Import Js Model Handler.

(** C9, as amended.  [canHandle ev] holds exactly when [ev.eventType] is
    ['contract_log'], [ev.contractAddress] is a non-empty string and the
    first entry of [ev.data.topics] is the Transfer topic hash; the copy of
    the handler that compares with the constant agrees. *)
Theorem canHandle_iff (ev : BlockchainEvent) :
  (canHandle ev = true
   <-> eventType ev = "contract_log"
       /\ contractAddress ev <> ""
       /\ exists rest, event_topics ev = TRANSFER_EVENT_SIGNATURE :: rest)
  /\ canHandle_constant ev = canHandle ev.
Proof.
  assert (Hsame : canHandle_constant ev = canHandle ev).
  { unfold canHandle_constant, canHandle, isTransferEvent_constant,
      isTransferEvent, transferSignature.
    f_equal. destruct (event_topics ev) as [|t0 rest]; [reflexivity|].
    destruct (String.eqb t0 TRANSFER_EVENT_SIGNATURE) eqn:E.
    - apply String.eqb_eq in E. subst t0. reflexivity.
    - apply String.eqb_neq in E.
      destruct (String.eqb t0 ""); [reflexivity|].
      symmetry. apply bool_decide_eq_false. congruence. }
  split; [|exact Hsame]. rewrite <- Hsame.
  unfold canHandle_constant, isTransferEvent_constant.
  rewrite !andb_true_iff, negb_true_iff, String.eqb_eq, String.eqb_neq.
  destruct (event_topics ev) as [|t0 rest].
  - split; [intros [_ H]; discriminate|intros (_ & _ & rest & H); discriminate].
  - rewrite String.eqb_eq. split.
    + intros [[H1 H2] ->]. eauto.
    + intros (H1 & H2 & rest' & H). injection H as -> _. auto.
Qed.

(** C9 as stated fails: a ['contract_log'] event whose first topic is the
    Transfer hash and whose [contractAddress] is the empty string is not
    handled. *)
Lemma canHandle_needs_an_address :
  spec_canHandle Samples.transfer_without_address = true
  /\ canHandle Samples.transfer_without_address = false
  /\ canHandle_constant Samples.transfer_without_address = false.
Proof. repeat split. Qed.

Example pull_listener_events_are_not_handled :
  canHandle (Samples.transfer_event 95 0 "0xtx1" []) = false.
Proof. reflexivity. Qed.

(** *** The event collection *)

Lemma find_has_key (k : string * option Z * Z) (docs : list EventDoc) :
  has_key k docs
  = match List.find (fun d => bool_decide (doc_key d = k)) docs with
    | Some _ => true
    | None => false
    end.
Proof.
  unfold has_key. induction docs as [|d docs IH]; [reflexivity|].
  cbn. destruct (bool_decide (doc_key d = k)); [reflexivity|exact IH].
Qed.

Lemma has_key_app (k : string * option Z * Z) (l1 l2 : list EventDoc) :
  has_key k (l1 ++ l2) = has_key k l1 || has_key k l2.
Proof. unfold has_key. apply existsb_app. Qed.

Lemma has_key_In (k : string * option Z * Z) (docs : list EventDoc) :
  has_key k docs = true <-> In k (List.map doc_key docs).
Proof.
  unfold has_key. rewrite existsb_exists, in_map_iff.
  split; intros (d & H1 & H2); exists d.
  - apply bool_decide_eq_true in H2. tauto.
  - split; [tauto|]. apply bool_decide_eq_true. tauto.
Qed.

Lemma insert_doc_unique (d : EventDoc) (docs docs' : list EventDoc) :
  unique_index docs -> insert_doc d docs = Normal docs' -> unique_index docs'.
Proof.
  unfold insert_doc, unique_index. intros Hu.
  destruct (has_key (doc_key d) docs) eqn:E; [discriminate|].
  intros [= <-]. rewrite List.map_app. cbn.
  apply NoDup_app. split; [exact Hu|]. split.
  - intros k Hk Hd. apply list_elem_of_In in Hk, Hd.
    destruct Hd as [<-|[]]. apply has_key_In in Hk. congruence.
  - apply NoDup_singleton.
Qed.

Lemma racing_insert_unique (d : EventDoc) (w : World) :
  unique_index (blockchainEvents w) ->
  unique_index (blockchainEvents (racing_insert d w)).
Proof.
  intros Hu. unfold racing_insert.
  destruct (insert_doc d (blockchainEvents w)) eqn:E; [|exact Hu].
  cbn. eapply insert_doc_unique; eassumption.
Qed.

Lemma log_run (l : log_entry) (w : World) :
  exists w', log l w = (w', Normal tt)
             /\ blockchainEvents w' = blockchainEvents w
             /\ contractData w' = contractData w
             /\ logger w' = logger w ++ [l].
Proof. eexists. repeat split. Qed.

(** What a request leaves of the world before the operation runs. *)
Lemma request_cases {A} (op : M A) (w : World) :
  exists w0,
    contractData w0 = contractData w
    /\ contractConfigs w0 = contractConfigs w
    /\ logger w0 = logger w
    /\ (unique_index (blockchainEvents w) -> unique_index (blockchainEvents w0))
    /\ (no_racing_insert (schedule w) ->
          blockchainEvents w0 = blockchainEvents w
          /\ no_racing_insert (schedule w0))
    /\ (request op w = op w0 \/ exists e, request op w = (w0, Throw e)).
Proof.
  unfold request. destruct (schedule w) as [|[|e|d] s] eqn:Es.
  - exists w. repeat split; auto. rewrite Es. constructor.
  - exists (with_schedule s w). repeat split; auto.
    inversion H; assumption.
  - exists (with_schedule s w). repeat split; eauto.
    inversion H; assumption.
  - exists (racing_insert d (with_schedule s w)).
    unfold racing_insert.
    destruct (insert_doc d (blockchainEvents (with_schedule s w))) eqn:E;
      repeat split; auto; try (inversion H; contradiction).
    intros Hu. eapply insert_doc_unique; eassumption.
Qed.

Lemma request_nil {A} (op : M A) (w : World) :
  schedule w = [] -> request op w = op w.
Proof. unfold request. intros ->. reflexivity. Qed.

Lemma request_quiet {A} (op : M A) (w : World) (s : list disturbance) :
  schedule w = Quiet :: s -> request op w = op (with_schedule s w).
Proof. unfold request. intros ->. reflexivity. Qed.

Lemma request_fails {A} (op : M A) (w : World) (e : error) (s : list disturbance) :
  schedule w = Fails e :: s -> request op w = (with_schedule s w, Throw e).
Proof. unfold request. intros ->. reflexivity. Qed.

Lemma request_racing {A} (op : M A) (w : World) (d : EventDoc)
    (s : list disturbance) :
  schedule w = RacingInsert d :: s ->
  request op w = op (racing_insert d (with_schedule s w)).
Proof. unfold request. intros ->. reflexivity. Qed.

Lemma bind_run {A B} (m : M A) (k : A -> M B) (w : World) :
  (m ≫= k) w
  = match m w with
    | (w', Normal a) => k a w'
    | (w', Throw e) => (w', Throw e)
    end.
Proof. reflexivity. Qed.

Lemma doc_key_enhancedEvent (ev : BlockchainEvent) (td : ERC20TransferData) :
  doc_key (enhancedEvent ev td) = event_key ev.
Proof. reflexivity. Qed.

(** [saveEvent] under any schedule: it returns, it touches nothing but the
    event collection and the log, it keeps the unique index, and when the
    key is already stored and no other writer interferes it leaves the
    collection as it is. *)
Lemma saveEvent_cases (ev : BlockchainEvent) (td : ERC20TransferData) (w : World) :
  exists w',
    saveEvent ev td w = (w', Normal tt)
    /\ contractData w' = contractData w
    /\ contractConfigs w' = contractConfigs w
    /\ (unique_index (blockchainEvents w) -> unique_index (blockchainEvents w'))
    /\ (no_racing_insert (schedule w) ->
          has_key (event_key ev) (blockchainEvents w) = true ->
          blockchainEvents w' = blockchainEvents w).
Proof.
  unfold saveEvent, try_catch_M. rewrite bind_run. unfold events_findOne.
  match goal with |- context [request ?op w] =>
    destruct (request_cases op w)
      as (w0 & Hcd & Hcfg & Hlog & Hu & Hnr & [Hrun|[e Hrun]]); rewrite Hrun
  end; cbv beta iota.
  - pose proof (find_has_key (event_key ev) (blockchainEvents w0)) as Hfind.
    destruct (List.find _ (blockchainEvents w0)) as [existing|].
    + eexists. split; [reflexivity|]. cbn. repeat split; auto.
      intros Hs _. apply Hnr. exact Hs.
    + rewrite bind_run. unfold events_save.
      match goal with |- context [request ?op w0] =>
        destruct (request_cases op w0)
          as (w1 & Hcd1 & Hcfg1 & Hlog1 & Hu1 & Hnr1 & [Hrun1|[e Hrun1]]);
          rewrite Hrun1
      end; cbv beta iota.
      * destruct (insert_doc (enhancedEvent ev td) (blockchainEvents w1))
          as [docs|e] eqn:Ei; cbv beta iota.
        -- eexists. split; [reflexivity|]. cbn. repeat split; try congruence.
           ++ intros Hq. eapply insert_doc_unique; [|exact Ei]. auto.
           ++ intros Hs Hk. destruct (Hnr Hs) as [He _]. congruence.
        -- destruct (is_duplicate_key e); eexists; (split; [reflexivity|]);
             cbn; repeat split; try congruence; auto;
             intros Hs Hk; destruct (Hnr Hs) as [He _]; congruence.
      * destruct (is_duplicate_key e); eexists; (split; [reflexivity|]);
          cbn; repeat split; try congruence; auto;
          intros Hs Hk; destruct (Hnr Hs) as [He _]; congruence.
  - destruct (is_duplicate_key e); eexists; (split; [reflexivity|]);
      cbn; repeat split; auto; intros Hs _; apply Hnr; exact Hs.
Qed.

(** C3.  Persisting a Transfer event is idempotent.  For every event,
    every enrichment and every world, under every schedule of
    disturbances:
    - [saveEvent] returns normally and keeps the unique index on
      [(transactionHash, logIndex, chainId)];
    - if a document with the key of the event is stored, the lookup finds
      it and nothing is inserted;
    - if the key is free at the lookup but the insert meets a document with
      that key (another writer was faster), or fails with code 11000, the
      failure is noted at debug level only and nothing of the handler is
      stored;
    - any other failure of the lookup or of the insert is logged as an
      error and the collection is left as it is;
    - after an undisturbed persist the key is stored, and a second persist
      of the same event leaves the collection unchanged. *)
Theorem saveEvent_is_idempotent (ev : BlockchainEvent) (td td' : ERC20TransferData)
    (w : World) :
  let w1 := (saveEvent ev td w).1 in
  (saveEvent ev td w).2 = Normal tt
  /\ (unique_index (blockchainEvents w) -> unique_index (blockchainEvents w1))
  /\ (no_racing_insert (schedule w) ->
      has_key (event_key ev) (blockchainEvents w) = true ->
      blockchainEvents w1 = blockchainEvents w)
  /\ (forall s,
        (schedule w = [] \/ schedule w = Quiet :: s) ->
        has_key (event_key ev) (blockchainEvents w) = true ->
        logger w1 = logger w
                    ++ [DebugEventExists (transactionHash ev) (event_logIndex ev)])
  /\ (forall d s,
        schedule w = Quiet :: RacingInsert d :: s ->
        has_key (event_key ev) (blockchainEvents w) = false ->
        doc_key d = event_key ev ->
        blockchainEvents w1 = blockchainEvents w ++ [d]
        /\ logger w1 = logger w
                       ++ [DebugDuplicate (transactionHash ev) (event_logIndex ev)])
  /\ (forall e s,
        schedule w = Quiet :: Fails e :: s ->
        has_key (event_key ev) (blockchainEvents w) = false ->
        blockchainEvents w1 = blockchainEvents w
        /\ logger w1 = logger w
             ++ [if is_duplicate_key e
                 then DebugDuplicate (transactionHash ev) (event_logIndex ev)
                 else ErrorSaving e])
  /\ (forall e s,
        schedule w = Fails e :: s ->
        blockchainEvents w1 = blockchainEvents w
        /\ logger w1 = logger w
             ++ [if is_duplicate_key e
                 then DebugDuplicate (transactionHash ev) (event_logIndex ev)
                 else ErrorSaving e])
  /\ (schedule w = [] ->
      has_key (event_key ev) (blockchainEvents w1) = true
      /\ blockchainEvents (saveEvent ev td' w1).1 = blockchainEvents w1).
Proof.
  cbv zeta.
  destruct (saveEvent_cases ev td w) as (w1 & Hrun & _ & _ & Hu & Hskip).
  rewrite Hrun. cbn [fst snd].
  split; [reflexivity|]. split; [exact Hu|]. split; [exact Hskip|].
  assert (Hw1 : w1 = (saveEvent ev td w).1) by (rewrite Hrun; reflexivity).
  clear Hrun Hu Hskip. subst w1.
  split.
  { intros s Hs Hk. rewrite find_has_key in Hk.
    unfold saveEvent, try_catch_M. rewrite bind_run. unfold events_findOne.
    destruct Hs as [Hs|Hs];
      [rewrite (request_nil _ w Hs)|rewrite (request_quiet _ w s Hs)];
      cbv beta iota; cbn [blockchainEvents with_schedule];
      destruct (List.find _ (blockchainEvents w)); try discriminate;
      reflexivity. }
  split.
  { intros d s Hs Hk Hd. pose proof Hk as Hk'. rewrite find_has_key in Hk.
    unfold saveEvent, try_catch_M. rewrite bind_run. unfold events_findOne.
    rewrite (request_quiet _ w _ Hs). cbv beta iota.
    cbn [blockchainEvents with_schedule].
    destruct (List.find _ (blockchainEvents w)); [discriminate|].
    rewrite bind_run. unfold events_save.
    rewrite (request_racing _ (with_schedule (RacingInsert d :: s) w) d s eq_refl). cbv beta iota.
    set (wr := racing_insert d (with_schedule s (with_schedule (RacingInsert d :: s) w))).
    assert (Hwr : blockchainEvents wr = blockchainEvents w ++ [d]
                  /\ logger wr = logger w).
    { subst wr. unfold racing_insert, insert_doc.
      cbn [blockchainEvents with_schedule]. rewrite Hd, Hk'. split; reflexivity. }
    destruct Hwr as [Hwr1 Hwr2].
    assert (Hdup : insert_doc (enhancedEvent ev td) (blockchainEvents wr)
                   = Throw (DbError 11000)).
    { unfold insert_doc. rewrite doc_key_enhancedEvent, Hwr1, has_key_app.
      unfold has_key at 2. cbn [existsb].
      rewrite Hd, bool_decide_eq_true_2 by reflexivity.
      rewrite orb_true_r. reflexivity. }
    rewrite Hdup. cbv beta iota. cbn [is_duplicate_key].
    change (11000 =? 11000) with true. cbv iota.
    cbn [log fst blockchainEvents logger]. rewrite Hwr1, Hwr2.
    split; reflexivity. }
  split.
  { intros e s Hs Hk. rewrite find_has_key in Hk.
    unfold saveEvent, try_catch_M. rewrite bind_run. unfold events_findOne.
    rewrite (request_quiet _ w _ Hs). cbv beta iota.
    cbn [blockchainEvents with_schedule].
    destruct (List.find _ (blockchainEvents w)); [discriminate|].
    rewrite bind_run. unfold events_save.
    rewrite (request_fails _ (with_schedule (Fails e :: s) w) e s eq_refl). cbv beta iota.
    destruct (is_duplicate_key e); split; reflexivity. }
  split.
  { intros e s Hs.
    unfold saveEvent, try_catch_M. rewrite bind_run. unfold events_findOne.
    rewrite (request_fails _ w e s Hs). cbv beta iota.
    destruct (is_duplicate_key e); split; reflexivity. }
  intros Hs.
  assert (Hstored :
    exists w1, saveEvent ev td w = (w1, Normal tt) /\ schedule w1 = []
               /\ has_key (event_key ev) (blockchainEvents w1) = true).
  { unfold saveEvent, try_catch_M. rewrite bind_run. unfold events_findOne.
    rewrite (request_nil _ w Hs). cbv beta iota.
    pose proof (find_has_key (event_key ev) (blockchainEvents w)) as Hk.
    destruct (List.find _ (blockchainEvents w)).
    - eexists. split; [reflexivity|]. split; [exact Hs|exact Hk].
    - rewrite bind_run. unfold events_save.
      rewrite (request_nil _ w Hs). cbv beta iota.
      unfold insert_doc. rewrite doc_key_enhancedEvent, Hk. cbv beta iota.
      eexists. split; [reflexivity|]. split; [exact Hs|].
      cbn [blockchainEvents with_events log]. rewrite has_key_app.
      unfold has_key at 2. cbn.
      rewrite doc_key_enhancedEvent, bool_decide_eq_true_2 by reflexivity.
      rewrite orb_true_r. reflexivity. }
  destruct Hstored as (w1 & Hrun & Hs1 & Hk1). rewrite Hrun. cbn [fst].
  split; [exact Hk1|].
  unfold saveEvent, try_catch_M. rewrite bind_run. unfold events_findOne.
  rewrite (request_nil _ w1 Hs1). cbv beta iota.
  rewrite find_has_key in Hk1.
  destruct (List.find _ (blockchainEvents w1)); [reflexivity|discriminate].
Qed.

(** *** Block tracking *)

Lemma block_le_refl (x : option Z) : block_le x x.
Proof. destruct x; cbn; [lia|exact I]. Qed.

Lemma block_le_trans (x y z : option Z) :
  block_le x y -> block_le y z -> block_le x z.
Proof. destruct x, y, z; cbn; try tauto; lia. Qed.

Lemma blocks_monotone_refl (w : World) : blocks_monotone w w.
Proof. intros k. apply block_le_refl. Qed.

Lemma blocks_monotone_trans (w1 w2 w3 : World) :
  blocks_monotone w1 w2 -> blocks_monotone w2 w3 -> blocks_monotone w1 w3.
Proof. intros H1 H2 k. eapply block_le_trans; [apply H1|apply H2]. Qed.

Lemma blocks_monotone_same (w w' : World) :
  contractData w' = contractData w -> blocks_monotone w w'.
Proof.
  intros H k. unfold lastProcessedBlock_of. rewrite H. apply block_le_refl.
Qed.

Lemma blocks_monotone_eq (w w' : World) :
  (forall k, lastProcessedBlock_of w' k = lastProcessedBlock_of w k) ->
  blocks_monotone w w'.
Proof. intros H k. rewrite H. apply block_le_refl. Qed.

Lemma findByAddress_cases (a : string) (c : Z) (w : World) :
  exists w',
    contractData w' = contractData w
    /\ (findByAddress a c w = (w', Normal (contractData w !! (a, c)))
        \/ exists e, findByAddress a c w = (w', Throw e)).
Proof.
  unfold findByAddress.
  match goal with |- context [request ?op w] =>
    destruct (request_cases op w) as (w0 & Hcd & _ & _ & _ & _ & [Hrun|[e Hrun]])
  end; exists w0; (split; [exact Hcd|]); rewrite Hrun.
  - left. rewrite Hcd. reflexivity.
  - right. eauto.
Qed.

(** An update of one record through [set]. *)
Lemma findOneAndUpdate_cases (a : string) (c : Z)
    (set : ContractData -> ContractData) (w : World) :
  exists w' r,
    findOneAndUpdate a c set w = (w', r)
    /\ (contractData w' = contractData w
        \/ exists rec, contractData w !! (a, c) = Some rec
                       /\ contractData w' = <[(a, c) := set rec]> (contractData w)).
Proof.
  unfold findOneAndUpdate.
  match goal with |- context [request ?op w] =>
    destruct (request_cases op w) as (w0 & Hcd & _ & _ & _ & _ & [Hrun|[e Hrun]])
  end; rewrite Hrun; cbv beta.
  - rewrite Hcd. destruct (contractData w !! (a, c)) as [rec|] eqn:E.
    + eexists _, _. split; [reflexivity|]. right. exists rec.
      split; [reflexivity|]. reflexivity.
    + eexists _, _. split; [reflexivity|]. left. exact Hcd.
  - eexists _, _. split; [reflexivity|]. left. exact Hcd.
Qed.

Lemma updateContract_cases (a : string) (c : Z) (u : ContractUpdate) (w : World) :
  exists w' r,
    updateContract a c u w = (w', r)
    /\ (contractData w' = contractData w
        \/ exists rec, contractData w !! (a, c) = Some rec
                       /\ contractData w'
                          = <[(a, c) := apply_update u rec]> (contractData w)).
Proof.
  unfold updateContract.
  match goal with |- context [request ?op w] =>
    destruct (request_cases op w) as (w0 & Hcd & _ & _ & _ & _ & [Hrun|[e Hrun]])
  end; rewrite Hrun; cbv beta.
  - rewrite Hcd. destruct (contractData w !! (a, c)) as [rec|] eqn:E.
    + eexists _, _. split; [reflexivity|]. right. exists rec.
      split; [reflexivity|]. reflexivity.
    + eexists _, _. split; [reflexivity|]. left. exact Hcd.
  - eexists _, _. split; [reflexivity|]. left. exact Hcd.
Qed.

Lemma lastProcessedBlock_of_insert (w w' : World) (k0 : string * Z)
    (rec : ContractData) :
  contractData w' = <[k0 := rec]> (contractData w) ->
  forall k, lastProcessedBlock_of w' k
            = if decide (k0 = k) then lastProcessedBlock rec
              else lastProcessedBlock_of w k.
Proof.
  intros H k. unfold lastProcessedBlock_of. rewrite H, lookup_insert.
  destruct (decide (k0 = k)); reflexivity.
Qed.

(** An update that does not lower [lastProcessedBlock] of the record. *)
Lemma blocks_monotone_insert (w w' : World) (k0 : string * Z)
    (old rec : ContractData) :
  contractData w !! k0 = Some old ->
  contractData w' = <[k0 := rec]> (contractData w) ->
  block_le (lastProcessedBlock old) (lastProcessedBlock rec) ->
  blocks_monotone w w'.
Proof.
  intros Hold H Hle k. rewrite (lastProcessedBlock_of_insert w w' k0 rec H).
  destruct (decide (k0 = k)) as [<-|]; [|apply block_le_refl].
  unfold lastProcessedBlock_of. rewrite Hold. exact Hle.
Qed.

Lemma saveERC20Data_cases (a : string) (c : Z) (tokenData : TokenData) (w : World) :
  exists w' r,
    saveERC20Data a c tokenData w = (w', r)
    /\ (forall k, lastProcessedBlock_of w' k = lastProcessedBlock_of w k)
    /\ (forall k, k <> (a, c) -> contractData w' !! k = contractData w !! k).
Proof.
  unfold saveERC20Data.
  match goal with |- context [request ?op w] =>
    destruct (request_cases op w) as (w0 & Hcd & _ & _ & _ & _ & [Hrun|[e Hrun]])
  end; rewrite Hrun; cbv beta.
  - eexists _, _. split; [reflexivity|]. cbn [fst contractData with_contractData].
    split.
    + intros k. unfold lastProcessedBlock_of. cbn. rewrite Hcd, lookup_insert.
      destruct (decide ((a, c) = k)) as [<-|]; reflexivity.
    + intros k Hk. cbn. rewrite Hcd, lookup_insert_ne by congruence.
      reflexivity.
  - eexists _, _. split; [reflexivity|].
    unfold lastProcessedBlock_of. rewrite Hcd. split; reflexivity.
Qed.

Lemma updateLastProcessedBlock_monotone (a : string) (c : Z) (blockNumber : Z)
    (w : World) :
  0 <= blockNumber ->
  blocks_monotone w (updateLastProcessedBlock a c blockNumber w).1.
Proof.
  intros Hb. unfold updateLastProcessedBlock. rewrite bind_run.
  destruct (findByAddress_cases a c w) as (w1 & Hcd & [Hrun|[e Hrun]]);
    rewrite Hrun; [|apply blocks_monotone_same; exact Hcd].
  destruct (contractData w !! (a, c)) as [rec|] eqn:Erec;
    [|apply blocks_monotone_same; exact Hcd].
  destruct (falsy (lastProcessedBlock rec)
            || bool_decide (default 0 (lastProcessedBlock rec) < blockNumber))
    eqn:Eg; [|apply blocks_monotone_same; exact Hcd].
  destruct (findOneAndUpdate_cases a c (set_lastProcessedBlock blockNumber) w1)
    as (w2 & r & Hrun2 & [Hsame|(rec' & Hrec' & Hins)]); rewrite Hrun2; cbn [fst].
  - apply blocks_monotone_same. congruence.
  - rewrite Hcd in Hrec', Hins. rewrite Erec in Hrec'. injection Hrec' as <-.
    eapply blocks_monotone_insert; [exact Erec|exact Hins|].
    cbn. apply orb_true_iff in Eg. unfold falsy in Eg.
    destruct (lastProcessedBlock rec) as [cur|]; cbn; [|exact I].
    destruct Eg as [Eg|Eg].
    + apply Z.eqb_eq in Eg. lia.
    + apply bool_decide_eq_true in Eg. cbn in Eg. lia.
Qed.

Lemma setFirstSeenBlock_monotone (a : string) (c : Z) (blockNumber : Z) (w : World) :
  blocks_monotone w (setFirstSeenBlock a c blockNumber w).1.
Proof.
  unfold setFirstSeenBlock. rewrite bind_run.
  destruct (findByAddress_cases a c w) as (w1 & Hcd & [Hrun|[e Hrun]]);
    rewrite Hrun; [|apply blocks_monotone_same; exact Hcd].
  destruct (contractData w !! (a, c)) as [rec|] eqn:Erec;
    [|apply blocks_monotone_same; exact Hcd].
  destruct (falsy (firstSeenBlock rec)
            || bool_decide (blockNumber < default 0 (firstSeenBlock rec)));
    [|apply blocks_monotone_same; exact Hcd].
  destruct (findOneAndUpdate_cases a c (set_firstSeenBlock blockNumber) w1)
    as (w2 & r & Hrun2 & [Hsame|(rec' & Hrec' & Hins)]); rewrite Hrun2; cbn [fst].
  - apply blocks_monotone_same. congruence.
  - rewrite Hcd in Hrec', Hins.
    eapply blocks_monotone_insert; [exact Hrec'|exact Hins|].
    cbn. apply block_le_refl.
Qed.

Lemma updateContract_monotone (a : string) (c : Z) (u : ContractUpdate) (w : World) :
  (forall b, upd_lastProcessedBlock u = Some b ->
             block_le (lastProcessedBlock_of w (a, c)) (Some b)) ->
  blocks_monotone w (updateContract a c u w).1.
Proof.
  intros Hu.
  destruct (updateContract_cases a c u w)
    as (w2 & r & Hrun2 & [Hsame|(rec & Hrec & Hins)]); rewrite Hrun2; cbn [fst].
  - apply blocks_monotone_same. exact Hsame.
  - eapply blocks_monotone_insert; [exact Hrec|exact Hins|].
    cbn. destruct (upd_lastProcessedBlock u) as [b|] eqn:E;
      [|apply block_le_refl].
    specialize (Hu b eq_refl). unfold lastProcessedBlock_of in Hu.
    rewrite Hrec in Hu. exact Hu.
Qed.

Lemma keeps_bind {A B} (m : M A) (k : A -> M B) :
  keeps_blocks_monotone m -> (forall a, keeps_blocks_monotone (k a)) ->
  keeps_blocks_monotone (m ≫= k).
Proof.
  intros Hm Hk w. rewrite bind_run. specialize (Hm w).
  destruct (m w) as [w' [a|e]]; cbn [fst] in *; [|exact Hm].
  eapply blocks_monotone_trans; [exact Hm|apply Hk].
Qed.

Lemma keeps_try_catch {A} (body : M A) (handler : error -> M A) :
  keeps_blocks_monotone body -> (forall e, keeps_blocks_monotone (handler e)) ->
  keeps_blocks_monotone (try_catch_M body handler).
Proof.
  intros Hb Hh w. unfold try_catch_M. specialize (Hb w).
  destruct (body w) as [w' [a|e]]; cbn [fst] in *; [exact Hb|].
  eapply blocks_monotone_trans; [exact Hb|apply Hh].
Qed.

Lemma keeps_log (l : log_entry) : keeps_blocks_monotone (log l).
Proof. intros w. apply blocks_monotone_same. reflexivity. Qed.

Lemma keeps_mret {A} (a : A) : keeps_blocks_monotone (mret a : M A).
Proof. intros w. apply blocks_monotone_refl. Qed.

Lemma keeps_throw {A} (e : error) : keeps_blocks_monotone (throw e : M A).
Proof. intros w. apply blocks_monotone_refl. Qed.

Lemma keeps_lift {A} (c : completion A) : keeps_blocks_monotone (lift c).
Proof. intros w. apply blocks_monotone_refl. Qed.

Lemma keeps_if {A} (b : bool) (m1 m2 : M A) :
  keeps_blocks_monotone m1 -> keeps_blocks_monotone m2 ->
  keeps_blocks_monotone (if b then m1 else m2).
Proof. destruct b; auto. Qed.

Create HintDb keeps.
#[local] Hint Resolve keeps_log keeps_mret keeps_throw keeps_lift : keeps.

Lemma try_catch_bind_run {A B} (m : M A) (k : A -> M B) (h : error -> M B)
    (w : World) :
  try_catch_M (m ≫= k) h w
  = match m w with
    | (w', Normal a) => try_catch_M (k a) h w'
    | (w', Throw e) => h e w'
    end.
Proof.
  unfold try_catch_M. rewrite bind_run. destruct (m w) as [w' [a|e]]; reflexivity.
Qed.

Lemma updateContractMetadata_monotone (ev : BlockchainEvent)
    (td : ERC20TransferData) :
  0 <= blockNumber ev -> keeps_blocks_monotone (updateContractMetadata ev td).
Proof.
  intros Hb w. unfold updateContractMetadata. cbv zeta.
  rewrite try_catch_bind_run.
  destruct (findByAddress_cases (contractAddress ev) (chainId ev) w)
    as (w1 & Hcd & [Hrun|[e Hrun]]); rewrite Hrun;
    [|apply blocks_monotone_same; exact Hcd].
  apply (blocks_monotone_trans w w1); [apply blocks_monotone_same; exact Hcd|].
  destruct (contractData w !! (contractAddress ev, chainId ev)) as [rec|] eqn:Erec.
  - cbv beta iota.
    match goal with |- blocks_monotone w1 (try_catch_M ?body ?h w1).1 =>
      assert (keeps_blocks_monotone (try_catch_M body h)) as Hk; [|apply Hk]
    end.
    apply keeps_try_catch; [|auto with keeps].
    apply keeps_bind; [|auto with keeps].
    apply keeps_bind.
    { intros w0. apply updateLastProcessedBlock_monotone. exact Hb. }
    intros _. apply keeps_bind.
    { apply keeps_if; [|auto with keeps].
      apply keeps_bind; [|auto with keeps].
      intros w0. apply setFirstSeenBlock_monotone. }
    intros _. apply keeps_bind; [|auto with keeps].
    intros w0. apply updateContract_monotone. cbn. discriminate.
  - rewrite try_catch_bind_run, bind_run.
    assert (Hnone : lastProcessedBlock_of w1 (contractAddress ev, chainId ev) = None).
    { unfold lastProcessedBlock_of. rewrite Hcd, Erec. reflexivity. }
    match goal with |- context [saveERC20Data ?a ?c ?t w1] =>
      destruct (saveERC20Data_cases a c t w1) as (w2 & r & Hrun2 & Hlpb & _)
    end.
    rewrite Hrun2.
    apply (blocks_monotone_trans w1 w2); [apply blocks_monotone_eq; exact Hlpb|].
    destruct r as [created|e]; [|apply blocks_monotone_same; reflexivity].
    rewrite bind_run.
    match goal with |- context [updateContract ?a ?c ?u w2] =>
      pose proof (updateContract_monotone a c u w2) as Hup;
      destruct (updateContract a c u w2) as [w3 [r3|e3]]
    end; cbn [fst] in *;
      (eapply blocks_monotone_trans;
        [apply Hup; intros b _; rewrite Hlpb, Hnone; exact I
        |apply blocks_monotone_same; reflexivity]).
Qed.

Lemma keeps_config_findByAddress (a : string) (c : Z) :
  keeps_blocks_monotone (config_findByAddress a c).
Proof.
  intros w. unfold config_findByAddress.
  match goal with |- context [request ?op w] =>
    destruct (request_cases op w) as (w0 & Hcd & _ & _ & _ & _ & [Hrun|[e Hrun]])
  end; rewrite Hrun; apply blocks_monotone_same; exact Hcd.
Qed.

Lemma keeps_extractTransferData (ev : BlockchainEvent) (config : ContractConfig) :
  keeps_blocks_monotone (extractTransferData ev config).
Proof.
  unfold extractTransferData.
  apply keeps_try_catch; [|intros e; apply keeps_bind; auto with keeps].
  destruct (transfer_fields ev) as [[[from to] value]|];
    [|apply keeps_bind; auto with keeps].
  apply keeps_bind; [auto with keeps|]. intros vf.
  apply keeps_bind; auto with keeps.
Qed.

Lemma keeps_processERC20Transfer (ev : BlockchainEvent) (td : ERC20TransferData) :
  0 <= blockNumber ev -> keeps_blocks_monotone (processERC20Transfer ev td).
Proof.
  intros Hb. unfold processERC20Transfer. cbv zeta.
  apply keeps_bind; [repeat apply keeps_if; auto with keeps|]. intros _.
  apply keeps_bind; [repeat apply keeps_if; auto with keeps|]. intros _.
  apply updateContractMetadata_monotone. exact Hb.
Qed.

Lemma keeps_saveEvent (ev : BlockchainEvent) (td : ERC20TransferData) :
  keeps_blocks_monotone (saveEvent ev td).
Proof.
  intros w. destruct (saveEvent_cases ev td w) as (w' & Hrun & Hcd & _).
  rewrite Hrun. apply blocks_monotone_same. exact Hcd.
Qed.

Lemma keeps_handle (ev : BlockchainEvent) :
  0 <= blockNumber ev -> keeps_blocks_monotone (handle ev).
Proof.
  intros Hb. unfold handle.
  apply keeps_try_catch; [|intros e; apply keeps_bind; auto with keeps].
  apply keeps_bind; [apply keeps_config_findByAddress|].
  intros [config|]; [|auto with keeps].
  apply keeps_bind; [apply keeps_extractTransferData|].
  intros [td|]; [|auto with keeps].
  apply keeps_bind; [apply keeps_processERC20Transfer; exact Hb|].
  intros _. apply keeps_saveEvent.
Qed.

Lemma handle_all_monotone (evs : list BlockchainEvent) : forall w,
  Forall (fun ev => 0 <= blockNumber ev) evs ->
  blocks_monotone w (handle_all evs w).
Proof.
  induction evs as [|ev evs IH]; intros w Hevs; [apply blocks_monotone_refl|].
  inversion Hevs as [|? ? Hb Hrest]; subst. cbn.
  eapply blocks_monotone_trans; [apply (keeps_handle ev Hb w)|].
  apply IH. exact Hrest.
Qed.

(** *** An existing record, undisturbed *)

Lemma findByAddress_quiet (a : string) (c : Z) (w : World) :
  schedule w = [] -> findByAddress a c w = (w, Normal (contractData w !! (a, c))).
Proof. intros Hs. unfold findByAddress. rewrite request_nil by exact Hs. reflexivity. Qed.

Lemma findOneAndUpdate_quiet (a : string) (c : Z)
    (set : ContractData -> ContractData) (w : World) (rec : ContractData) :
  schedule w = [] -> contractData w !! (a, c) = Some rec ->
  findOneAndUpdate a c set w
  = (with_contractData (<[(a, c) := set rec]> (contractData w)) w,
     Normal (Some (set rec))).
Proof.
  intros Hs Hrec. unfold findOneAndUpdate. rewrite request_nil by exact Hs.
  rewrite Hrec. reflexivity.
Qed.

Lemma updateContract_quiet (a : string) (c : Z) (u : ContractUpdate) (w : World)
    (rec : ContractData) :
  schedule w = [] -> contractData w !! (a, c) = Some rec ->
  updateContract a c u w
  = (with_contractData (<[(a, c) := apply_update u rec]> (contractData w)) w,
     Normal (Some (apply_update u rec))).
Proof.
  intros Hs Hrec. unfold updateContract. rewrite request_nil by exact Hs.
  rewrite Hrec. reflexivity.
Qed.

Lemma updateLastProcessedBlock_quiet (a : string) (c : Z) (blockNumber : Z)
    (w : World) (rec : ContractData) :
  0 <= blockNumber -> schedule w = [] -> contractData w !! (a, c) = Some rec ->
  exists w' r rec',
    updateLastProcessedBlock a c blockNumber w = (w', Normal r)
    /\ schedule w' = []
    /\ contractData w' !! (a, c) = Some rec'
    /\ lastProcessedBlock rec' = raised (lastProcessedBlock rec) blockNumber.
Proof.
  intros Hb Hs Hrec. unfold updateLastProcessedBlock.
  rewrite bind_run, findByAddress_quiet, Hrec by exact Hs.
  destruct (falsy (lastProcessedBlock rec)
            || bool_decide (default 0 (lastProcessedBlock rec) < blockNumber))
    eqn:Eg.
  - rewrite (findOneAndUpdate_quiet a c _ w rec Hs Hrec).
    eexists _, _, _. split; [reflexivity|]. split; [exact Hs|].
    cbn [contractData with_contractData]. rewrite lookup_insert_eq.
    split; [reflexivity|]. cbn. unfold raised.
    apply orb_true_iff in Eg. unfold falsy in Eg.
    destruct (lastProcessedBlock rec) as [cur|]; [|reflexivity].
    f_equal. destruct Eg as [Eg|Eg].
    + apply Z.eqb_eq in Eg. lia.
    + apply bool_decide_eq_true in Eg. cbn in Eg. lia.
  - eexists _, _, _. split; [reflexivity|]. split; [exact Hs|].
    split; [exact Hrec|]. unfold raised.
    apply orb_false_iff in Eg. destruct Eg as [Ef Eg]. unfold falsy in Ef.
    destruct (lastProcessedBlock rec) as [cur|]; [|discriminate].
    apply bool_decide_eq_false in Eg. cbn in Eg. f_equal. lia.
Qed.

Lemma setFirstSeenBlock_quiet (a : string) (c : Z) (blockNumber : Z)
    (w : World) (rec : ContractData) :
  schedule w = [] -> contractData w !! (a, c) = Some rec ->
  exists w' r rec',
    setFirstSeenBlock a c blockNumber w = (w', Normal r)
    /\ schedule w' = []
    /\ contractData w' !! (a, c) = Some rec'
    /\ lastProcessedBlock rec' = lastProcessedBlock rec.
Proof.
  intros Hs Hrec. unfold setFirstSeenBlock.
  rewrite bind_run, findByAddress_quiet, Hrec by exact Hs.
  destruct (falsy (firstSeenBlock rec)
            || bool_decide (blockNumber < default 0 (firstSeenBlock rec))).
  - rewrite (findOneAndUpdate_quiet a c _ w rec Hs Hrec).
    eexists _, _, _. split; [reflexivity|]. split; [exact Hs|].
    cbn [contractData with_contractData]. rewrite lookup_insert_eq.
    split; reflexivity.
  - eexists _, _, _. split; [reflexivity|]. split; [exact Hs|].
    split; [exact Hrec|reflexivity].
Qed.

Lemma updateContractMetadata_existing (ev : BlockchainEvent)
    (td : ERC20TransferData) (w : World) (rec : ContractData) :
  0 <= blockNumber ev -> schedule w = [] ->
  contractData w !! (contractAddress ev, chainId ev) = Some rec ->
  lastProcessedBlock_of (updateContractMetadata ev td w).1
    (contractAddress ev, chainId ev)
  = raised (lastProcessedBlock rec) (blockNumber ev).
Proof.
  intros Hb Hs Hrec. unfold updateContractMetadata. cbv zeta.
  rewrite try_catch_bind_run, findByAddress_quiet, Hrec by exact Hs.
  cbv beta iota. rewrite try_catch_bind_run, bind_run.
  destruct (updateLastProcessedBlock_quiet _ _ _ w rec Hb Hs Hrec)
    as (w1 & r1 & rec1 & Hrun1 & Hs1 & Hrec1 & Hl1).
  rewrite Hrun1. rewrite bind_run.
  assert (Hfirst : exists w2 rec2,
            (if falsy (firstSeenBlock rec)
             then _ ← setFirstSeenBlock (contractAddress ev) (chainId ev)
                        (blockNumber ev); mret tt
             else mret tt) w1 = (w2, Normal tt)
            /\ schedule w2 = []
            /\ contractData w2 !! (contractAddress ev, chainId ev) = Some rec2
            /\ lastProcessedBlock rec2 = lastProcessedBlock rec1).
  { destruct (falsy (firstSeenBlock rec)).
    - rewrite bind_run.
      destruct (setFirstSeenBlock_quiet _ _ (blockNumber ev) w1 rec1 Hs1 Hrec1)
        as (w2 & r2 & rec2 & Hrun2 & Hs2 & Hrec2 & Hl2).
      rewrite Hrun2. exists w2, rec2. repeat split; assumption.
    - exists w1, rec1. repeat split; assumption. }
  destruct Hfirst as (w2 & rec2 & Hrun2 & Hs2 & Hrec2 & Hl2).
  rewrite Hrun2. rewrite bind_run.
  rewrite (updateContract_quiet _ _ _ w2 rec2 Hs2 Hrec2).
  cbn. unfold lastProcessedBlock_of. cbn. rewrite lookup_insert_eq. cbn.
  congruence.
Qed.

(** C4.  [lastProcessedBlock] never decreases.  Let the handler handle any
    list of events with non-negative block numbers, one after the other,
    starting in any world and under any schedule of failures: for every
    key, a [lastProcessedBlock] that was set is still set afterwards and is
    not smaller.  On an existing record, when no request fails, handling
    [ev] leaves [max(current, ev.blockNumber)], or [ev.blockNumber] if none
    was set; so an event of a lower block leaves the value as it is. *)
Theorem lastProcessedBlock_never_decreases (evs : list BlockchainEvent)
    (w : World) :
  Forall (fun ev => 0 <= blockNumber ev) evs ->
  blocks_monotone w (handle_all evs w)
  /\ (forall ev td w0 rec,
        In ev evs -> schedule w0 = [] ->
        contractData w0 !! (contractAddress ev, chainId ev) = Some rec ->
        let after :=
          lastProcessedBlock_of (updateContractMetadata ev td w0).1
            (contractAddress ev, chainId ev) in
        after = raised (lastProcessedBlock rec) (blockNumber ev)
        /\ (forall cur, lastProcessedBlock rec = Some cur ->
                        blockNumber ev <= cur -> after = Some cur)).
Proof.
  intros Hevs. split; [apply handle_all_monotone; exact Hevs|].
  intros ev td w0 rec Hin Hs Hrec. cbv zeta.
  assert (Hb : 0 <= blockNumber ev).
  { rewrite List.Forall_forall in Hevs. apply Hevs. exact Hin. }
  rewrite (updateContractMetadata_existing ev td w0 rec Hb Hs Hrec).
  split; [reflexivity|]. intros cur -> Hle. cbn. f_equal. lia.
Qed.

Lemma lastProcessedBlock_never_decreases_witness :
  let key := (address Samples.usdc, 1) in
  let w1 := handle_all [Samples.ev2] Samples.world0 in
  lastProcessedBlock_of w1 key = Some 96
  /\ lastProcessedBlock_of (handle_all [Samples.ev1] w1) key = Some 96
  /\ block_le (lastProcessedBlock_of w1 key)
              (lastProcessedBlock_of (handle_all [Samples.ev1] w1) key).
Proof.
  cbv zeta.
  pose proof (lastProcessedBlock_never_decreases [Samples.ev1]
                (handle_all [Samples.ev2] Samples.world0)
                ltac:(repeat constructor; vm_compute; discriminate)) as [H _].
  split; [vm_compute; reflexivity|]. split; [vm_compute; reflexivity|].
  apply H.
Defined.

Example duplicate_replay :
  let w1 := handle_all [Samples.ev1] Samples.world0 in
  let w2 := handle_all [Samples.ev1] w1 in
  length (blockchainEvents w1) = 1%nat
  /\ blockchainEvents w2 = blockchainEvents w1
  /\ ((contractData w1 !! (address Samples.usdc, 1) ≫= cd_metadata)
       ≫= md_transferCount) = Some 1
  /\ ((contractData w2 !! (address Samples.usdc, 1) ≫= cd_metadata)
       ≫= md_transferCount) = Some 2.
Proof. vm_compute. repeat split. Qed.

Lemma saveEvent_is_idempotent_witness :
  let d := enhancedEvent Samples.ev1 Samples.transfer1 in
  let w := with_schedule [Quiet; RacingInsert d] Samples.world0 in
  let w1 := (saveEvent Samples.ev1 Samples.transfer1 w).1 in
  blockchainEvents w1 = [d]
  /\ logger w1
     = [DebugDuplicate (transactionHash Samples.ev1) (event_logIndex Samples.ev1)].
Proof.
  cbv zeta.
  pose proof (saveEvent_is_idempotent Samples.ev1 Samples.transfer1
                Samples.transfer1
                (with_schedule
                   [Quiet; RacingInsert (enhancedEvent Samples.ev1 Samples.transfer1)]
                   Samples.world0)) as H.
  cbv zeta in H.
  destruct H as (_ & _ & _ & _ & Hrace & _).
  apply (Hrace (enhancedEvent Samples.ev1 Samples.transfer1) []); reflexivity.
Defined.

End HandlerFacts.

(* ===================================================================== *)
(** ** More on the pull listener: batching, the scan window, the events *)
(* ===================================================================== *)

Section ListenerMore.
Import Js Model Listener Scanning.

Lemma chunks_loop_length {T} (chunkSize : nat) (Hpos : (0 < chunkSize)%nat) :
  forall (fuel : nat) (array : list T),
    (length array <= fuel)%nat ->
    length (chunks_loop fuel array chunkSize)
    = ((length array + chunkSize - 1) / chunkSize)%nat.
Proof.
  induction fuel as [|fuel IH]; intros array Hlen.
  - destruct array; [|simpl in Hlen; lia].
    cbn. symmetry. apply Nat.div_small. lia.
  - destruct array as [|x array].
    + cbn. symmetry. apply Nat.div_small. lia.
    + cbn [chunks_loop length]. rewrite IH by (rewrite length_drop; simpl in *; lia).
      rewrite length_drop. cbn [length].
      destruct (le_lt_dec chunkSize (S (length array))) as [Hle|Hlt].
      * replace (S (length array) + chunkSize - 1)%nat
          with ((S (length array) - chunkSize + chunkSize - 1) + 1 * chunkSize)%nat
          by lia.
        rewrite Nat.div_add by lia. lia.
      * replace (S (length array) - chunkSize)%nat with 0%nat by lia.
        rewrite (Nat.div_small (0 + chunkSize - 1)) by lia.
        apply Nat.div_unique with (r := length array); lia.
Qed.

Lemma chunks_loop_lookup {T} (chunkSize : nat) (Hpos : (0 < chunkSize)%nat) :
  forall (fuel : nat) (array : list T) (i : nat),
    (length array <= fuel)%nat ->
    (i < length (chunks_loop fuel array chunkSize))%nat ->
    chunks_loop fuel array chunkSize !! i
    = Some (take chunkSize (drop (i * chunkSize) array))
    /\ (i * chunkSize < length array)%nat.
Proof.
  induction fuel as [|fuel IH]; intros array i Hlen Hi.
  - destruct array; cbn in Hi; lia.
  - destruct array as [|x array]; [cbn in Hi; lia|].
    cbn [chunks_loop] in *. destruct i as [|i].
    + cbn. split; [reflexivity|lia].
    + cbn [length] in Hi.
      assert (E : forall (c : list T) (l : list (list T)), (c :: l) !! S i = l !! i)
        by reflexivity.
      rewrite E. clear E.
      destruct (IH (drop chunkSize (x :: array)) i) as [Hl Hb].
      * rewrite length_drop. cbn in *. lia.
      * lia.
      * rewrite Hl, drop_drop.
        replace (chunkSize + i * chunkSize)%nat with (S i * chunkSize)%nat by lia.
        split; [reflexivity|].
        rewrite length_drop in Hb. lia.
Qed.

(** [chunks(array, chunkSize)], for a positive chunk size, returns the
    slices [array.slice(i * chunkSize, (i + 1) * chunkSize)] for
    [i = 0, 1, ...] as long as they start inside the array: there are
    [ceil(length / chunkSize)] of them, none is empty, every one but the
    last has [chunkSize] elements, and joined in order they give the array
    back. *)
Theorem chunks_are_the_slices {T} (array : list T) (chunkSize : nat) :
  (0 < chunkSize)%nat ->
  length (chunks array chunkSize)
  = ((length array + chunkSize - 1) / chunkSize)%nat
  /\ (forall i, (i < length (chunks array chunkSize))%nat ->
        chunks array chunkSize !! i
        = Some (take chunkSize (drop (i * chunkSize) array))
        /\ (i * chunkSize < length array)%nat)
  /\ (forall i c, chunks array chunkSize !! i = Some c ->
        (0 < length c <= chunkSize)%nat
        /\ ((S i < length (chunks array chunkSize))%nat -> length c = chunkSize))
  /\ concat (chunks array chunkSize) = array.
Proof.
  intros Hpos.
  assert (Hlen := chunks_loop_length chunkSize Hpos (length array) array
                    (Nat.le_refl _)).
  assert (Hlook := fun i => chunks_loop_lookup chunkSize Hpos (length array)
                              array i (Nat.le_refl _)).
  fold (chunks array chunkSize) in Hlen, Hlook.
  split; [exact Hlen|]. split; [exact Hlook|].
  split; [|apply concat_chunks; exact Hpos].
  intros i c Hc.
  assert (Hi : (i < length (chunks array chunkSize))%nat)
    by (apply lookup_lt_is_Some; eauto).
  destruct (Hlook i Hi) as [Hs Hb]. rewrite Hs in Hc. injection Hc as <-.
  rewrite length_take, length_drop. split; [lia|].
  intros Hnext. destruct (Hlook (S i) Hnext) as [_ Hb']. lia.
Qed.

Lemma chunks_are_the_slices_witness :
  chunks [1; 2; 3; 4; 5; 6; 7] 3 = [[1; 2; 3]; [4; 5; 6]; [7]]
  /\ concat (chunks [1; 2; 3; 4; 5; 6; 7] 3) = [1; 2; 3; 4; 5; 6; 7].
Proof.
  split; [reflexivity|].
  apply (chunks_are_the_slices [1; 2; 3; 4; 5; 6; 7] 3). lia.
Defined.

(** *** The batch size is a pacing knob only *)

Lemma getAll_with_batchSize (p : Provider) (st : state) (n : nat) (a b : Z) :
  (0 < n)%nat -> (0 < batchSize st)%nat ->
  getAllContractEventsInRange p (with_batchSize n st) a b
  = getAllContractEventsInRange p st a b.
Proof.
  intros Hn Hb. unfold getAllContractEventsInRange. cbv zeta.
  cbn [with_batchSize batchSize contractConfigs].
  rewrite !processBatches_flat_map by assumption. reflexivity.
Qed.

(** A tick computes the same with every positive batch size: the same
    effects in the same order (so the same events enqueued), the same
    cursor and the same flag.  Batching changes the pace of the requests,
    not their results. *)
Theorem batch_size_does_not_change_a_tick (p : Provider) (sb : option nat)
    (st : state) (n : nat) :
  (0 < n)%nat -> (0 < batchSize st)%nat ->
  scanForNewBlocks p sb (with_batchSize n st)
  = (with_batchSize n (scanForNewBlocks p sb st).1, (scanForNewBlocks p sb st).2).
Proof.
  intros Hn Hb. unfold scanForNewBlocks.
  cbn [with_batchSize lastProcessedBlock blocksPerScan l_chainId batchSize
       contractConfigs _isRunning].
  destruct (getBlockNumber p) as [latest|e]; [|reflexivity].
  destruct (latest <=? lastProcessedBlock st); [reflexivity|].
  unfold processBlockRangeWithBatching.
  rewrite getAll_with_batchSize by assumption.
  cbn [with_batchSize lastProcessedBlock blocksPerScan l_chainId batchSize
       contractConfigs _isRunning].
  destruct (contractConfigs st); [reflexivity|].
  destruct (getAllContractEventsInRange p st _ _); [reflexivity|].
  destruct (processEvents p (l_chainId st) sb 0 (_isRunning st) _) as [r fx].
  reflexivity.
Qed.

Lemma batch_size_does_not_change_a_tick_witness :
  dispatched
    (scanForNewBlocks (Samples.upstream [Samples.log95; Samples.log96]
                         Samples.receipt_ok) None
       (with_batchSize 1 Samples.listener89)).2
  = dispatched
      (scanForNewBlocks (Samples.upstream [Samples.log95; Samples.log96]
                           Samples.receipt_ok) None Samples.listener89).2.
Proof.
  rewrite (batch_size_does_not_change_a_tick
             (Samples.upstream [Samples.log95; Samples.log96] Samples.receipt_ok)
             None Samples.listener89 1); [reflexivity|lia|cbn; lia].
Defined.

(** *** The cursor over several ticks *)

Lemma processBlockRange_keeps_running (p : Provider) (st : state) (a b : Z) :
  _isRunning st = true ->
  (processBlockRangeWithBatching p None st a b).1 = true.
Proof.
  intros Hrun. unfold processBlockRangeWithBatching.
  destruct (contractConfigs st); [exact Hrun|].
  destruct (getAllContractEventsInRange p st a b) as [|ev evs]; [exact Hrun|].
  rewrite Hrun, (processEvents_reached p (l_chainId st) None (ev :: evs) 0%nat I).
  reflexivity.
Qed.

Lemma scanTimerFires_cursor (p : Provider) (st : state) :
  _isRunning st = true ->
  let st' := (scanTimerFires p None st).1 in
  _isRunning st' = true
  /\ blocksPerScan st' = blocksPerScan st
  /\ lastProcessedBlock st'
     = match getBlockNumber p with
       | Normal latest =>
           if latest <=? lastProcessedBlock st then lastProcessedBlock st
           else Z.min latest (lastProcessedBlock st + 1 + blocksPerScan st - 1)
       | Throw _ => lastProcessedBlock st
       end.
Proof.
  intros Hrun. unfold scanTimerFires. rewrite Hrun. cbn [negb].
  unfold scanForNewBlocks.
  destruct (getBlockNumber p) as [latest|e]; [|cbn; auto].
  destruct (latest <=? lastProcessedBlock st); [cbn; auto|].
  pose proof (processBlockRange_keeps_running p st (lastProcessedBlock st + 1)
                (Z.min latest (lastProcessedBlock st + 1 + blocksPerScan st - 1))
                Hrun) as Hr.
  destruct (processBlockRangeWithBatching p None st _ _) as [r fx].
  cbn in Hr. subst r. cbn. auto.
Qed.

(** With the head of the chain at [latest], [n] ticks of a running listener
    that scans at least one block per tick move the cursor from [last] to
    [min(latest, last + n * blocksPerScan)]; a cursor that is already at or
    beyond the head stays where it is.  So the cursor never passes the
    head, never moves back, and reaches the head after
    [ceil((latest - last) / blocksPerScan)] ticks, whatever upstream
    answers to the other requests. *)
Theorem cursor_catches_up (ps : list Provider) (st : state) (latest : Z) :
  _isRunning st = true -> 1 <= blocksPerScan st ->
  Forall (fun p => getBlockNumber p = Normal latest) ps ->
  lastProcessedBlock (ticks ps st)
  = Z.max (lastProcessedBlock st)
      (Z.min latest
         (lastProcessedBlock st + Z.of_nat (length ps) * blocksPerScan st))
  /\ _isRunning (ticks ps st) = true.
Proof.
  intros Hrun Hbps Hps. revert st Hrun Hbps.
  induction Hps as [|p ps Hp _ IH]; intros st Hrun Hbps.
  - cbn. split; [lia|exact Hrun].
  - unfold ticks. cbn [fold_left]. fold (ticks ps (scanTimerFires p None st).1).
    destruct (scanTimerFires_cursor p st Hrun) as (Hr & Hb & Hc).
    rewrite Hp in Hc.
    destruct (IH _ Hr ltac:(rewrite Hb; exact Hbps)) as [IHc IHr].
    split; [|exact IHr].
    rewrite IHc, Hb, Hc. cbn [length]. rewrite Nat2Z.inj_succ.
    set (P := Z.of_nat (length ps) * blocksPerScan st).
    assert (HP : 0 <= P) by (subst P; nia).
    replace (Z.succ (Z.of_nat (length ps)) * blocksPerScan st)
      with (P + blocksPerScan st) by (subst P; lia).
    destruct (latest <=? lastProcessedBlock st) eqn:E;
      [apply Z.leb_le in E|apply Z.leb_gt in E]; lia.
Qed.

Lemma cursor_catches_up_witness :
  let up := Samples.upstream [Samples.log95] Samples.receipt_ok in
  Listener.lastProcessedBlock
    (ticks [up; up; up]
       (Listener.Build_state 1 4 3 true 89 [Samples.usdc])) = 100.
Proof.
  cbv zeta.
  destruct (cursor_catches_up
              [Samples.upstream [Samples.log95] Samples.receipt_ok;
               Samples.upstream [Samples.log95] Samples.receipt_ok;
               Samples.upstream [Samples.log95] Samples.receipt_ok]
              (Listener.Build_state 1 4 3 true 89 [Samples.usdc]) 100)
    as [H _].
  - reflexivity.
  - cbn. lia.
  - repeat constructor.
  - rewrite H. reflexivity.
Defined.

(** With [blocksPerScan] at zero or below, no tick ever raises the cursor,
    whatever upstream answers: every window is empty ([startBlock] lies
    beyond [endBlock]) and the listener makes no progress; at zero the
    cursor stays exactly where it is. *)
Theorem no_progress_without_blocks_per_scan (ps : list Provider) (st : state) :
  blocksPerScan st <= 0 ->
  lastProcessedBlock (ticks ps st) <= lastProcessedBlock st
  /\ (blocksPerScan st = 0 ->
      lastProcessedBlock (ticks ps st) = lastProcessedBlock st).
Proof.
  revert st. induction ps as [|p ps IH]; intros st Hbps.
  - cbn. split; [lia|reflexivity].
  - unfold ticks. cbn [fold_left]. fold (ticks ps (scanTimerFires p None st).1).
    assert (H1 : blocksPerScan (scanTimerFires p None st).1 = blocksPerScan st
                 /\ lastProcessedBlock (scanTimerFires p None st).1
                    <= lastProcessedBlock st
                 /\ (blocksPerScan st = 0 ->
                     lastProcessedBlock (scanTimerFires p None st).1
                     = lastProcessedBlock st)).
    { unfold scanTimerFires. destruct (_isRunning st); cbn [negb];
        [|cbn; repeat split; lia].
      unfold scanForNewBlocks.
      destruct (getBlockNumber p) as [latest|e]; [|cbn; repeat split; lia].
      destruct (latest <=? lastProcessedBlock st) eqn:E;
        [cbn; repeat split; lia|].
      apply Z.leb_gt in E.
      destruct (processBlockRangeWithBatching p None st _ _) as [r fx].
      cbn. repeat split; lia. }
    destruct H1 as (Hb & Hle & Heq).
    destruct (IH (scanTimerFires p None st).1 ltac:(rewrite Hb; exact Hbps))
      as [IHle IHeq].
    split; [lia|]. intros H0. rewrite IHeq by (rewrite Hb; exact H0).
    apply Heq, H0.
Qed.

Lemma no_progress_without_blocks_per_scan_witness :
  let up := Samples.upstream [Samples.log95] Samples.receipt_ok in
  Listener.lastProcessedBlock
    (ticks [up; up] (Listener.Build_state 1 0 3 true 89 [Samples.usdc])) = 89.
Proof.
  cbv zeta.
  apply (no_progress_without_blocks_per_scan
           [Samples.upstream [Samples.log95] Samples.receipt_ok;
            Samples.upstream [Samples.log95] Samples.receipt_ok]
           (Listener.Build_state 1 0 3 true 89 [Samples.usdc])).
  - cbn. lia.
  - reflexivity.
Defined.

(** *** What the enqueued events look like *)

Lemma chunks_loop_subset {T} (chunkSize : nat) :
  forall (fuel : nat) (array c : list T) (x : T),
    In c (chunks_loop fuel array chunkSize) -> In x c -> In x array.
Proof.
  induction fuel as [|fuel IH]; intros array c x Hc Hx.
  - destruct array; destruct Hc.
  - destruct array as [|y array]; [destruct Hc|].
    cbn [chunks_loop] in Hc. destruct Hc as [<-|Hc].
    + apply list_elem_of_In. apply list_elem_of_In in Hx.
      exact (subseteq_take chunkSize _ _ Hx).
    + specialize (IH _ _ _ Hc Hx).
      apply list_elem_of_In. apply list_elem_of_In in IH.
      exact (subseteq_drop chunkSize _ _ IH).
Qed.

Lemma processBatches_subset {T R} (items : list T) (g : T -> list R) (n : nat)
    (y : R) :
  In y (processBatches items (flat_map g) n) ->
  exists x, In x items /\ In y (g x).
Proof.
  unfold processBatches, chunks. intros H.
  apply in_flat_map in H as (c & Hc & H).
  apply in_flat_map in H as (x & Hx & Hy).
  exists x. split; [|exact Hy].
  eapply chunks_loop_subset; eassumption.
Qed.

Lemma insert_event_In (x y : ScannedEvent) (l : list ScannedEvent) :
  In y (insert_event x l) -> y = x \/ In y l.
Proof.
  induction l as [|z l IH]; cbn.
  - intros [<-|[]]. left. reflexivity.
  - destruct (compareEvents x z <=? 0); cbn.
    + intros [<-|H]; [left; reflexivity|right; exact H].
    + intros [<-|H]; [right; left; reflexivity|].
      destruct (IH H) as [->|H']; [left; reflexivity|right; right; exact H'].
Qed.

Lemma sortEvents_In (y : ScannedEvent) (l : list ScannedEvent) :
  In y (sortEvents l) -> In y l.
Proof.
  induction l as [|x l IH]; cbn; [tauto|].
  intros H. apply insert_event_In in H as [->|H]; [left; reflexivity|].
  right. apply IH, H.
Qed.

(** Every scanned event belongs to a monitored contract and carries one of
    the two known event names. *)
Lemma getAll_sources (p : Provider) (st : state) (a b : Z) (ev : ScannedEvent) :
  In ev (getAllContractEventsInRange p st a b) ->
  In (se_contractConfig ev) (contractConfigs st)
  /\ (se_eventName ev = "Transfer" \/ se_eventName ev = "Approval").
Proof.
  unfold getAllContractEventsInRange. cbv zeta. intros H.
  apply in_map_iff in H as (ev0 & <- & H). cbn [se_contractConfig se_eventName].
  apply sortEvents_In in H.
  apply processBatches_subset in H as (config & Hc & H).
  unfold contractEvents, recover in H.
  destruct (new_Contract p (address config) (abi config)); js_step; cbn in H;
    [|destruct H].
  apply processBatches_subset in H as (name & Hn & H).
  unfold queryEvent, recover in H.
  destruct (has_filter p (abi config) name); [|destruct H].
  destruct (queryFilter p (address config) name a b) as [logs|e]; js_step;
    cbn in H; [|destruct H].
  apply in_map_iff in H as (l & <- & _). cbn [se_contractConfig se_eventName].
  split; [exact Hc|].
  unfold getEventNamesFromConfig in Hn.
  apply list_elem_of_In, list_elem_of_omap in Hn as (sig & _ & Hk).
  unfold knownEvents in Hk.
  destruct (String.eqb sig TRANSFER_TOPIC); [left; congruence|].
  destruct (String.eqb sig APPROVAL_TOPIC); [right; congruence|discriminate].
Qed.

Lemma processContractEvent_shape (p : Provider) (chain : Z) (sev : ScannedEvent)
    (e : BlockchainEvent) :
  In e (dispatched (processContractEvent p chain sev)) ->
  exists r args, e = blockchainEvent_of chain sev r args.
Proof.
  unfold processContractEvent, recover.
  destruct (getTransactionReceipt p (se_transactionHash sev)) as [[r|]|err];
    js_step; cbn; try tauto.
  destruct (formatEventArgs_normal (se_eventName sev) (se_args sev)
              (se_contractConfig sev)) as [args ->].
  js_step. cbn. intros [<-|[]]. eauto.
Qed.

Lemma processEvents_sources (p : Provider) (chain : Z) (sb : option nat)
    (e : BlockchainEvent) :
  forall (evs : list ScannedEvent) (i : nat) (running : bool),
    In e (dispatched (processEvents p chain sb i running evs).2) ->
    exists sev, In sev evs /\ In e (dispatched (processContractEvent p chain sev)).
Proof.
  induction evs as [|sev evs IH]; intros i running H; [destruct H|].
  cbn [processEvents] in H.
  destruct (negb (running && negb (bool_decide (sb = Some i))));
    [destruct H|].
  destruct (processEvents p chain sb (S i) _ evs) as [r fx] eqn:E.
  cbn [snd] in H. rewrite dispatched_app in H.
  apply in_app_or in H as [H|H].
  - exists sev. split; [left; reflexivity|exact H].
  - specialize (IH (S i) (running && negb (bool_decide (sb = Some i)))).
    rewrite E in IH.
    destruct (IH H) as (sev' & Hin & He).
    exists sev'. split; [right; exact Hin|exact He].
Qed.

Lemma tick_sources (p : Provider) (sb : option nat) (st : state)
    (e : BlockchainEvent) :
  In e (dispatched (scanForNewBlocks p sb st).2) ->
  exists sev r args,
    e = blockchainEvent_of (l_chainId st) sev r args
    /\ In (se_contractConfig sev) (contractConfigs st)
    /\ (se_eventName sev = "Transfer" \/ se_eventName sev = "Approval").
Proof.
  unfold scanForNewBlocks.
  destruct (getBlockNumber p) as [latest|err]; [|intros []].
  destruct (latest <=? lastProcessedBlock st); [intros []|].
  set (a := lastProcessedBlock st + 1).
  set (b := Z.min latest (a + blocksPerScan st - 1)).
  unfold processBlockRangeWithBatching.
  destruct (contractConfigs st) as [|c cs] eqn:Ec.
  { cbn. destruct (b <? latest); cbn; tauto. }
  rewrite <- Ec.
  destruct (getAllContractEventsInRange p st a b) as [|ev evs] eqn:Eg.
  { cbn. destruct (b <? latest); cbn; tauto. }
  destruct (processEvents p (l_chainId st) sb 0 (_isRunning st) (ev :: evs))
    as [r fx] eqn:Ep.
  cbn [snd].
  change (dispatched (LogScanning a b :: ?l)) with (dispatched l).
  change (dispatched (LogFound ?n :: ?l)) with (dispatched l).
  rewrite !dispatched_app. intros H.
  apply in_app_or in H as [H|H].
  - pose proof (processEvents_sources p (l_chainId st) sb e (ev :: evs) 0%nat
                  (_isRunning st)) as Hs.
    rewrite Ep in Hs. destruct (Hs H) as (sev & Hin & He).
    apply processContractEvent_shape in He as (rc & args & ->).
    rewrite <- Eg in Hin. apply getAll_sources in Hin as [Hc Hn].
    exists sev, rc, args. auto.
  - exfalso. apply in_app_or in H as [H|H]; [destruct H|].
    destruct (b <? latest); destruct H.
Qed.

(** No event that a tick of the pull listener enqueues is accepted by
    [ERC20TransferHandler.canHandle]: the listener builds every event with
    an empty [data.topics], and the handler looks for the Transfer hash in
    [topics[0]].  The events are of type ['contract_log'], of the
    listener's chain, of a monitored contract, and named Transfer or
    Approval; with the Transfer handler as the only registered handler the
    dispatcher finds no eligible handler for them. *)
Theorem pull_events_are_never_accepted (p : Provider) (sb : option nat)
    (st : state) (e : BlockchainEvent) (w : Handler.World) :
  In e (dispatched (scanForNewBlocks p sb st).2) ->
  event_topics e = []
  /\ Handler.canHandle e = false
  /\ Handler.canHandle_constant e = false
  /\ Dispatcher.eligibleHandlers e
       (Dispatcher.registered w [Handler.erc20TransferHandler]) = []
  /\ eventType e = "contract_log"
  /\ chainId e = l_chainId st
  /\ (exists config, In config (contractConfigs st)
                     /\ contractAddress e = address config)
  /\ exists d, data e = Some d
               /\ (ev_name (event d) = "Transfer" \/ ev_name (event d) = "Approval").
Proof.
  intros H. apply tick_sources in H as (sev & r & args & -> & Hc & Hn).
  assert (Hcan : Handler.canHandle
                   (blockchainEvent_of (l_chainId st) sev r args) = false).
  { unfold Handler.canHandle, Handler.isTransferEvent. cbn.
    rewrite andb_false_r. reflexivity. }
  split; [reflexivity|]. split; [exact Hcan|].
  split.
  { unfold Handler.canHandle_constant, Handler.isTransferEvent_constant. cbn.
    rewrite andb_false_r. reflexivity. }
  split.
  { unfold Dispatcher.eligibleHandlers. cbn. rewrite Hcan. reflexivity. }
  split; [reflexivity|]. split; [reflexivity|].
  split; [exists (se_contractConfig sev); split; [exact Hc|reflexivity]|].
  eexists. split; [reflexivity|exact Hn].
Qed.

Lemma pull_events_are_never_accepted_witness :
  Handler.canHandle (Samples.transfer_event 95 0 "0xtx1" []) = false.
Proof.
  apply (pull_events_are_never_accepted
           (Samples.upstream [Samples.log95] Samples.receipt_ok) None
           Samples.listener89 (Samples.transfer_event 95 0 "0xtx1" [])
           Samples.world0).
  vm_compute. left. reflexivity.
Defined.

(** *** The copies of the formatting code agree *)

Lemma listener_formatTokenValue_is_formatTokenAmount (value : string)
    (config : ContractConfig) :
  Listener.formatTokenValue value config
  = Handler.formatTokenValue value
      (Handler.ti_decimals (Handler.contractInfo_of config)).
Proof. reflexivity. Qed.

Lemma listener_isLargeTransfer_is_isLargeTransfer (value : string)
    (config : ContractConfig) :
  Listener.isLargeTransfer value config
  = Handler.isLargeTransferCheck value
      (Handler.ti_decimals (Handler.contractInfo_of config))
      (Handler.ti_isStablecoin (Handler.contractInfo_of config)).
Proof.
  unfold Listener.isLargeTransfer, Handler.isLargeTransferCheck,
    Tokens.isLargeTransfer, Tokens.isLargeTransfer_try, config_isStablecoin.
  cbn [Handler.contractInfo_of Handler.ti_isStablecoin Handler.ti_decimals].
  destruct (metadata config ≫= isStablecoin) as [[|]|]; reflexivity.
Qed.

(** The listener's own [formatTokenValue] and [isLargeTransfer] compute
    what [formatTokenAmount] and [isLargeTransfer] of evm-constants.ts
    compute for the decimals and the stablecoin flag of the configuration;
    so when the handler extracts the transfer data of an event whose
    arguments the listener formatted with the same configuration, it
    arrives at the same [valueFormatted] and the same [isLargeTransfer],
    and it never fails on such an event. *)
Theorem handler_recomputes_the_listener_values (config : ContractConfig)
    (from to value : string) (ev : BlockchainEvent) (d : EventData)
    (w : Handler.World) :
  from <> "" -> to <> "" -> value <> "" ->
  data ev = Some d ->
  formatEventArgs "Transfer" [from; to; value] config = Normal (ev_args (event d)) ->
  exists vf large,
    ev_args (event d) = TransferArgs from to value vf large
    /\ Tokens.formatTokenAmount (Tokens.AString value) (config_decimals config) 6
       = Normal vf
    /\ Tokens.isLargeTransfer (Tokens.AString value) (config_decimals config)
         (config_isStablecoin config) = Normal large
    /\ Handler.extractTransferData ev config w
       = (w, Normal (Some {| Handler.td_from := from; Handler.td_to := to;
                             Handler.td_value := value;
                             Handler.td_valueFormatted := vf;
                             Handler.td_isLargeTransfer := large;
                             Handler.td_contractInfo :=
                               Handler.contractInfo_of config |})).
Proof.
  intros Hf Ht Hv Hd Hargs.
  unfold formatEventArgs in Hargs. cbn [String.eqb Ascii.eqb Bool.eqb] in Hargs.
  destruct (formatTokenValue_normal value config) as [vf Hvf].
  destruct (isLargeTransfer_normal value config) as [large Hl].
  change (String.eqb "Transfer" "Transfer") with true in Hargs.
  rewrite Hvf, Hl in Hargs. js_step. cbn in Hargs. injection Hargs as Hargs.
  exists vf, large. split; [symmetry; exact Hargs|].
  pose proof (listener_formatTokenValue_is_formatTokenAmount value config) as E1.
  pose proof (listener_isLargeTransfer_is_isLargeTransfer value config) as E2.
  rewrite Hvf in E1. rewrite Hl in E2.
  split; [symmetry; exact E1|].
  split.
  { rewrite E2. unfold Handler.isLargeTransferCheck, config_isStablecoin.
    cbn [Handler.contractInfo_of Handler.ti_isStablecoin Handler.ti_decimals].
    reflexivity. }
  unfold Handler.extractTransferData, Handler.try_catch_M, Handler.transfer_fields.
  rewrite Hd. cbn [mbind option_bind]. rewrite <- Hargs.
  apply String.eqb_neq in Hf, Ht, Hv. rewrite Hf, Ht, Hv. cbn [orb].
  unfold mbind, Handler.M_bind, Handler.lift, mret, Handler.M_ret.
  rewrite <- E1, <- E2. reflexivity.
Qed.

Lemma handler_recomputes_the_listener_values_witness :
  (Handler.extractTransferData
     (Samples.transfer_event 95 0 "0xtx1" []) Samples.usdc Samples.world0).2
  = Normal (Some {| Handler.td_from := "0x0101010101010101010101010101010101010101";
                    Handler.td_to := "0x0202020202020202020202020202020202020202";
                    Handler.td_value := "250000000000";
                    Handler.td_valueFormatted := "250,000.00";
                    Handler.td_isLargeTransfer := true;
                    Handler.td_contractInfo :=
                      Handler.contractInfo_of Samples.usdc |}).
Proof.
  destruct (data (Samples.transfer_event 95 0 "0xtx1" [])) as [d|] eqn:Hd;
    [|discriminate].
  destruct (handler_recomputes_the_listener_values Samples.usdc
              "0x0101010101010101010101010101010101010101"
              "0x0202020202020202020202020202020202020202"
              "250000000000" (Samples.transfer_event 95 0 "0xtx1" [])
              d Samples.world0)
    as (vf & large & Hargs & _ & _ & Hex).
  - discriminate.
  - discriminate.
  - discriminate.
  - exact Hd.
  - cbn in Hd. injection Hd as <-. vm_compute. reflexivity.
  - rewrite Hex. cbn in Hd. injection Hd as <-. cbn in Hargs.
    injection Hargs as <- <-. reflexivity.
Defined.

End ListenerMore.

(* ===================================================================== *)
(** ** More on the dispatcher: the queue drains *)
(* ===================================================================== *)

Section DispatcherMore.
Import Js Model Dispatcher.
Context {W : Type}.

Lemma inv_awaiting_or_idle (hs : list (IEventHandler W)) (st : Dispatcher.state W) :
  dispatcher_inv hs st ->
  (exists ev, awaiting st = Some ev /\ pending st = ev :: eventQueue st
              /\ isProcessing st = true)
  \/ (awaiting st = None /\ pending st = [] /\ isProcessing st = false
      /\ activeDrains st = 0%nat /\ eventQueue st = []).
Proof.
  intros [Hh Hd Hi Hb Ho Hc].
  destruct (isProcessing st) eqn:Ep.
  - left. destruct (Hb eq_refl) as [ev Hev]. exists ev.
    unfold pending. rewrite Hev. auto.
  - right. pose proof (Hi eq_refl) as Hp.
    destruct (pending_nil st Hp) as [Ha Hq]. auto.
Qed.

Lemma handlersSettled_idle (st : Dispatcher.state W) :
  awaiting st = None -> handlersSettled st = st.
Proof. intros H. unfold handlersSettled. rewrite H. reflexivity. Qed.

Lemma settle_iter (hs : list (IEventHandler W)) (st : Dispatcher.state W) :
  dispatcher_inv hs st ->
  forall k,
    let stk := Nat.iter k handlersSettled st in
    dispatcher_inv hs stk
    /\ pending stk = drop k (pending st)
    /\ processed stk = processed st ++ take k (pending st).
Proof.
  intros Hinv. induction k as [|k IH]; cbv zeta in *.
  - cbn. rewrite drop_0, take_0, app_nil_r. auto.
  - destruct IH as (Hk & Hp & Hd). cbn [Nat.iter nat_rect].
    fold (Nat.iter k handlersSettled st).
    set (stk := Nat.iter k handlersSettled st) in *.
    split; [apply dispatcher_inv_settle, Hk|].
    destruct (inv_awaiting_or_idle hs stk Hk)
      as [(ev & Ha & Hpe & _)|(Ha & Hpn & _)].
    + destruct (handlersSettled_advances (handlers stk) stk ev eq_refl Ha)
        as (_ & Hpr & Hpd & _).
      rewrite Hpe in Hp.
      assert (Hlk : pending st !! k = Some ev).
      { rewrite <- (Nat.add_0_r k), <- lookup_drop, <- Hp. reflexivity. }
      split.
      * rewrite Hpd. replace (S k) with (k + 1)%nat by lia.
        rewrite <- drop_drop, <- Hp. reflexivity.
      * rewrite Hpr, Hd, (take_S_r _ _ _ Hlk), app_assoc. reflexivity.
    + unfold handlersSettled. rewrite Ha. rewrite Hpn in Hp.
      assert (Hlen : (length (pending st) <= k)%nat).
      { apply (f_equal length) in Hp. rewrite length_drop in Hp. cbn in Hp. lia. }
      split.
      * rewrite Hpn. symmetry. apply drop_ge. lia.
      * rewrite Hd, !take_ge by lia. reflexivity.
Qed.

(** Every event received is handled in the end.  Take the service with
    its handlers registered and let calls of [dispatchEvent], resumptions
    of the drain loop and calls of [clearQueue] happen in any order.  If
    [n] events are pending then, each time the handlers of the current
    event settle, the loop takes the next one: after [k] rounds the first
    [k] pending events are done and the others are still waiting in their
    order, and after [n] rounds nothing is pending, the queue is empty,
    [isProcessing] is [false] again, no drain loop is active, and the
    handlers have been called for every event in the order of arrival.
    Until then the flag stays set. *)
Theorem queue_drains (w : W) (hs : list (IEventHandler W))
    (acts : list (Dispatcher.action W)) :
  Forall (fun a => is_register a = false) acts ->
  let st := run (registered w hs) acts in
  let n := length (pending st) in
  let done := Nat.iter n handlersSettled st in
  (forall k, pending (Nat.iter k handlersSettled st) = drop k (pending st)
             /\ processed (Nat.iter k handlersSettled st)
                = processed st ++ take k (pending st)
             /\ ((k < n)%nat -> isProcessing (Nat.iter k handlersSettled st) = true))
  /\ pending done = []
  /\ getQueueSize done = 0%nat
  /\ isProcessing done = false
  /\ activeDrains done = 0%nat
  /\ processed done = processed st ++ pending st
  /\ calls done = flat_map (calls_for hs) (processed st ++ pending st)
  /\ handlersSettled done = done.
Proof.
  intros Hacts. cbv zeta.
  set (st := run (registered w hs) acts).
  assert (Hinv : dispatcher_inv hs st)
    by (apply run_inv; [exact Hacts|apply registered_inv]).
  pose proof (settle_iter hs st Hinv) as Hit. cbv zeta in Hit.
  split.
  { intros k. destruct (Hit k) as (Hk & Hp & Hd).
    split; [exact Hp|]. split; [exact Hd|]. intros Hlt.
    destruct (inv_awaiting_or_idle hs _ Hk) as [(ev & _ & _ & Hb)|(_ & Hn & _)];
      [exact Hb|].
    rewrite Hn in Hp. apply (f_equal length) in Hp.
    rewrite length_drop in Hp. cbn in Hp. lia. }
  destruct (Hit (length (pending st))) as (Hk & Hp & Hd).
  rewrite drop_all in Hp. rewrite take_ge in Hd by lia.
  destruct (inv_awaiting_or_idle hs _ Hk)
    as [(ev & _ & Hpe & _)|(Ha & _ & Hproc & Hdr & Hq)];
    [rewrite Hpe in Hp; discriminate|].
  split; [exact Hp|]. split; [unfold getQueueSize; rewrite Hq; reflexivity|].
  split; [exact Hproc|]. split; [exact Hdr|]. split; [exact Hd|].
  split; [rewrite <- Hd; apply (inv_calls _ _ Hk)|].
  apply handlersSettled_idle, Ha.
Qed.

End DispatcherMore.

Section DispatcherMoreWitnesses.
Import Js Model Dispatcher.

Lemma queue_drains_witness :
  let st := run (registered 0%nat [Samples.handlerA; Samples.handlerB])
                [Dispatch Samples.ev1; Dispatch Samples.ev2] in
  let done := Nat.iter 2 handlersSettled st in
  isProcessing st = true
  /\ isProcessing done = false
  /\ processed done = [Samples.ev1; Samples.ev2]
  /\ world done = 2%nat.
Proof.
  cbv zeta.
  pose proof (queue_drains (W := nat) 0%nat [Samples.handlerA; Samples.handlerB]
                [Dispatch Samples.ev1; Dispatch Samples.ev2]
                ltac:(repeat constructor)) as H.
  cbv zeta in H.
  assert (Hn : length (pending (run (registered 0%nat
                                       [Samples.handlerA; Samples.handlerB])
                                  [Dispatch Samples.ev1; Dispatch Samples.ev2]))
               = 2%nat) by (vm_compute; reflexivity).
  rewrite Hn in H. destruct H as (_ & _ & _ & Hidle & _ & Hproc & _).
  split; [vm_compute; reflexivity|]. split; [exact Hidle|].
  split; [rewrite Hproc; vm_compute; reflexivity|vm_compute; reflexivity].
Defined.

End DispatcherMoreWitnesses.

(* ===================================================================== *)
(** ** More on the Transfer handler *)
(* ===================================================================== *)

Section HandlerMore.
Import Js Model Handler Tracking.

(** *** What the handler lets through *)

Lemma never_throws_mret {A} (a : A) : never_throws (mret a : M A).
Proof. intros w. exists w, a. reflexivity. Qed.

Lemma never_throws_log (l : log_entry) : never_throws (log l).
Proof. intros w. eexists _, tt. reflexivity. Qed.

Lemma never_throws_bind {A B} (m : M A) (k : A -> M B) :
  never_throws m -> (forall a, never_throws (k a)) -> never_throws (m ≫= k).
Proof.
  intros Hm Hk w. rewrite bind_run.
  destruct (Hm w) as (w1 & a & ->). apply Hk.
Qed.

Lemma never_throws_try_catch {A} (body : M A) (handler : error -> M A) :
  (forall e, never_throws (handler e)) -> never_throws (try_catch_M body handler).
Proof.
  intros Hh w. unfold try_catch_M.
  destruct (body w) as [w1 [a|e]]; [exists w1, a; reflexivity|apply Hh].
Qed.

Lemma never_throws_if {A} (b : bool) (m1 m2 : M A) :
  never_throws m1 -> never_throws m2 -> never_throws (if b then m1 else m2).
Proof. destruct b; auto. Qed.

Lemma formatTokenValue_total (value : string) (d : Z) :
  exists s, formatTokenValue value d = Normal s.
Proof.
  unfold formatTokenValue, Tokens.formatTokenAmount.
  apply (try_catch_normal _ (fun _ => value)).
Qed.

Lemma isLargeTransferCheck_total (value : string) (d : Z) (s : bool) :
  exists b, isLargeTransferCheck value d s = Normal b.
Proof.
  unfold isLargeTransferCheck, Tokens.isLargeTransfer.
  apply (try_catch_normal _ (fun _ => false)).
Qed.

Lemma never_throws_updateContractMetadata (ev : BlockchainEvent)
    (td : ERC20TransferData) :
  never_throws (updateContractMetadata ev td).
Proof.
  unfold updateContractMetadata. cbv zeta.
  apply never_throws_try_catch. intros e. apply never_throws_log.
Qed.

Lemma never_throws_processERC20Transfer (ev : BlockchainEvent)
    (td : ERC20TransferData) :
  never_throws (processERC20Transfer ev td).
Proof.
  unfold processERC20Transfer. cbv zeta.
  apply never_throws_bind;
    [repeat apply never_throws_if; apply never_throws_log|]. intros _.
  apply never_throws_bind;
    [repeat apply never_throws_if;
     first [apply never_throws_log|apply never_throws_mret]|]. intros _.
  apply never_throws_updateContractMetadata.
Qed.

Lemma never_throws_saveEvent (ev : BlockchainEvent) (td : ERC20TransferData) :
  never_throws (saveEvent ev td).
Proof.
  unfold saveEvent. apply never_throws_try_catch. intros e.
  apply never_throws_if; apply never_throws_log.
Qed.

Lemma never_throws_extractTransferData (ev : BlockchainEvent)
    (config : ContractConfig) :
  never_throws (extractTransferData ev config).
Proof.
  unfold extractTransferData. apply never_throws_try_catch. intros e.
  apply never_throws_bind; [apply never_throws_log|].
  intros _. apply never_throws_mret.
Qed.

(** What follows the lookup of the configuration in [handle]. *)
Lemma never_throws_after_lookup (ev : BlockchainEvent)
    (found : option ContractConfig) :
  never_throws
    (match found with
     | None => log (DebugNoConfig (contractAddress ev) (chainId ev))
     | Some config =>
         transferData ← extractTransferData ev config;
         match transferData with
         | None => mret tt
         | Some td => _ ← processERC20Transfer ev td; saveEvent ev td
         end
     end).
Proof.
  destruct found as [config|]; [|apply never_throws_log].
  apply never_throws_bind; [apply never_throws_extractTransferData|].
  intros [td|]; [|apply never_throws_mret].
  apply never_throws_bind; [apply never_throws_processERC20Transfer|].
  intros _. apply never_throws_saveEvent.
Qed.

(** [handle] rejects exactly when the lookup of the contract configuration
    fails, and then with the error of that lookup, after logging it and
    without touching the collections.  Every later failure (formatting,
    the requests of the metadata update, the lookup and the insert of the
    event) is caught and logged inside the handler, which then resolves;
    so the dispatcher sees a handler failure only for a failed
    configuration lookup. *)
Theorem handle_rejects_only_for_the_config_lookup (ev : BlockchainEvent)
    (w : World) :
  (forall e, (handle ev w).2 = Throw e <-> exists s, schedule w = Fails e :: s)
  /\ (forall e s, schedule w = Fails e :: s ->
        handle ev w
        = ({| contractConfigs := contractConfigs w;
              contractData := contractData w;
              blockchainEvents := blockchainEvents w;
              schedule := s;
              logger := logger w ++ [ErrorHandling e] |}, Throw e))
  /\ ((forall e s, schedule w <> Fails e :: s) -> (handle ev w).2 = Normal tt).
Proof.
  assert (Hfail : forall e s, schedule w = Fails e :: s ->
            handle ev w
            = ({| contractConfigs := contractConfigs w;
                  contractData := contractData w;
                  blockchainEvents := blockchainEvents w;
                  schedule := s;
                  logger := logger w ++ [ErrorHandling e] |}, Throw e)).
  { intros e s Hs. unfold handle. rewrite try_catch_bind_run.
    unfold config_findByAddress. rewrite (request_fails _ w e s Hs).
    reflexivity. }
  assert (Hok : (forall e s, schedule w <> Fails e :: s) ->
                (handle ev w).2 = Normal tt).
  { intros Hs. unfold handle. rewrite try_catch_bind_run.
    unfold config_findByAddress.
    destruct (schedule w) as [|[|e|d] s] eqn:Es.
    - rewrite (request_nil _ w Es). unfold try_catch_M.
      destruct (never_throws_after_lookup ev
                  (contractConfigs w !! (toLowerCase (contractAddress ev), chainId ev))
                  w) as (w1 & [] & ->). reflexivity.
    - rewrite (request_quiet _ w s Es). unfold try_catch_M.
      match goal with |- context [match ?m ?x with _ => _ end] =>
        destruct (never_throws_after_lookup ev
                    (contractConfigs (with_schedule s w)
                       !! (toLowerCase (contractAddress ev), chainId ev))
                    (with_schedule s w)) as (w1 & [] & ->)
      end. reflexivity.
    - exfalso. apply (Hs e s). reflexivity.
    - rewrite (request_racing _ w d s Es). unfold try_catch_M.
      destruct (never_throws_after_lookup ev
                  (contractConfigs (racing_insert d (with_schedule s w))
                     !! (toLowerCase (contractAddress ev), chainId ev))
                  (racing_insert d (with_schedule s w))) as (w1 & [] & ->).
      reflexivity. }
  split; [|split; assumption].
  intros e. split.
  - intros Hthrow.
    destruct (schedule w) as [|[|e'|d] s] eqn:Es.
    + rewrite Hok in Hthrow by (intros; discriminate). discriminate.
    + rewrite Hok in Hthrow by (intros; discriminate). discriminate.
    + rewrite (Hfail e' s eq_refl) in Hthrow. cbn in Hthrow.
      injection Hthrow as ->. eauto.
    + rewrite Hok in Hthrow by (intros; discriminate). discriminate.
  - intros [s Hs]. rewrite (Hfail e s Hs). reflexivity.
Qed.

Lemma handle_rejects_only_for_the_config_lookup_witness :
  (handle Samples.ev1 (with_schedule [Fails (DbError 1)] Samples.world0)).2
  = Throw (DbError 1)
  /\ (handle Samples.ev1
        (with_schedule [Quiet; Fails (DbError 1); Fails (DbError 2)]
           Samples.world0)).2 = Normal tt.
Proof.
  split.
  - apply (handle_rejects_only_for_the_config_lookup Samples.ev1
             (with_schedule [Fails (DbError 1)] Samples.world0)).
    exists []. reflexivity.
  - apply (handle_rejects_only_for_the_config_lookup Samples.ev1
             (with_schedule [Quiet; Fails (DbError 1); Fails (DbError 2)]
                Samples.world0)).
    intros e s. discriminate.
Defined.

Lemma extractTransferData_malformed (ev : BlockchainEvent)
    (config : ContractConfig) (w : World) :
  transfer_fields ev = None ->
  extractTransferData ev config w = ((log DebugInvalidTransfer w).1, Normal None).
Proof. intros Hf. unfold extractTransferData. rewrite Hf. reflexivity. Qed.

(** An event of a contract without a configuration, or one whose
    arguments lack [from], [to] or [value], leaves no trace in the
    database: [handle] writes neither a contract record nor an event
    document, under every schedule of failures; with an undisturbed
    database it resolves after one debug line. *)
Theorem handle_writes_nothing_for_unknown_or_malformed (ev : BlockchainEvent)
    (w : World) :
  contractConfigs w !! (toLowerCase (contractAddress ev), chainId ev) = None
  \/ transfer_fields ev = None ->
  contractData (handle ev w).1 = contractData w
  /\ contractConfigs (handle ev w).1 = contractConfigs w
  /\ (no_racing_insert (schedule w) ->
      blockchainEvents (handle ev w).1 = blockchainEvents w)
  /\ (schedule w = [] ->
      handle ev w
      = log (match contractConfigs w
                     !! (toLowerCase (contractAddress ev), chainId ev) with
             | None => DebugNoConfig (contractAddress ev) (chainId ev)
             | Some _ => DebugInvalidTransfer
             end) w).
Proof.
  intros Hcase.
  assert (Hrun : forall w0,
            contractConfigs w0 = contractConfigs w ->
            exists l,
              try_catch_M
                (match contractConfigs w0
                         !! (toLowerCase (contractAddress ev), chainId ev) with
                 | None => log (DebugNoConfig (contractAddress ev) (chainId ev))
                 | Some config =>
                     transferData ← extractTransferData ev config;
                     match transferData with
                     | None => mret tt
                     | Some td => _ ← processERC20Transfer ev td; saveEvent ev td
                     end
                 end)
                (fun err => _ ← log (ErrorHandling err); throw err) w0
              = log l w0
              /\ l = match contractConfigs w
                           !! (toLowerCase (contractAddress ev), chainId ev) with
                     | None => DebugNoConfig (contractAddress ev) (chainId ev)
                     | Some _ => DebugInvalidTransfer
                     end).
  { intros w0 Hcc. rewrite Hcc.
    destruct (contractConfigs w !! (toLowerCase (contractAddress ev), chainId ev))
      as [config|] eqn:Ec.
    - destruct Hcase as [Hc|Hf]; [discriminate|].
      exists DebugInvalidTransfer. split; [|reflexivity].
      unfold try_catch_M. rewrite bind_run, (extractTransferData_malformed _ _ _ Hf).
      reflexivity.
    - exists (DebugNoConfig (contractAddress ev) (chainId ev)).
      split; reflexivity. }
  unfold handle. rewrite try_catch_bind_run. unfold config_findByAddress.
  match goal with |- context [request ?op w] =>
    destruct (request_cases op w)
      as (w0 & Hcd & Hcc & Hlg & _ & Hnr & [Hreq|[e Hreq]])
  end.
  - destruct (Hrun w0 Hcc) as (l & Hl & Hlv).
    split; [|split; [|split]].
    + rewrite Hreq. cbv beta iota. rewrite Hl. exact Hcd.
    + rewrite Hreq. cbv beta iota. rewrite Hl. exact Hcc.
    + intros Hno. rewrite Hreq. cbv beta iota. rewrite Hl.
      apply (proj1 (Hnr Hno)).
    + intros Hs. rewrite (request_nil _ w Hs). cbv beta iota.
      destruct (Hrun w eq_refl) as (l' & Hl' & ->). exact Hl'.
  - split; [|split; [|split]].
    + rewrite Hreq. exact Hcd.
    + rewrite Hreq. exact Hcc.
    + intros Hno. rewrite Hreq. apply (proj1 (Hnr Hno)).
    + intros Hs. rewrite (request_nil _ w Hs) in Hreq. discriminate.
Qed.

Lemma handle_writes_nothing_for_unknown_or_malformed_witness :
  contractData (handle Samples.transfer_without_address Samples.world0).1 = ∅
  /\ blockchainEvents (handle Samples.transfer_without_address Samples.world0).1
     = [].
Proof.
  destruct (handle_writes_nothing_for_unknown_or_malformed
              Samples.transfer_without_address Samples.world0)
    as (Hcd & _ & Hev & _).
  - left. reflexivity.
  - split; [exact Hcd|]. apply Hev. constructor.
Defined.

(** *** Counting transfers *)

Lemma quiet_frame_refl (w : World) : schedule w = [] -> quiet_frame w w.
Proof. intros H. repeat split. exact H. Qed.

Lemma quiet_frame_trans (w1 w2 w3 : World) :
  quiet_frame w1 w2 -> quiet_frame w2 w3 -> quiet_frame w1 w3.
Proof. intros (? & ? & ?) (? & ? & ?). repeat split; congruence. Qed.

Lemma log_quiet (l : log_entry) (w : World) :
  schedule w = [] ->
  exists w', log l w = (w', Normal tt) /\ quiet_frame w w'
             /\ contractData w' = contractData w.
Proof. intros H. eexists. split; [reflexivity|]. repeat split. exact H. Qed.

Lemma updateLastProcessedBlock_quiet_record (a : string) (c : Z) (b : Z)
    (w : World) (rec : ContractData) :
  schedule w = [] -> contractData w !! (a, c) = Some rec ->
  exists w' r rec',
    updateLastProcessedBlock a c b w = (w', Normal r)
    /\ quiet_frame w w'
    /\ contractData w' = <[(a, c) := rec']> (contractData w)
    /\ cd_metadata rec' = cd_metadata rec
    /\ firstSeenBlock rec' = firstSeenBlock rec.
Proof.
  intros Hs Hrec. unfold updateLastProcessedBlock.
  rewrite bind_run, findByAddress_quiet, Hrec by exact Hs. cbv beta iota.
  destruct (falsy (lastProcessedBlock rec)
            || bool_decide (default 0 (lastProcessedBlock rec) < b)).
  - rewrite (findOneAndUpdate_quiet _ _ _ w rec Hs Hrec).
    eexists _, _, _. split; [reflexivity|].
    split; [repeat split; exact Hs|]. repeat split.
  - exists w, (Some rec), rec. split; [reflexivity|].
    split; [apply quiet_frame_refl, Hs|].
    split; [symmetry; apply insert_id, Hrec|]. split; reflexivity.
Qed.

Lemma setFirstSeenBlock_quiet_record (a : string) (c : Z) (b : Z)
    (w : World) (rec : ContractData) :
  schedule w = [] -> contractData w !! (a, c) = Some rec ->
  exists w' r rec',
    setFirstSeenBlock a c b w = (w', Normal r)
    /\ quiet_frame w w'
    /\ contractData w' = <[(a, c) := rec']> (contractData w)
    /\ cd_metadata rec' = cd_metadata rec
    /\ firstSeenBlock rec'
       = if falsy (firstSeenBlock rec)
            || bool_decide (b < default 0 (firstSeenBlock rec))
         then Some b else firstSeenBlock rec.
Proof.
  intros Hs Hrec. unfold setFirstSeenBlock.
  rewrite bind_run, findByAddress_quiet, Hrec by exact Hs. cbv beta iota.
  destruct (falsy (firstSeenBlock rec)
            || bool_decide (b < default 0 (firstSeenBlock rec))).
  - rewrite (findOneAndUpdate_quiet _ _ _ w rec Hs Hrec).
    eexists _, _, _. split; [reflexivity|].
    split; [repeat split; exact Hs|]. repeat split.
  - exists w, (Some rec), rec. split; [reflexivity|].
    split; [apply quiet_frame_refl, Hs|].
    split; [symmetry; apply insert_id, Hrec|]. split; reflexivity.
Qed.

Lemma updateContractMetadata_quiet_existing (ev : BlockchainEvent)
    (td : ERC20TransferData) (w : World) (rec : ContractData) :
  schedule w = [] ->
  contractData w !! (contractAddress ev, chainId ev) = Some rec ->
  exists w' rec',
    updateContractMetadata ev td w = (w', Normal tt)
    /\ quiet_frame w w'
    /\ contractData w' = <[(contractAddress ev, chainId ev) := rec']> (contractData w)
    /\ cd_metadata rec' = Some (counted ev td (metadata_or_empty rec))
    /\ firstSeenBlock rec'
       = if falsy (firstSeenBlock rec) then Some (blockNumber ev)
         else firstSeenBlock rec.
Proof.
  intros Hs Hrec. unfold updateContractMetadata. cbv zeta.
  rewrite try_catch_bind_run, findByAddress_quiet, Hrec by exact Hs.
  cbv beta iota. rewrite try_catch_bind_run, bind_run.
  destruct (updateLastProcessedBlock_quiet_record _ _ (blockNumber ev) w rec Hs Hrec)
    as (w1 & r1 & rec1 & Hrun1 & (Hs1 & Hc1 & He1) & Hcd1 & Hm1 & Hf1).
  rewrite Hrun1, bind_run.
  assert (Hrec1 : contractData w1 !! (contractAddress ev, chainId ev) = Some rec1)
    by (rewrite Hcd1; apply lookup_insert_eq).
  assert (Hfirst : exists w2 rec2,
            (if falsy (firstSeenBlock rec)
             then _ ← setFirstSeenBlock (contractAddress ev) (chainId ev)
                        (blockNumber ev); mret tt
             else mret tt) w1 = (w2, Normal tt)
            /\ quiet_frame w1 w2
            /\ contractData w2
               = <[(contractAddress ev, chainId ev) := rec2]> (contractData w1)
            /\ cd_metadata rec2 = cd_metadata rec1
            /\ firstSeenBlock rec2
               = if falsy (firstSeenBlock rec) then Some (blockNumber ev)
                 else firstSeenBlock rec).
  { destruct (falsy (firstSeenBlock rec)) eqn:Efalsy.
    - rewrite bind_run.
      destruct (setFirstSeenBlock_quiet_record _ _ (blockNumber ev) w1 rec1
                  Hs1 Hrec1)
        as (w2 & r2 & rec2 & Hrun2 & Hq2 & Hcd2 & Hm2 & Hf2).
      rewrite Hrun2. exists w2, rec2. split; [reflexivity|].
      split; [exact Hq2|]. split; [exact Hcd2|]. split; [exact Hm2|].
      rewrite Hf2, Hf1, Efalsy. reflexivity.
    - exists w1, rec1. split; [reflexivity|].
      split; [apply quiet_frame_refl, Hs1|].
      split; [symmetry; apply insert_id, Hrec1|]. split; [reflexivity|].
      exact Hf1. }
  destruct Hfirst as (w2 & rec2 & Hrun2 & (Hs2 & Hc2 & He2) & Hcd2 & Hm2 & Hf2).
  rewrite Hrun2, bind_run.
  assert (Hrec2 : contractData w2 !! (contractAddress ev, chainId ev) = Some rec2)
    by (rewrite Hcd2; apply lookup_insert_eq).
  rewrite (updateContract_quiet _ _ _ w2 rec2 Hs2 Hrec2).
  eexists _, _. split; [reflexivity|].
  split; [repeat split; cbn; congruence|].
  split; [cbn; rewrite Hcd2, Hcd1, !insert_insert_eq; reflexivity|].
  split; [reflexivity|exact Hf2].
Qed.

Lemma updateContractMetadata_quiet_absent (ev : BlockchainEvent)
    (td : ERC20TransferData) (w : World) :
  schedule w = [] ->
  contractData w !! (contractAddress ev, chainId ev) = None ->
  exists w' rec',
    updateContractMetadata ev td w = (w', Normal tt)
    /\ quiet_frame w w'
    /\ contractData w' = <[(contractAddress ev, chainId ev) := rec']> (contractData w)
    /\ (cd_metadata rec' ≫= md_transferCount) = Some 1
    /\ (cd_metadata rec' ≫= md_largeTransferCount)
       = Some (if td_isLargeTransfer td then 1 else 0)
    /\ firstSeenBlock rec' = Some (blockNumber ev)
    /\ lastProcessedBlock rec' = Some (blockNumber ev)
    /\ startFromBlock rec' = Some (blockNumber ev)
    /\ contractType rec' = "erc20"
    /\ collectionKey rec' = generateCollectionKey "erc20" (chainId ev).
Proof.
  intros Hs Hrec. unfold updateContractMetadata. cbv zeta.
  rewrite try_catch_bind_run, findByAddress_quiet, Hrec by exact Hs.
  cbv beta iota. rewrite try_catch_bind_run, bind_run.
  unfold saveERC20Data at 1. rewrite (request_nil _ w Hs). cbv beta zeta.
  rewrite Hrec. rewrite bind_run.
  match goal with |- context [updateContract ?a ?c ?u ?w1] =>
    rewrite (updateContract_quiet a c u w1 _ Hs (lookup_insert_eq _ _ _))
  end.
  eexists _, _. split; [reflexivity|].
  split; [repeat split; exact Hs|].
  split; [cbn; rewrite insert_insert_eq; reflexivity|].
  repeat split.
Qed.

Lemma number_or_Some_0 (x : Z) : number_or (Some x) 0 = x.
Proof. unfold number_or. destruct (x =? 0) eqn:E; [apply Z.eqb_eq in E|]; lia. Qed.

Lemma updateContractMetadata_quiet_count (ev : BlockchainEvent)
    (td : ERC20TransferData) (w : World) :
  schedule w = [] ->
  exists w',
    updateContractMetadata ev td w = (w', Normal tt)
    /\ quiet_frame w w'
    /\ transferCount w' (contractAddress ev, chainId ev)
       = transferCount w (contractAddress ev, chainId ev) + 1
    /\ largeTransferCount w' (contractAddress ev, chainId ev)
       = largeTransferCount w (contractAddress ev, chainId ev)
         + (if td_isLargeTransfer td then 1 else 0)
    /\ forall k, k <> (contractAddress ev, chainId ev) ->
                 contractData w' !! k = contractData w !! k.
Proof.
  intros Hs. unfold transferCount, largeTransferCount.
  destruct (contractData w !! (contractAddress ev, chainId ev)) as [rec|] eqn:Hrec.
  - destruct (updateContractMetadata_quiet_existing ev td w rec Hs Hrec)
      as (w' & rec' & Hrun & Hq & Hcd & Hm & _).
    exists w'. split; [exact Hrun|]. split; [exact Hq|].
    rewrite Hcd, lookup_insert_eq. cbn [mbind option_bind]. rewrite Hm.
    cbn [mbind option_bind counted md_transferCount md_largeTransferCount].
    rewrite !number_or_Some_0.
    split; [|split].
    + unfold metadata_or_empty. destruct (cd_metadata rec); reflexivity.
    + unfold metadata_or_empty. destruct (cd_metadata rec); reflexivity.
    + intros k Hk. apply lookup_insert_ne. congruence.
  - destruct (updateContractMetadata_quiet_absent ev td w Hs Hrec)
      as (w' & rec' & Hrun & Hq & Hcd & Hc & Hl & _).
    exists w'. split; [exact Hrun|]. split; [exact Hq|].
    rewrite Hcd, lookup_insert_eq. cbn [mbind option_bind].
    change (option_bind _ _ md_transferCount (cd_metadata rec'))
      with (cd_metadata rec' ≫= md_transferCount).
    change (option_bind _ _ md_largeTransferCount (cd_metadata rec'))
      with (cd_metadata rec' ≫= md_largeTransferCount).
    rewrite Hc, Hl, !number_or_Some_0.
    split; [reflexivity|]. split; [reflexivity|].
    intros k Hk. apply lookup_insert_ne. congruence.
Qed.

Lemma saveEvent_quiet (ev : BlockchainEvent) (td : ERC20TransferData) (w : World) :
  schedule w = [] ->
  exists w',
    saveEvent ev td w = (w', Normal tt)
    /\ schedule w' = [] /\ contractConfigs w' = contractConfigs w
    /\ contractData w' = contractData w
    /\ blockchainEvents w'
       = if has_key (event_key ev) (blockchainEvents w) then blockchainEvents w
         else blockchainEvents w ++ [enhancedEvent ev td].
Proof.
  intros Hs. unfold saveEvent. rewrite try_catch_bind_run.
  unfold events_findOne. rewrite (request_nil _ w Hs).
  rewrite find_has_key.
  destruct (List.find _ (blockchainEvents w)) as [d|] eqn:Ef.
  - eexists. split; [reflexivity|]. repeat split. exact Hs.
  - rewrite try_catch_bind_run. unfold events_save.
    rewrite (request_nil _ w Hs). unfold insert_doc.
    rewrite doc_key_enhancedEvent, find_has_key, Ef.
    eexists. split; [reflexivity|]. repeat split. exact Hs.
Qed.

(** One delivery of a Transfer of a configured contract, to a database
    that answers every request. *)
Lemma handle_quiet_accepted (a : string) (c : Z) (config : ContractConfig)
    (ev : BlockchainEvent) (w : World) :
  schedule w = [] ->
  contractConfigs w !! (toLowerCase a, c) = Some config ->
  transfer_of a c ev ->
  let w' := (handle ev w).1 in
  schedule w' = []
  /\ contractConfigs w' = contractConfigs w
  /\ transferCount w' (a, c) = transferCount w (a, c) + 1
  /\ (has_key (event_key ev) (blockchainEvents w) = true ->
      blockchainEvents w' = blockchainEvents w)
  /\ (forall k, has_key k (blockchainEvents w) = true ->
                has_key k (blockchainEvents w') = true)
  /\ has_key (event_key ev) (blockchainEvents w') = true.
Proof.
  intros Hs Hc (Ha & Hch & [[[from to] value] Hf]). cbv zeta.
  unfold handle. rewrite try_catch_bind_run. unfold config_findByAddress.
  rewrite (request_nil _ w Hs), Ha, Hch, Hc. cbv beta iota.
  rewrite try_catch_bind_run.
  destruct (formatTokenValue_total value (ti_decimals (contractInfo_of config)))
    as [vf Hvf].
  destruct (isLargeTransferCheck_total value (ti_decimals (contractInfo_of config))
              (ti_isStablecoin (contractInfo_of config))) as [large Hl].
  assert (Hex : extractTransferData ev config w
                = (w, Normal (Some {| td_from := from; td_to := to;
                                      td_value := value;
                                      td_valueFormatted := vf;
                                      td_isLargeTransfer := large;
                                      td_contractInfo := contractInfo_of config |}))).
  { unfold extractTransferData, try_catch_M. rewrite Hf.
    unfold mbind, M_bind, lift, mret, M_ret. rewrite Hvf, Hl. reflexivity. }
  rewrite Hex. set (td := {| td_from := from |}).
  rewrite try_catch_bind_run.
  assert (Hproc : exists w1,
            processERC20Transfer ev td w = (w1, Normal tt)
            /\ quiet_frame w w1
            /\ transferCount w1 (a, c) = transferCount w (a, c) + 1).
  { unfold processERC20Transfer. cbv zeta. rewrite bind_run.
    assert (Hlog1 : exists w0,
              (if td_isLargeTransfer td
               then log (WarnWhale (ti_symbol (td_contractInfo td)))
               else if String.eqb (ti_priority (td_contractInfo td)) "high"
                    then log (LogHighPriority (ti_symbol (td_contractInfo td)))
                    else log (LogTransfer (ti_symbol (td_contractInfo td)))) w
              = (w0, Normal tt)
              /\ quiet_frame w w0 /\ contractData w0 = contractData w).
    { destruct (td_isLargeTransfer td); [apply log_quiet, Hs|].
      destruct (String.eqb _ _); apply log_quiet, Hs. }
    destruct Hlog1 as (w0 & -> & Hq0 & Hcd0). rewrite bind_run.
    assert (Hlog2 : exists w0',
              (if String.eqb (td_from td) zeroAddress
               then log (LogMint (ti_symbol (td_contractInfo td)))
               else if String.eqb (td_to td) zeroAddress
                    then log (LogBurn (ti_symbol (td_contractInfo td)))
                    else mret tt) w0
              = (w0', Normal tt)
              /\ quiet_frame w0 w0' /\ contractData w0' = contractData w0).
    { destruct (String.eqb (td_from td) zeroAddress);
        [apply log_quiet, Hq0|].
      destruct (String.eqb (td_to td) zeroAddress); [apply log_quiet, Hq0|].
      exists w0. split; [reflexivity|].
      split; [apply quiet_frame_refl, Hq0|reflexivity]. }
    destruct Hlog2 as (w0' & -> & Hq0' & Hcd0').
    destruct (updateContractMetadata_quiet_count ev td w0' (proj1 Hq0'))
      as (w1 & Hrun & Hq1 & Hcount & _).
    exists w1. split; [exact Hrun|].
    split; [eapply quiet_frame_trans; [|exact Hq1];
            eapply quiet_frame_trans; eassumption|].
    rewrite Ha, Hch in Hcount. rewrite Hcount.
    unfold transferCount. rewrite Hcd0', Hcd0. reflexivity. }
  destruct Hproc as (w1 & -> & (Hs1 & Hc1 & He1) & Hcount).
  destruct (saveEvent_quiet ev td w1 Hs1) as (w2 & Hrun2 & Hs2 & Hc2 & Hcd2 & He2).
  unfold try_catch_M. rewrite Hrun2. cbn [fst].
  split; [exact Hs2|]. split; [congruence|].
  split; [unfold transferCount in *; rewrite Hcd2; exact Hcount|].
  rewrite He2, He1.
  split; [intros ->; reflexivity|].
  split.
  - intros k Hk. destruct (has_key (event_key ev) (blockchainEvents w));
      [exact Hk|]. rewrite has_key_app, Hk. reflexivity.
  - destruct (has_key (event_key ev) (blockchainEvents w)) eqn:E; [exact E|].
    rewrite has_key_app. cbn. rewrite doc_key_enhancedEvent.
    rewrite bool_decide_eq_true_2 by reflexivity. apply orb_true_r.
Qed.

Lemma handle_all_app (evs1 evs2 : list BlockchainEvent) (w : World) :
  handle_all (evs1 ++ evs2) w = handle_all evs2 (handle_all evs1 w).
Proof. unfold handle_all. apply fold_left_app. Qed.

Lemma handle_all_quiet (a : string) (c : Z) (config : ContractConfig)
    (evs : list BlockchainEvent) : forall w,
  schedule w = [] ->
  contractConfigs w !! (toLowerCase a, c) = Some config ->
  Forall (transfer_of a c) evs ->
  let w' := handle_all evs w in
  schedule w' = []
  /\ contractConfigs w' = contractConfigs w
  /\ transferCount w' (a, c) = transferCount w (a, c) + Z.of_nat (length evs)
  /\ (forall k, has_key k (blockchainEvents w) = true ->
                has_key k (blockchainEvents w') = true)
  /\ (Forall (fun ev => has_key (event_key ev) (blockchainEvents w) = true) evs ->
      blockchainEvents w' = blockchainEvents w)
  /\ Forall (fun ev => has_key (event_key ev) (blockchainEvents w') = true) evs.
Proof.
  induction evs as [|ev evs IH]; intros w Hs Hc Hall; cbv zeta.
  - cbn. repeat split; auto. lia.
  - apply Forall_cons in Hall as [Hev Hall].
    destruct (handle_quiet_accepted a c config ev w Hs Hc Hev)
      as (Hs1 & Hc1 & Hn1 & Hsame1 & Hmono1 & Hkey1).
    change (handle_all (ev :: evs) w) with (handle_all evs (handle ev w).1).
    destruct (IH (handle ev w).1 Hs1 ltac:(rewrite Hc1; exact Hc) Hall)
      as (Hs2 & Hc2 & Hn2 & Hmono2 & Hsame2 & Hkeys2).
    split; [exact Hs2|]. split; [congruence|].
    split; [rewrite Hn2, Hn1; cbn [length]; lia|].
    split; [intros k Hk; apply Hmono2, Hmono1, Hk|].
    split.
    + intros Hpresent. apply Forall_cons in Hpresent as [Hp Hps].
      rewrite Hsame2; [apply Hsame1, Hp|].
      eapply Forall_impl; [exact Hps|]. intros ev' Hk'. apply Hmono1, Hk'.
    + apply Forall_cons. split; [apply Hmono2, Hkey1|exact Hkeys2].
Qed.

(** [transferCount] counts deliveries, not stored events.  For Transfer
    events of one configured contract and a database that answers every
    request, handling [n] events raises the contract's [transferCount] by
    [n], whatever the events are; handling the same events once more
    stores no further document (the lookup finds each of them) and raises
    the count by [n] again. *)
Theorem transferCount_counts_deliveries (a : string) (c : Z)
    (config : ContractConfig) (evs : list BlockchainEvent) (w : World) :
  schedule w = [] ->
  contractConfigs w !! (toLowerCase a, c) = Some config ->
  Forall (transfer_of a c) evs ->
  transferCount (handle_all evs w) (a, c)
  = transferCount w (a, c) + Z.of_nat (length evs)
  /\ Forall (fun ev => has_key (event_key ev)
                         (blockchainEvents (handle_all evs w)) = true) evs
  /\ blockchainEvents (handle_all (evs ++ evs) w)
     = blockchainEvents (handle_all evs w)
  /\ transferCount (handle_all (evs ++ evs) w) (a, c)
     = transferCount w (a, c) + 2 * Z.of_nat (length evs).
Proof.
  intros Hs Hc Hall.
  destruct (handle_all_quiet a c config evs w Hs Hc Hall)
    as (Hs1 & Hc1 & Hn1 & _ & _ & Hkeys1).
  destruct (handle_all_quiet a c config evs (handle_all evs w) Hs1
              ltac:(rewrite Hc1; exact Hc) Hall)
    as (_ & _ & Hn2 & _ & Hsame2 & _).
  split; [exact Hn1|]. split; [exact Hkeys1|].
  rewrite handle_all_app.
  split; [apply Hsame2, Hkeys1|]. rewrite Hn2, Hn1. lia.
Qed.

Lemma transferCount_counts_deliveries_witness :
  transferCount (handle_all [Samples.ev1; Samples.ev1] Samples.world0)
    (address Samples.usdc, 1) = 2
  /\ length (blockchainEvents
               (handle_all [Samples.ev1; Samples.ev1] Samples.world0)) = 1%nat.
Proof.
  destruct (transferCount_counts_deliveries (address Samples.usdc) 1 Samples.usdc
              [Samples.ev1] Samples.world0)
    as (_ & _ & Hev & Hn).
  - reflexivity.
  - reflexivity.
  - repeat constructor. eexists. reflexivity.
  - split; [exact Hn|].
    change [Samples.ev1; Samples.ev1] with ([Samples.ev1] ++ [Samples.ev1]).
    rewrite Hev. reflexivity.
Defined.

(** *** The first block seen *)

Section Keeping.
Variable R : World -> World -> Prop.
Hypothesis R_refl : forall w, R w w.
Hypothesis R_trans : forall w1 w2 w3, R w1 w2 -> R w2 w3 -> R w1 w3.
Hypothesis R_same : forall w w', contractData w' = contractData w -> R w w'.

Lemma keeps_rel_mret {A} (a : A) : keeps_rel R (mret a : M A).
Proof. intros w. apply R_refl. Qed.

Lemma keeps_rel_log (l : log_entry) : keeps_rel R (log l).
Proof. intros w. apply R_same. reflexivity. Qed.

Lemma keeps_rel_bind {A B} (m : M A) (k : A -> M B) :
  keeps_rel R m -> (forall a, keeps_rel R (k a)) -> keeps_rel R (m ≫= k).
Proof.
  intros Hm Hk w. rewrite bind_run. specialize (Hm w).
  destruct (m w) as [w1 [a|e]]; cbn in *; [|exact Hm].
  eapply R_trans; [exact Hm|apply Hk].
Qed.

Lemma keeps_rel_try_catch {A} (body : M A) (handler : error -> M A) :
  keeps_rel R body -> (forall e, keeps_rel R (handler e)) ->
  keeps_rel R (try_catch_M body handler).
Proof.
  intros Hb Hh w. unfold try_catch_M. specialize (Hb w).
  destruct (body w) as [w1 [a|e]]; cbn in *; [exact Hb|].
  eapply R_trans; [exact Hb|apply Hh].
Qed.

Lemma keeps_rel_if {A} (b : bool) (m1 m2 : M A) :
  keeps_rel R m1 -> keeps_rel R m2 -> keeps_rel R (if b then m1 else m2).
Proof. destruct b; auto. Qed.

Lemma keeps_rel_throw {A} (e : error) : keeps_rel R (throw e : M A).
Proof. intros w. apply R_refl. Qed.

Lemma keeps_rel_lift {A} (c : completion A) : keeps_rel R (lift c).
Proof. intros w. apply R_refl. Qed.

(** A request that reads, or writes to the event collection only. *)
Lemma keeps_rel_request {A} (op : M A) :
  (forall w, contractData (op w).1 = contractData w) -> keeps_rel R (request op).
Proof.
  intros Hop w.
  destruct (request_cases op w) as (w0 & Hcd & _ & _ & _ & _ & [Hrun|[e Hrun]]);
    rewrite Hrun; apply R_same; [rewrite Hop|]; exact Hcd.
Qed.

End Keeping.

Lemma first_seen_kept_refl (w : World) : first_seen_kept w w.
Proof. intros k c H _. exact H. Qed.

Lemma first_seen_kept_trans (w1 w2 w3 : World) :
  first_seen_kept w1 w2 -> first_seen_kept w2 w3 -> first_seen_kept w1 w3.
Proof. intros H12 H23 k c H Hc. apply H23, Hc. apply H12, Hc. exact H. Qed.

Lemma first_seen_kept_same (w w' : World) :
  contractData w' = contractData w -> first_seen_kept w w'.
Proof. intros Hcd k c H _. unfold firstSeenBlock_of in *. rewrite Hcd. exact H. Qed.

Lemma first_seen_step_refl (k0 : string * Z) (u : bool) (w : World) :
  first_seen_step k0 u w w.
Proof. intros w0 H. exact H. Qed.

Lemma first_seen_step_trans (k0 : string * Z) (u : bool) (w1 w2 w3 : World) :
  first_seen_step k0 u w1 w2 -> first_seen_step k0 u w2 w3 ->
  first_seen_step k0 u w1 w3.
Proof. intros H12 H23 w0 H. apply H23, H12, H. Qed.

(** A step after which every [firstSeenBlock] reads as before. *)
Lemma first_seen_step_eq (k0 : string * Z) (u : bool) (w w' : World) :
  (forall k, firstSeenBlock_of w' k = firstSeenBlock_of w k) ->
  first_seen_step k0 u w w'.
Proof.
  intros Heq w0 [Ho Hk]. split.
  - intros k Hne. rewrite Heq. apply Ho, Hne.
  - intros Hu. rewrite Heq. apply Hk, Hu.
Qed.

Lemma first_seen_step_same (k0 : string * Z) (u : bool) (w w' : World) :
  contractData w' = contractData w -> first_seen_step k0 u w w'.
Proof.
  intros Hcd. apply first_seen_step_eq. intros k.
  unfold firstSeenBlock_of. rewrite Hcd. reflexivity.
Qed.

(** A step that may rewrite the record of [k0] but no other one. *)
Lemma first_seen_step_others (k0 : string * Z) (w w' : World) :
  (forall k, k <> k0 -> contractData w' !! k = contractData w !! k) ->
  first_seen_step k0 true w w'.
Proof.
  intros Hoth w0 [Ho _]. split; [|discriminate].
  intros k Hne. unfold firstSeenBlock_of in *. rewrite Hoth by exact Hne.
  apply Ho, Hne.
Qed.

Lemma firstSeenBlock_of_insert (w w' : World) (k0 : string * Z)
    (old rec : ContractData) :
  contractData w !! k0 = Some old ->
  contractData w' = <[k0 := rec]> (contractData w) ->
  firstSeenBlock rec = firstSeenBlock old ->
  forall k, firstSeenBlock_of w' k = firstSeenBlock_of w k.
Proof.
  intros Hold Hcd Hf k. unfold firstSeenBlock_of. rewrite Hcd.
  destruct (decide (k0 = k)) as [<-|Hne].
  - rewrite lookup_insert_eq, Hold. cbn. exact Hf.
  - rewrite lookup_insert_ne by exact Hne. reflexivity.
Qed.

Lemma updateLastProcessedBlock_first_seen (a : string) (c : Z) (b : Z) (w : World) :
  forall k, firstSeenBlock_of (updateLastProcessedBlock a c b w).1 k
            = firstSeenBlock_of w k.
Proof.
  intros k. unfold updateLastProcessedBlock. rewrite bind_run.
  destruct (findByAddress_cases a c w) as (w1 & Hcd & [Hrun|[e Hrun]]);
    rewrite Hrun; [|unfold firstSeenBlock_of; cbn; rewrite Hcd; reflexivity].
  transitivity (firstSeenBlock_of w1 k);
    [|unfold firstSeenBlock_of; rewrite Hcd; reflexivity].
  destruct (contractData w !! (a, c)) as [rec|]; [|reflexivity].
  destruct (falsy (lastProcessedBlock rec) || _); [|reflexivity].
  destruct (findOneAndUpdate_cases a c (set_lastProcessedBlock b) w1)
    as (w2 & r & Hrun2 & [Hsame|(rec1 & Hrec1 & Hins)]); rewrite Hrun2; cbn [fst].
  - unfold firstSeenBlock_of. rewrite Hsame. reflexivity.
  - apply (firstSeenBlock_of_insert w1 w2 (a, c) rec1 _ Hrec1 Hins). reflexivity.
Qed.

Lemma updateContract_first_seen (a : string) (c : Z) (u : ContractUpdate)
    (w : World) :
  forall k, firstSeenBlock_of (updateContract a c u w).1 k = firstSeenBlock_of w k.
Proof.
  intros k.
  destruct (updateContract_cases a c u w)
    as (w2 & r & Hrun2 & [Hsame|(rec1 & Hrec1 & Hins)]); rewrite Hrun2; cbn [fst].
  - unfold firstSeenBlock_of. rewrite Hsame. reflexivity.
  - apply (firstSeenBlock_of_insert w w2 (a, c) rec1 _ Hrec1 Hins). reflexivity.
Qed.

Lemma setFirstSeenBlock_others (a : string) (c : Z) (b : Z) (w : World) :
  forall k, k <> (a, c) ->
            contractData (setFirstSeenBlock a c b w).1 !! k = contractData w !! k.
Proof.
  intros k Hne. unfold setFirstSeenBlock. rewrite bind_run.
  destruct (findByAddress_cases a c w) as (w1 & Hcd & [Hrun|[e Hrun]]);
    rewrite Hrun; [|cbn; rewrite Hcd; reflexivity].
  transitivity (contractData w1 !! k); [|rewrite Hcd; reflexivity].
  destruct (contractData w !! (a, c)) as [rec|]; [|reflexivity].
  destruct (falsy (firstSeenBlock rec) || _); [|reflexivity].
  destruct (findOneAndUpdate_cases a c (set_firstSeenBlock b) w1)
    as (w2 & r & Hrun2 & [Hsame|(rec1 & Hrec1 & Hins)]); rewrite Hrun2; cbn [fst].
  - rewrite Hsame. reflexivity.
  - rewrite Hins. apply lookup_insert_ne. congruence.
Qed.

Lemma updateContractMetadata_first_seen (ev : BlockchainEvent)
    (td : ERC20TransferData) :
  keeps_rel first_seen_kept (updateContractMetadata ev td).
Proof.
  intros w. unfold updateContractMetadata. cbv zeta.
  set (k0 := (contractAddress ev, chainId ev)).
  rewrite try_catch_bind_run.
  destruct (findByAddress_cases (contractAddress ev) (chainId ev) w)
    as (w1 & Hcd & [Hrun|[e Hrun]]); rewrite Hrun;
    [|apply first_seen_kept_same; exact Hcd].
  set (unset := match contractData w !! k0 with
                | Some rec => falsy (firstSeenBlock rec)
                | None => true
                end).
  assert (Hstep : forall w', first_seen_step k0 unset w1 w' -> first_seen_kept w w').
  { intros w' Hst k c Hk Hc.
    assert (Hinv : first_seen_inv k0 unset w1 w1) by (split; reflexivity).
    destruct (Hst w1 Hinv) as [Ho Hu].
    assert (Hk1 : firstSeenBlock_of w1 k = Some c)
      by (unfold firstSeenBlock_of in *; rewrite Hcd; exact Hk).
    destruct (decide (k = k0)) as [->|Hne]; [|rewrite Ho by exact Hne; exact Hk1].
    rewrite Hu; [exact Hk1|].
    subst unset. unfold firstSeenBlock_of in Hk. fold k0 in Hk |- *.
    destruct (contractData w !! k0) as [rec|]; [|discriminate].
    cbn in Hk. rewrite Hk. cbn. apply Z.eqb_neq, Hc. }
  apply Hstep. fold k0 in unset |- *.
  pose proof (first_seen_step_refl k0 unset) as Hrefl.
  pose proof (first_seen_step_trans k0 unset) as Htrans.
  pose proof (first_seen_step_same k0 unset) as Hsame.
  destruct (contractData w !! k0) as [rec|] eqn:Erec.
  - cbv beta iota.
    match goal with |- first_seen_step k0 unset w1 (try_catch_M ?body ?h w1).1 =>
      assert (keeps_rel (first_seen_step k0 unset) (try_catch_M body h)) as Hk;
        [|apply Hk]
    end.
    apply (keeps_rel_try_catch _ Htrans);
      [|intros e; apply (keeps_rel_log _ Hsame)].
    apply (keeps_rel_bind _ Htrans); [|intros _; apply (keeps_rel_log _ Hsame)].
    apply (keeps_rel_bind _ Htrans).
    { intros w0. apply first_seen_step_eq.
      apply updateLastProcessedBlock_first_seen. }
    intros _. apply (keeps_rel_bind _ Htrans).
    { subst unset. destruct (falsy (firstSeenBlock rec));
        [|apply (keeps_rel_mret _ Hrefl)].
      apply (keeps_rel_bind _ Htrans); [|intros _; apply (keeps_rel_mret _ Hrefl)].
      intros w0. apply first_seen_step_others. apply setFirstSeenBlock_others. }
    intros _.
    apply (keeps_rel_bind _ Htrans); [|intros _; apply (keeps_rel_mret _ Hrefl)].
    intros w0. apply first_seen_step_eq. apply updateContract_first_seen.
  - cbv beta iota.
    match goal with |- first_seen_step k0 unset w1 (try_catch_M ?body ?h w1).1 =>
      assert (keeps_rel (first_seen_step k0 unset) (try_catch_M body h)) as Hk;
        [|apply Hk]
    end.
    apply (keeps_rel_try_catch _ Htrans);
      [|intros e; apply (keeps_rel_log _ Hsame)].
    apply (keeps_rel_bind _ Htrans); [|intros _; apply (keeps_rel_log _ Hsame)].
    apply (keeps_rel_bind _ Htrans).
    { intros w0. subst unset. apply first_seen_step_others.
      match goal with |- context [saveERC20Data ?a ?c ?t w0] =>
        destruct (saveERC20Data_cases a c t w0) as (w2 & r & Hrun2 & _ & Hoth)
      end.
      rewrite Hrun2. exact Hoth. }
    intros created.
    apply (keeps_rel_bind _ Htrans); [|intros _; apply (keeps_rel_mret _ Hrefl)].
    intros w0. apply first_seen_step_eq. apply updateContract_first_seen.
Qed.

Lemma handle_first_seen (ev : BlockchainEvent) :
  keeps_rel first_seen_kept (handle ev).
Proof.
  pose proof first_seen_kept_refl as Hrefl.
  pose proof first_seen_kept_trans as Htrans.
  pose proof first_seen_kept_same as Hsame.
  unfold handle.
  apply (keeps_rel_try_catch _ Htrans).
  2: { intros e. apply (keeps_rel_bind _ Htrans);
         [apply (keeps_rel_log _ Hsame)|].
       intros _. apply (keeps_rel_throw _ Hrefl). }
  apply (keeps_rel_bind _ Htrans).
  { apply (keeps_rel_request _ Hsame). reflexivity. }
  intros [config|]; [|apply (keeps_rel_log _ Hsame)].
  apply (keeps_rel_bind _ Htrans).
  { unfold extractTransferData. apply (keeps_rel_try_catch _ Htrans).
    - destruct (transfer_fields ev) as [[[from to] value]|].
      + apply (keeps_rel_bind _ Htrans); [apply (keeps_rel_lift _ Hrefl)|].
        intros vf.
        apply (keeps_rel_bind _ Htrans); [apply (keeps_rel_lift _ Hrefl)|].
        intros large. apply (keeps_rel_mret _ Hrefl).
      + apply (keeps_rel_bind _ Htrans); [apply (keeps_rel_log _ Hsame)|].
        intros _. apply (keeps_rel_mret _ Hrefl).
    - intros e. apply (keeps_rel_bind _ Htrans); [apply (keeps_rel_log _ Hsame)|].
      intros _. apply (keeps_rel_mret _ Hrefl). }
  intros [td|]; [|apply (keeps_rel_mret _ Hrefl)].
  apply (keeps_rel_bind _ Htrans).
  { unfold processERC20Transfer. cbv zeta.
    apply (keeps_rel_bind _ Htrans).
    { repeat apply keeps_rel_if; apply (keeps_rel_log _ Hsame). }
    intros _. apply (keeps_rel_bind _ Htrans).
    { repeat apply keeps_rel_if;
        first [apply (keeps_rel_log _ Hsame)|apply (keeps_rel_mret _ Hrefl)]. }
    intros _. apply updateContractMetadata_first_seen. }
  intros _. intros w.
  destruct (saveEvent_cases ev td w) as (w' & Hrun & Hcd & _).
  rewrite Hrun. apply first_seen_kept_same. exact Hcd.
Qed.

(** [firstSeenBlock] is written once.  While the handler handles events,
    under every schedule of failures, a [firstSeenBlock] that is set to a
    block other than [0] keeps its value, also when an event of an earlier
    block is handled later.  With a database that answers every request,
    the metadata update of an event leaves the [firstSeenBlock] of its
    contract at the block of that event if there was no record, no value,
    or the value [0] (which counts as unset), and as it was otherwise. *)
Theorem firstSeenBlock_is_written_once (evs : list BlockchainEvent) (w : World) :
  first_seen_kept w (handle_all evs w)
  /\ (forall ev td w0,
        In ev evs -> schedule w0 = [] ->
        firstSeenBlock_of (updateContractMetadata ev td w0).1
          (contractAddress ev, chainId ev)
        = match firstSeenBlock_of w0 (contractAddress ev, chainId ev) with
          | Some c => if c =? 0 then Some (blockNumber ev) else Some c
          | None => Some (blockNumber ev)
          end).
Proof.
  split.
  - revert w. induction evs as [|ev evs IH]; intros w;
      [apply first_seen_kept_refl|].
    change (handle_all (ev :: evs) w) with (handle_all evs (handle ev w).1).
    eapply first_seen_kept_trans; [apply handle_first_seen|apply IH].
  - intros ev td w0 _ Hs. unfold firstSeenBlock_of.
    destruct (contractData w0 !! (contractAddress ev, chainId ev)) as [rec|] eqn:Hrec.
    + destruct (updateContractMetadata_quiet_existing ev td w0 rec Hs Hrec)
        as (w' & rec' & Hrun & _ & Hcd & _ & Hf).
      rewrite Hrun. cbn [fst]. rewrite Hcd, lookup_insert_eq. cbn.
      rewrite Hf. unfold falsy. destruct (firstSeenBlock rec) as [c|]; [|reflexivity].
      destruct (c =? 0); reflexivity.
    + destruct (updateContractMetadata_quiet_absent ev td w0 Hs Hrec)
        as (w' & rec' & Hrun & _ & Hcd & _ & _ & Hf & _).
      rewrite Hrun. cbn [fst]. rewrite Hcd, lookup_insert_eq. cbn. exact Hf.
Qed.

Lemma firstSeenBlock_is_written_once_witness :
  firstSeenBlock_of (handle_all [Samples.ev2] Samples.world0)
    (address Samples.usdc, 1) = Some 96
  /\ firstSeenBlock_of (handle_all [Samples.ev2; Samples.ev1] Samples.world0)
       (address Samples.usdc, 1) = Some 96.
Proof.
  split; [vm_compute; reflexivity|].
  change [Samples.ev2; Samples.ev1] with ([Samples.ev2] ++ [Samples.ev1]).
  rewrite handle_all_app.
  destruct (firstSeenBlock_is_written_once [Samples.ev1]
              (handle_all [Samples.ev2] Samples.world0)) as [Hkept _].
  apply (Hkept (address Samples.usdc, 1) 96).
  - vm_compute. reflexivity.
  - discriminate.
Defined.

End HandlerMore.
